(** * Letterboxd list ingestion: a shallow embedding of [pages/api/fetch-list.js]

    The first part embeds the source: the string operations it uses,
    [extractListPath], [dedupeFilms], the collaborators (network, clock,
    cheerio, xml2js) with a small state-and-exception monad over them,
    [fetchWithRetry], [tryRssFeed], [scrapeAllPages] and the request
    [handler], together with [normalizeUrl] of [pages/index.js].  The
    second part states and proves what the specification says of them.

    JavaScript strings are Rocq strings whose characters stand for code
    units below 256.  An asynchronous function on its own is run in
    sequence; the two that the handler starts together under
    [Promise.all] are followed call by call, in any order of the two.
    Every call to a collaborator is recorded in a trace, so that
    statements about the number and order of network calls can be made. *)

From Stdlib Require Import Ascii String List Arith Lia Bool DecimalString ZArith Floats.
From Stdlib Require DecimalNat DecimalFacts.
From stdpp Require Import base decidable list strings gmap.

Import ListNotations.
Set Warnings "-inexact-float".
Local Open Scope string_scope.
Local Open Scope list_scope.

(** ** JavaScript string helpers *)

Definition slash : ascii := "/"%char.

(** A JavaScript value used as a condition: a string is truthy when it is
    not empty. *)
Definition truthy (s : string) : bool :=
  match s with EmptyString => false | String _ _ => true end.

(** [a || b] on a possibly undefined string [a] and a string [b]. *)
Definition js_or (a : option string) (b : string) : string :=
  match a with
  | Some s => if truthy s then s else b
  | None => b
  end.

(** [s.startsWith(p)], returning what follows the prefix. *)
Fixpoint strip_prefix (p s : string) : option string :=
  match p, s with
  | EmptyString, _ => Some s
  | String _ _, EmptyString => None
  | String a p', String b s' =>
      if Ascii.eqb a b then strip_prefix p' s' else None
  end.

Definition startsWith (s p : string) : bool :=
  match strip_prefix p s with Some _ => true | None => false end.

Fixpoint no_slash (s : string) : bool :=
  match s with
  | EmptyString => true
  | String c s' => negb (Ascii.eqb c slash) && no_slash s'
  end.

(** The greedy group [([^/]+)]: the longest run of characters other than
    a slash at the head of [s], and what follows it.  The class is a
    negated one, so every other character belongs to it, blanks and line
    breaks included. *)
Fixpoint span_segment (s : string) : string * string :=
  match s with
  | EmptyString => (EmptyString, EmptyString)
  | String c s' =>
      if Ascii.eqb c slash then (EmptyString, s)
      else let '(seg, rest) := span_segment s' in (String c seg, rest)
  end.

Fixpoint slashes (k : nat) : string :=
  match k with
  | 0 => EmptyString
  | S k' => String slash (slashes k')
  end.

(** White space and line terminators of [String.prototype.trim] among
    the code units below 256: TAB, LF, VT, FF, CR, space and NBSP. *)
Definition is_js_space (c : ascii) : bool :=
  let n := nat_of_ascii c in
  (((9 <=? n) && (n <=? 13)) || (n =? 32) || (n =? 160))%nat.

Fixpoint trim_start (s : string) : string :=
  match s with
  | EmptyString => EmptyString
  | String c s' => if is_js_space c then trim_start s' else s
  end.

Fixpoint trim_end (s : string) : string :=
  match s with
  | EmptyString => EmptyString
  | String c s' =>
      match trim_end s' with
      | EmptyString => if is_js_space c then EmptyString else String c EmptyString
      | t => String c t
      end
  end.

Definition trim (s : string) : string := trim_end (trim_start s).

(** [s.replace(/\/+$/, '')]: the one run of slashes that ends the string
    is removed. *)
Fixpoint strip_trailing_slashes (s : string) : string :=
  match s with
  | EmptyString => EmptyString
  | String c s' =>
      match strip_trailing_slashes s' with
      | EmptyString => if Ascii.eqb c slash then EmptyString else String c EmptyString
      | t => String c t
      end
  end.

(** [toLowerCase] on one code unit below 256: A-Z and the Latin-1
    capitals (all of 192..222 but the multiplication sign 215) move up
    by 32. *)
Definition lower_char (c : ascii) : ascii :=
  let n := nat_of_ascii c in
  if (((65 <=? n) && (n <=? 90))
      || ((192 <=? n) && (n <=? 222) && negb (n =? 215)))%nat
  then ascii_of_nat (n + 32) else c.

Fixpoint toLowerCase (s : string) : string :=
  match s with
  | EmptyString => EmptyString
  | String c s' => String (lower_char c) (toLowerCase s')
  end.

(** Template-literal interpolation of a number [${page}]. *)
Definition decimal (n : nat) : string :=
  DecimalString.NilZero.string_of_uint (Nat.to_uint n).

(** ** [normalizeUrl] (index.js, lines 31-34) *)
Definition normalizeUrl (inputUrl : string) : string :=
  toLowerCase (strip_trailing_slashes (trim inputUrl)).

(** ** [extractListPath] (fetch-list.js, lines 53-62)

    [url.match(/letterboxd\.com\/([^/]+)\/list\/([^/]+)/)] scans the start
    positions from left to right.  At one position the literal
    [letterboxd.com/] is followed by a greedy segment; a slash has to
    follow the segment, so giving characters back can never help and only
    the longest run is tried.  The second segment ends the pattern and is
    the longest run as well. *)
Definition list_match_here (s : string) : option (string * string) :=
  match strip_prefix "letterboxd.com/" s with
  | None => None
  | Some r =>
      let '(owner, r1) := span_segment r in
      if truthy owner then
        match strip_prefix "/list/" r1 with
        | None => None
        | Some r2 =>
            let '(name, _) := span_segment r2 in
            if truthy name then Some (owner, name) else None
        end
      else None
  end.

Fixpoint list_match (s : string) : option (string * string) :=
  match list_match_here s with
  | Some m => Some m
  | None =>
      match s with
      | EmptyString => None
      | String _ s' => list_match s'
      end
  end.

Definition extractListPath (url : string) : option string :=
  match list_match url with
  | Some (m1, m2) => Some ("/" +:+ m1 +:+ "/list/" +:+ m2)
  | None => None
  end.

(** [link.match(/letterboxd\.com\/film\/([^/]+)/)?.[1]] (line 116). *)
Definition film_match_here (s : string) : option string :=
  match strip_prefix "letterboxd.com/film/" s with
  | None => None
  | Some r =>
      let '(seg, _) := span_segment r in
      if truthy seg then Some seg else None
  end.

Fixpoint film_match (s : string) : option string :=
  match film_match_here s with
  | Some m => Some m
  | None =>
      match s with
      | EmptyString => None
      | String _ s' => film_match s'
      end
  end.

(** An occurrence of the pattern in [s]: after [pre] come the literal
    [letterboxd.com/], a segment [owner], the literal [/list/] and a
    segment [name], both segments non-empty and free of slashes. *)
Definition OccursAt (pre owner name post s : string) : Prop :=
  s = pre +:+ "letterboxd.com/" +:+ owner +:+ "/list/" +:+ name +:+ post ∧
  owner ≠ "" ∧ name ≠ "" ∧ no_slash owner = true ∧ no_slash name = true.

(** Nothing or a slash comes next: the segment before cannot be longer. *)
Definition segment_ends (post : string) : Prop :=
  post = "" ∨ ∃ rest, post = String slash rest.

(** ** Film records *)

(** The object literal built at lines 121-126 and 189-194 of fetch-list.js. *)
Record Film := mkFilm {
  title : string;
  year : string;
  slug : string;
  letterboxdUrl : string
}.

(** ** [dedupeFilms] (fetch-list.js, lines 222-231)

    [films.filter] visits the array from left to right; the callback reads
    and extends the one [seen] set, which is threaded through the visit. *)
Fixpoint dedupe_filter (seen : gset string) (films : list Film) : list Film :=
  match films with
  | [] => []
  | film :: rest =>
      if decide (slug film ∈ seen)
      then dedupe_filter seen rest
      else film :: dedupe_filter ({[slug film]} ∪ seen) rest
  end.

Definition dedupeFilms (films : list Film) : list Film :=
  dedupe_filter ∅ films.

(** ** Collaborators and effects *)

(** A value thrown by JavaScript code: an [Error] instance with its
    [message], or any other value. *)
Inductive Thrown :=
  | ErrorObject (message : string)
  | OtherValue (shown : string).

(** How a promise of a collaborator settles. *)
Inductive Settled (A : Type) :=
  | Fulfilled (a : A)
  | Rejected (e : Thrown).
Arguments Fulfilled {A} a.
Arguments Rejected {A} e.

(** What the code reads of a [fetch] response: [response.ok] and the
    promise of [response.text()]. *)
Record Response := mkResponse {
  ok : bool;
  text : Settled string
}.

(** The part of a cheerio document that [scrapeAllPages] queries.  Each
    [li.posteritem] lists its descendants matching [div[data-item-slug]],
    each with its [data-item-slug] attribute and its [data-item-name]
    attribute when it has one. *)
Record ReactComponent := mkComponent {
  data_item_slug : string;
  data_item_name : option string
}.

Record PosterItem := mkPosterItem {
  react_components : list ReactComponent
}.

Record Document := mkDocument {
  li_posteritem : list PosterItem;   (* $('li.posteritem') *)
  a_next : nat;                      (* $('a.next').length *)
  a_rel_next : nat                   (* $('a[rel="next"]').length *)
}.

(** One [item] of [result.rss.channel[0].item] as xml2js builds it: each
    field is the first text of the child element, when there is one. *)
Record RssItem := mkRssItem {
  item_link : option string;          (* item.link?.[0] *)
  item_filmTitle : option string;     (* item['letterboxd:filmTitle']?.[0] *)
  item_title : option string;         (* item.title?.[0] *)
  item_filmYear : option string       (* item['letterboxd:filmYear']?.[0] *)
}.

Definition Headers := list (string * string).

(** The outside world of one request: the network behind the global
    [fetch], the passing of time under [setTimeout], and the two parsing
    libraries (cheerio, xml2js), none of which is part of the repository.
    [cheerio_load] reads any string; [xml_parse] gives
    [result.rss?.channel?.[0]?.item] of the parsed feed, or rejects. *)
Class Collaborators := {
  World : Type;
  net_fetch : string -> Headers -> World -> Settled Response * World;
  elapse : nat -> World -> World;
  cheerio_load : string -> Document;
  xml_parse : string -> Settled (option (list RssItem))
}.

(** What the code did to its collaborators, in order. *)
Inductive Event :=
  | EvFetch (url : string) (outcome : Settled Response)
  | EvSleep (ms : nat)
  | EvCheerio (html : string)
  | EvXml (xml : string).

Record Env `{Collaborators} := mkEnv {
  world : World;
  trace : list Event
}.

(** How a piece of code ends: with a value, with a thrown value, or (in
    the model only) because a loop ran out of its iteration budget. *)
Inductive Completion (A : Type) :=
  | Normal (a : A)
  | Throw (e : Thrown)
  | OutOfFuel.
Arguments Normal {A} a.
Arguments Throw {A} e.
Arguments OutOfFuel {A}.

Section Effects.
Context `{Collaborators}.

Definition M (A : Type) : Type := Env -> Completion A * Env.

Definition ret {A} (a : A) : M A := fun env => (Normal a, env).

Definition throw {A} (e : Thrown) : M A := fun env => (Throw e, env).

Definition bind {A B} (m : M A) (k : A -> M B) : M B :=
  fun env =>
    match m env with
    | (Normal a, env1) => k a env1
    | (Throw e, env1) => (Throw e, env1)
    | (OutOfFuel, env1) => (OutOfFuel, env1)
    end.

(** [try { m } catch (error) { handler }] *)
Definition tryCatch {A} (m : M A) (handler : Thrown -> M A) : M A :=
  fun env =>
    match m env with
    | (Throw e, env1) => handler e env1
    | r => r
    end.

(** [try { m } catch ...] with the outcome handed to the code that
    follows, for a handler that reads the locals as they stand. *)
Definition attempt {A} (m : M A) : M (Thrown + A) :=
  tryCatch (bind m (fun a => ret (inr a))) (fun e => ret (inl e)).

Definition awaitSettled {A} (p : Settled A) : M A :=
  match p with
  | Fulfilled a => ret a
  | Rejected e => throw e
  end.

(** [await fetch(url, options)] *)
Definition fetch (url : string) (options : Headers) : M Response :=
  fun env =>
    let '(outcome, w) := net_fetch url options (world env) in
    awaitSettled outcome
      {| world := w; trace := trace env ++ [EvFetch url outcome] |}.

(** [await new Promise((r) => setTimeout(r, ms))] *)
Definition sleep (ms : nat) : M unit :=
  fun env =>
    (Normal tt, {| world := elapse ms (world env); trace := trace env ++ [EvSleep ms] |}).

(** [await response.text()] *)
Definition responseText (response : Response) : M string :=
  awaitSettled (text response).

(** [cheerio.load(html)] *)
Definition cheerioLoad (html : string) : M Document :=
  fun env =>
    (Normal (cheerio_load html),
     {| world := world env; trace := trace env ++ [EvCheerio html] |}).

(** [await parseStringPromise(text)] *)
Definition parseStringPromise (xml : string) : M (option (list RssItem)) :=
  fun env =>
    awaitSettled (xml_parse xml)
      {| world := world env; trace := trace env ++ [EvXml xml] |}.
End Effects.

Declare Scope js_scope.
Delimit Scope js_scope with js.
Notation "x <- m ;; k" := (bind m (fun x => k))
  (at level 100, m at next level, right associativity) : js_scope.
Notation "m ;;; k" := (bind m (fun _ => k))
  (at level 100, right associativity) : js_scope.
Local Open Scope js_scope.

Section Pipeline.
Context `{Collaborators}.

(** ** [fetchWithRetry] (fetch-list.js, lines 64-81) *)

(** One turn of the [for] loop at index [i]: [Some r] when the turn
    executes [return r], [None] when it falls through to [i++]. *)
Definition retryTurn (url : string) (options : Headers) (retries i : nat)
  : M (option (option Response)) :=
  tryCatch
    (response <- fetch url options ;;
     if ok response then ret (Some (Some response))
     else
       (if (i <? retries)%nat then sleep (500 * (i + 1)) else ret tt) ;;;
       ret None)
    (fun error =>
       if (i =? retries)%nat then throw error
       else sleep (500 * (i + 1)) ;;; ret None).

(** The loop with [turns] turns left; [i <= retries] holds exactly
    while turns are left, for [turns = retries + 1 - i]. *)
Fixpoint retryLoop (turns : nat) (url : string) (options : Headers)
    (retries i : nat) : M (option Response) :=
  match turns with
  | 0 => ret None
  | S turns' =>
      r <- retryTurn url options retries i ;;
      match r with
      | Some result => ret result
      | None => retryLoop turns' url options retries (S i)
      end
  end.

Definition fetchWithRetryN (url : string) (options : Headers) (retries : nat)
  : M (option Response) :=
  retryLoop (S retries) url options retries 0.

(** Every call in the file leaves [retries] at its default, 2. *)
Definition fetchWithRetry (url : string) (options : Headers) : M (option Response) :=
  fetchWithRetryN url options 2.

(** ** [tryRssFeed] (fetch-list.js, lines 83-134) *)

Definition userAgent : string :=
  "Mozilla/5.0 (Macintosh; Intel Mac OS X 10_15_7) AppleWebKit/537.36 (KHTML, like Gecko) Chrome/120.0.0.0 Safari/537.36".

Definition rssHeaders : Headers :=
  [ ("User-Agent", userAgent);
    ("Accept", "application/rss+xml,application/xml;q=0.9,*/*;q=0.8");
    ("Accept-Language", "en-US,en;q=0.9") ].

Definition rssItemFilm (item : RssItem) : Film :=
  let link := js_or (item_link item) "" in
  let title := js_or (item_filmTitle item) (js_or (item_title item) "") in
  let year := js_or (item_filmYear item) "" in
  let slug := js_or (film_match link) "" in
  let formattedTitle :=
    if truthy year then title +:+ " (" +:+ year +:+ ")" else title in
  {| title := formattedTitle; year := year; slug := slug; letterboxdUrl := link |}.

Definition tryRssFeed (listPath : string) : M (option (list Film)) :=
  tryCatch
    (let rssUrl := "https://letterboxd.com" +:+ listPath +:+ "/rss/" in
     response <- fetchWithRetry rssUrl rssHeaders ;;
     match response with
     | None => ret None
     | Some response =>
         if negb (ok response) then ret None
         else
           text <- responseText response ;;
           if negb (startsWith (trim text) "<?xml")
              && negb (startsWith (trim text) "<rss")
           then ret None
           else
             items <- parseStringPromise text ;;
             match items with
             | None => ret None
             | Some items =>
                 let films := map rssItemFilm items in
                 ret (Some (List.filter (fun f => truthy (slug f)) films))
             end
     end)
    (fun error => ret None).

(** ** [scrapeAllPages] (fetch-list.js, lines 136-220) *)

Definition pageHeaders : Headers :=
  [ ("User-Agent", userAgent);
    ("Accept", "text/html,application/xhtml+xml,application/xml;q=0.9,*/*;q=0.8");
    ("Accept-Language", "en-US,en;q=0.9");
    ("Cache-Control", "no-cache") ].

(** The locals of the function. *)
Record Walk := mkWalk {
  films : list Film;
  page : nat;
  hasMore : bool;
  consecutiveFailures : nat
}.

Definition pageUrl (listPath : string) (page : nat) : string :=
  if (page =? 1)%nat
  then "https://letterboxd.com" +:+ listPath +:+ "/"
  else "https://letterboxd.com" +:+ listPath +:+ "/page/" +:+ decimal page +:+ "/".

(** The callback of [filmElements.each] (lines 181-196): the attributes
    are read off the first matching [div]; an element that has none
    gives [undefined], hence the empty string. *)
Definition posterFilm (el : PosterItem) : list Film :=
  let slug := js_or (option_map data_item_slug (head (react_components el))) "" in
  let title :=
    js_or (match head (react_components el) with
           | Some c => data_item_name c
           | None => None
           end) "" in
  if truthy slug && truthy title
  then [ {| title := title; year := ""; slug := slug;
            letterboxdUrl := "https://letterboxd.com/film/" +:+ slug +:+ "/" |} ]
  else [].

Definition pageFilms (doc : Document) : list Film :=
  flat_map posterFilm (li_posteritem doc).

(** How one turn of the [while] loop ends: [break], or back to the loop
    condition ([continue] and the end of the body alike). *)
Inductive Turn :=
  | Break (w : Walk)
  | Again (w : Walk).

(** A failed page: [consecutiveFailures++], and [break] on page 1.  The
    same statements stand at lines 160-165 and in the [catch] block at
    lines 212-215. *)
Definition pageFailed (w : Walk) : Turn :=
  let w' := {| films := films w; page := page w; hasMore := hasMore w;
               consecutiveFailures := S (consecutiveFailures w) |} in
  if (page w =? 1)%nat then Break w' else Again w'.

(** Line 199. *)
Definition hasNextPage (doc : Document) : bool :=
  (0 <? a_next doc)%nat || (0 <? a_rel_next doc)%nat.

(** Lines 174-209, after the page has been loaded. *)
Definition scrapePage (w : Walk) (doc : Document) : Turn :=
  if (length (li_posteritem doc) =? 0)%nat
  then Break {| films := films w; page := page w; hasMore := false;
                consecutiveFailures := consecutiveFailures w |}
  else
    let films' := films w ++ pageFilms doc in
    let hasMore1 := if hasNextPage doc then hasMore w else false in
    let page' := if hasNextPage doc then S (page w) else page w in
    let hasMore2 := if (50 <? page')%nat then false else hasMore1 in
    Again {| films := films'; page := page'; hasMore := hasMore2;
             consecutiveFailures := consecutiveFailures w |}.

(** [consecutiveFailures = 0] (line 168). *)
Definition failuresReset (w : Walk) : Walk :=
  {| films := films w; page := page w; hasMore := hasMore w;
     consecutiveFailures := 0 |}.

(** The body of the [while] loop.  The [catch] block is written out at
    the two calls that can throw, [fetchWithRetry] and
    [response.text()], with the locals as they stand at each. *)
Definition scrapeTurn (listPath : string) (w : Walk) : M Turn :=
  r <- attempt (fetchWithRetry (pageUrl listPath (page w)) pageHeaders) ;;
  match r with
  | inl error => ret (pageFailed w)
  | inr None => ret (pageFailed w)
  | inr (Some response) =>
      if negb (ok response) then ret (pageFailed w)
      else
        let w0 := failuresReset w in
        t <- attempt (responseText response) ;;
        match t with
        | inl error => ret (pageFailed w0)
        | inr html =>
            doc <- cheerioLoad html ;;
            ret (scrapePage w0 doc)
        end
  end.

Definition loopCondition (w : Walk) : bool :=
  hasMore w && (consecutiveFailures w <? 2)%nat.

Fixpoint scrapeLoop (fuel : nat) (listPath : string) (w : Walk) : M Walk :=
  if loopCondition w then
    match fuel with
    | 0 => fun env => (OutOfFuel, env)
    | S fuel' =>
        t <- scrapeTurn listPath w ;;
        match t with
        | Break w' => ret w'
        | Again w' => scrapeLoop fuel' listPath w'
        end
    end
  else ret w.

Definition initialWalk : Walk :=
  {| films := []; page := 1; hasMore := true; consecutiveFailures := 0 |}.

(** [fuel] bounds the turns of the [while] loop; the JavaScript loop has
    no such bound, and a run of the model that ends in [OutOfFuel] says
    nothing about it. *)
Definition scrapeAllPages (fuel : nat) (listPath : string) : M (list Film) :=
  w <- scrapeLoop fuel listPath initialWalk ;;
  ret (films w).

(** A bound on the turns the loop takes from [w] when every page that
    is fetched can be read: a failed fetch uses one turn, a scraped page
    frees at most one and moves [page] up by one. *)
Definition turnsLeft (w : Walk) : nat :=
  (2 * (51 - page w) + (2 - consecutiveFailures w))%nat.

(** ** [handler] (fetch-list.js, lines 4-51) *)

Inductive Body :=
  | ErrorBody (error : string)
  | FilmsBody (films : list Film).

Record HttpResponse := mkHttp {
  status : nat;
  body : Body
}.

(** Lines 27-33. *)
Definition selectFilms (rssFilms : option (list Film)) (scrapedFilms : list Film)
  : list Film :=
  if (0 <? length scrapedFilms)%nat then scrapedFilms
  else
    match rssFilms with
    | Some l => if (0 <? length l)%nat then l else []
    | None => []
    end.

(** Lines 27-44. *)
Definition respond (rssFilms : option (list Film)) (scrapedFilms : list Film)
  : HttpResponse :=
  let films := selectFilms rssFilms scrapedFilms in
  let uniqueFilms := dedupeFilms films in
  if (length uniqueFilms =? 0)%nat
  then {| status := 404;
          body := ErrorBody "Could not fetch list. The list may be private or temporarily unavailable." |}
  else {| status := 200; body := FilmsBody uniqueFilms |}.

(** Lines 45-50. *)
Definition errorMessage (error : Thrown) : string :=
  match error with
  | ErrorObject message => message
  | OtherValue _ => "Failed to fetch list"
  end.

Definition failed (error : Thrown) : HttpResponse :=
  {| status := 500; body := ErrorBody (errorMessage error) |}.

(** ** Reading the model *)

(** The code [run] returns [a] and leaves [env']: every large enough
    iteration budget gives that outcome. *)
Definition returns {A} (run : nat -> M A) (env : Env) (a : A) (env' : Env) : Prop :=
  ∃ fuel, ∀ fuel', (fuel ≤ fuel')%nat → run fuel' env = (Normal a, env').

(** The environment after a delay, a network call and a cheerio load. *)
Definition slept (ms : nat) (env : Env) : Env :=
  {| world := elapse ms (world env); trace := trace env ++ [EvSleep ms] |}.

Definition fetched (url : string) (o : Settled Response) (w : World) (env : Env) : Env :=
  {| world := w; trace := trace env ++ [EvFetch url o] |}.

Definition loaded (html : string) (env : Env) : Env :=
  {| world := world env; trace := trace env ++ [EvCheerio html] |}.

(** A page fetch fails when [fetchWithRetry] gives no response with
    [ok]: it returned [null] or threw (line 159 and the [catch]). *)
Definition fetchFailed (r : Completion (option Response)) : bool :=
  match r with
  | Normal (Some response) => negb (ok response)
  | _ => true
  end.

(** The walk from one test of the loop condition to a later one. *)
Inductive WalkReaches (listPath : string) : Walk * Env -> Walk * Env -> Prop :=
  | reaches_here c : WalkReaches listPath c c
  | reaches_turn w env w1 env1 c :
      loopCondition w = true ->
      scrapeTurn listPath w env = (Normal (Again w1), env1) ->
      WalkReaches listPath (w1, env1) c ->
      WalkReaches listPath (w, env) c.

(** Every response with [ok] that the network gives has a body that
    [response.text()] can read. *)
Definition BodiesReadable : Prop :=
  ∀ url options w r w',
    net_fetch url options w = (Fulfilled r, w') → ok r = true →
    ∃ html, text r = Fulfilled html.
End Pipeline.

(** ** Code under way at the same time

    [Promise.all] at line 22 has the feed reader and the walker under
    way together: each runs from one of its calls to the next, and which
    of the two goes on first is settled by what the network and the
    timers do.  To follow that, the two functions are written a second
    time, as the calls they make one after the other, so that they can
    be advanced one call at a time.  Run alone, they are the functions
    above (see the properties). *)

(** Asynchronous code at a point of its run: it is over, or it stands at
    a call of a collaborator and goes on from what the call gives. *)
Inductive Prog (A : Type) : Type :=
  | Done (c : Completion A)
  | Fetching (url : string) (options : Headers) (k : Settled Response -> Prog A)
  | Sleeping (ms : nat) (k : Prog A)
  | Loading (html : string) (k : Prog A)
  | Parsing (xml : string) (k : Prog A).
Arguments Done {A} c.
Arguments Fetching {A} url options k.
Arguments Sleeping {A} ms k.
Arguments Loading {A} html k.
Arguments Parsing {A} xml k.

Declare Scope async_scope.
Delimit Scope async_scope with async.

Module Async.

Definition ret {A} (a : A) : Prog A := Done (Normal a).

Definition throw {A} (e : Thrown) : Prog A := Done (Throw e).

Fixpoint bind {A B} (p : Prog A) (k : A -> Prog B) : Prog B :=
  match p with
  | Done (Normal a) => k a
  | Done (Throw e) => Done (Throw e)
  | Done OutOfFuel => Done OutOfFuel
  | Fetching url options q => Fetching url options (fun o => bind (q o) k)
  | Sleeping ms q => Sleeping ms (bind q k)
  | Loading html q => Loading html (bind q k)
  | Parsing xml q => Parsing xml (bind q k)
  end.

(** [try { p } catch (error) { handler }] *)
Fixpoint tryCatch {A} (p : Prog A) (handler : Thrown -> Prog A) : Prog A :=
  match p with
  | Done (Throw e) => handler e
  | Done c => Done c
  | Fetching url options q => Fetching url options (fun o => tryCatch (q o) handler)
  | Sleeping ms q => Sleeping ms (tryCatch q handler)
  | Loading html q => Loading html (tryCatch q handler)
  | Parsing xml q => Parsing xml (tryCatch q handler)
  end.

Definition attempt {A} (p : Prog A) : Prog (Thrown + A) :=
  tryCatch (bind p (fun a => ret (inr a))) (fun e => ret (inl e)).

Definition awaitSettled {A} (p : Settled A) : Prog A :=
  match p with
  | Fulfilled a => ret a
  | Rejected e => throw e
  end.

(** [await fetch(url, options)] *)
Definition fetch (url : string) (options : Headers) : Prog Response :=
  Fetching url options awaitSettled.

(** [await new Promise((r) => setTimeout(r, ms))] *)
Definition sleep (ms : nat) : Prog unit := Sleeping ms (ret tt).

(** [await response.text()] *)
Definition responseText (response : Response) : Prog string :=
  awaitSettled (text response).

Notation "x <- m ;; k" := (bind m (fun x => k))
  (at level 100, m at next level, right associativity) : async_scope.
Notation "m ;;; k" := (bind m (fun _ => k))
  (at level 100, right associativity) : async_scope.
Local Open Scope async_scope.

(** [fetchWithRetry] (lines 64-81) *)
Definition retryTurn (url : string) (options : Headers) (retries i : nat)
  : Prog (option (option Response)) :=
  tryCatch
    (response <- fetch url options ;;
     if ok response then ret (Some (Some response))
     else
       (if (i <? retries)%nat then sleep (500 * (i + 1)) else ret tt) ;;;
       ret None)
    (fun error =>
       if (i =? retries)%nat then throw error
       else sleep (500 * (i + 1)) ;;; ret None).

Fixpoint retryLoop (turns : nat) (url : string) (options : Headers)
    (retries i : nat) : Prog (option Response) :=
  match turns with
  | 0 => ret None
  | S turns' =>
      r <- retryTurn url options retries i ;;
      match r with
      | Some result => ret result
      | None => retryLoop turns' url options retries (S i)
      end
  end.

Definition fetchWithRetryN (url : string) (options : Headers) (retries : nat)
  : Prog (option Response) :=
  retryLoop (S retries) url options retries 0.

Definition fetchWithRetry (url : string) (options : Headers) : Prog (option Response) :=
  fetchWithRetryN url options 2.

Section Sources.
Context `{Collaborators}.

(** [cheerio.load(html)] *)
Definition cheerioLoad (html : string) : Prog Document :=
  Loading html (ret (cheerio_load html)).

(** [await parseStringPromise(text)] *)
Definition parseStringPromise (xml : string) : Prog (option (list RssItem)) :=
  Parsing xml (awaitSettled (xml_parse xml)).

(** [tryRssFeed] (lines 83-134) *)
Definition tryRssFeed (listPath : string) : Prog (option (list Film)) :=
  tryCatch
    (let rssUrl := "https://letterboxd.com" +:+ listPath +:+ "/rss/" in
     response <- fetchWithRetry rssUrl rssHeaders ;;
     match response with
     | None => ret None
     | Some response =>
         if negb (ok response) then ret None
         else
           text <- responseText response ;;
           if negb (startsWith (trim text) "<?xml")
              && negb (startsWith (trim text) "<rss")
           then ret None
           else
             items <- parseStringPromise text ;;
             match items with
             | None => ret None
             | Some items =>
                 let films := map rssItemFilm items in
                 ret (Some (List.filter (fun f => truthy (slug f)) films))
             end
     end)
    (fun error => ret None).

(** [scrapeAllPages] (lines 136-220) *)
Definition scrapeTurn (listPath : string) (w : Walk) : Prog Turn :=
  r <- attempt (fetchWithRetry (pageUrl listPath (page w)) pageHeaders) ;;
  match r with
  | inl error => ret (pageFailed w)
  | inr None => ret (pageFailed w)
  | inr (Some response) =>
      if negb (ok response) then ret (pageFailed w)
      else
        let w0 := failuresReset w in
        t <- attempt (responseText response) ;;
        match t with
        | inl error => ret (pageFailed w0)
        | inr html =>
            doc <- cheerioLoad html ;;
            ret (scrapePage w0 doc)
        end
  end.

Fixpoint scrapeLoop (fuel : nat) (listPath : string) (w : Walk) : Prog Walk :=
  if loopCondition w then
    match fuel with
    | 0 => Done OutOfFuel
    | S fuel' =>
        t <- scrapeTurn listPath w ;;
        match t with
        | Break w' => ret w'
        | Again w' => scrapeLoop fuel' listPath w'
        end
    end
  else ret w.

Definition scrapeAllPages (fuel : nat) (listPath : string) : Prog (list Film) :=
  w <- scrapeLoop fuel listPath initialWalk ;;
  ret (films w).
End Sources.
End Async.

(** Which of the two goes on. *)
Inductive Side := First | Second.

(** A query parameter as Next.js hands it to a handler: absent, one
    string, or, when the request repeats the parameter, the array of
    the values given. *)
Inductive Param :=
  | Absent
  | One (value : string)
  | Many (values : list string).

(** [!value]: an array is truthy, also when it is empty. *)
Definition paramFalsy (value : Param) : bool :=
  match value with
  | Absent => true
  | One s => negb (truthy s)
  | Many _ => false
  end.

(** What [value.match(...)] throws when [value] is no string: an array
    has no method [match], and [undefined] has no property at all.  Both
    are [TypeError]s; the texts are those of V8. *)
Definition noMatchMethod (name : string) (value : Param) : Thrown :=
  match value with
  | Absent => ErrorObject "Cannot read properties of undefined (reading 'match')"
  | _ => ErrorObject (name +:+ ".match is not a function")
  end.

Section Joined.
Context `{Collaborators}.

Definition parsed (xml : string) (env : Env) : Env :=
  {| world := world env; trace := trace env ++ [EvXml xml] |}.

(** The call [p] stands at is made; as for a function on its own, its
    outcome is settled by the network as it is at the call. *)
Definition advance {A} (p : Prog A) (env : Env) : Prog A * Env :=
  match p with
  | Done c => (Done c, env)
  | Fetching url options k =>
      let '(outcome, w) := net_fetch url options (world env) in
      (k outcome, fetched url outcome w env)
  | Sleeping ms k => (k, slept ms env)
  | Loading html k => (k, loaded html env)
  | Parsing xml k => (k, parsed xml env)
  end.

(** [p] on its own, call after call until it is over. *)
Fixpoint run {A} (p : Prog A) (env : Env) : Completion A * Env :=
  match p with
  | Done c => (c, env)
  | Fetching url options k =>
      let '(outcome, w) := net_fetch url options (world env) in
      run (k outcome) (fetched url outcome w env)
  | Sleeping ms k => run k (slept ms env)
  | Loading html k => run k (loaded html env)
  | Parsing xml k => run k (parsed xml env)
  end.

(** Two pieces of code under way, [schedule] saying which goes on at
    each turn.  The join is rejected as soon as one that threw is looked
    at, the other one's remaining calls being no part of the run; one
    that is over is passed by.  When [schedule] is used up, the first
    runs to its end and then the second. *)
Fixpoint interleave {A B} (schedule : list Side) (a : Prog A) (b : Prog B)
    (env : Env) : Completion (A * B) * Env :=
  match schedule with
  | [] =>
      match run a env with
      | (Normal x, env1) =>
          match run b env1 with
          | (Normal y, env2) => (Normal (x, y), env2)
          | (Throw e, env2) => (Throw e, env2)
          | (OutOfFuel, env2) => (OutOfFuel, env2)
          end
      | (Throw e, env1) => (Throw e, env1)
      | (OutOfFuel, env1) => (OutOfFuel, env1)
      end
  | First :: schedule' =>
      match a with
      | Done (Throw e) => (Throw e, env)
      | Done OutOfFuel => (OutOfFuel, env)
      | Done (Normal _) => interleave schedule' a b env
      | _ => let '(a', env1) := advance a env in interleave schedule' a' b env1
      end
  | Second :: schedule' =>
      match b with
      | Done (Throw e) => (Throw e, env)
      | Done OutOfFuel => (OutOfFuel, env)
      | Done (Normal _) => interleave schedule' a b env
      | _ => let '(b', env1) := advance b env in interleave schedule' a b' env1
      end
  end.

(** [await Promise.all([a, b])]: [a] is called and runs up to its first
    [await], which makes its first call; then [b] likewise; from there
    on the two go on as [schedule] says. *)
Definition promiseAll {A B} (schedule : list Side) (a : Prog A) (b : Prog B)
  : M (A * B) :=
  fun env =>
    let '(a1, env1) := advance a env in
    let '(b1, env2) := advance b env1 in
    interleave schedule a1 b1 env2.

(** The call [extractListPath(url)] of line 16, [url] being whatever
    the query holds. *)
Definition extractListPathOf (url : Param) : M (option string) :=
  match url with
  | One u => ret (extractListPath u)
  | other => throw (noMatchMethod "url" other)
  end.

(** The body of the [try] (lines 15-44).  [schedule] is the order in
    which the two sources go on, [fuel] the iteration budget of the
    walker's loop. *)
Definition handlerTry (schedule : list Side) (fuel : nat) (url : Param)
  : M HttpResponse :=
  listPath <- extractListPathOf url ;;
  match listPath with
  | None =>
      ret {| status := 400; body := ErrorBody "Invalid Letterboxd list URL" |}
  | Some listPath =>
      r <- promiseAll schedule (Async.tryRssFeed listPath)
                      (Async.scrapeAllPages fuel listPath) ;;
      ret (respond (fst r) (snd r))
  end.

(** [handler] (lines 4-51) *)
Definition handler (schedule : list Side) (fuel : nat) (url : Param)
  : M HttpResponse :=
  if paramFalsy url
  then ret {| status := 400; body := ErrorBody "URL is required" |}
  else tryCatch (handlerTry schedule fuel url) (fun error => ret (failed error)).
End Joined.

(** ** Reading a trace *)

Definition fetchOutcomes (evs : list Event) : list (Settled Response) :=
  flat_map (fun ev => match ev with EvFetch _ o => [o] | _ => [] end) evs.

Definition fetchUrls (evs : list Event) : list string :=
  flat_map (fun ev => match ev with EvFetch u _ => [u] | _ => [] end) evs.

Definition sleepsOf (evs : list Event) : list nat :=
  flat_map (fun ev => match ev with EvSleep ms => [ms] | _ => [] end) evs.

Definition loadsOf (evs : list Event) : list string :=
  flat_map (fun ev => match ev with EvCheerio h => [h] | _ => [] end) evs.

(** Only network calls and delays. *)
Definition net_only (evs : list Event) : Prop :=
  Forall (fun ev => match ev with
                    | EvFetch _ _ | EvSleep _ => True
                    | _ => False
                    end) evs.

(** An attempt succeeds when [fetch] resolves to a response with [ok]. *)
Definition succeeded (o : Settled Response) : bool :=
  match o with
  | Fulfilled r => ok r
  | Rejected _ => false
  end.

(** The retry contract read off the attempts made, in order: the first
    response with [ok]; when there is none, the exception of the last
    attempt if that attempt threw, and [null] otherwise. *)
Definition retryVerdict (attempts : list (Settled Response))
  : Completion (option Response) :=
  match List.find succeeded attempts with
  | Some (Fulfilled r) => Normal (Some r)
  | _ =>
      match last attempts with
      | Some (Rejected e) => Throw e
      | _ => Normal None
      end
  end.

(** ** Scripted collaborators

    A network that answers its [n]-th call by [script n], a fixed reading
    of HTML and of XML; time passing changes nothing. *)
Definition scripted
    (script : nat -> string -> Settled Response)
    (dom : string -> Document)
    (xml : string -> Settled (option (list RssItem))) : Collaborators :=
  {| World := nat;
     net_fetch := fun url _ n => (script n url, S n);
     elapse := fun _ n => n;
     cheerio_load := dom;
     xml_parse := xml |}.

Definition noXml (xml : string) : Settled (option (list RssItem)) :=
  Fulfilled None.

Definition start (C : Collaborators) (w : @World C) : @Env C :=
  {| world := w; trace := [] |}.

(** ** Scenarios *)

Definition okPage (html : string) : Settled Response :=
  Fulfilled {| ok := true; text := Fulfilled html |}.

Definition notOk : Settled Response :=
  Fulfilled {| ok := false; text := Fulfilled "" |}.

(** A body that cannot be read: the connection breaks after the status
    line and the headers. *)
Definition brokenBody : Settled Response :=
  Fulfilled {| ok := true; text := Rejected (ErrorObject "terminated") |}.

(** Three documents: a page with one film and a next link, a last page
    with one film, and a page with no film but a next link. *)
Definition demoDom (html : string) : Document :=
  if String.eqb html "page-with-next" then
    {| li_posteritem := [ {| react_components :=
                               [ {| data_item_slug := "heat";
                                    data_item_name := Some "Heat" |} ] |} ];
       a_next := 1; a_rel_next := 0 |}
  else if String.eqb html "last-page" then
    {| li_posteritem := [ {| react_components :=
                               [ {| data_item_slug := "ran";
                                    data_item_name := Some "Ran" |} ] |} ];
       a_next := 0; a_rel_next := 0 |}
  else
    {| li_posteritem := []; a_next := 1; a_rel_next := 0 |}.

(** Page 1 answers; every later call is answered without [ok]. *)
Definition downAfterFirst : Collaborators :=
  scripted (fun n _ => match n with 0 => okPage "page-with-next" | _ => notOk end)
           demoDom noXml.

(** Page 1 answers, the next three calls (one page fetch) are answered
    without [ok], then the last page answers. *)
Definition oneHiccup : Collaborators :=
  scripted (fun n _ => match n with
                       | 0 => okPage "page-with-next"
                       | 1 | 2 | 3 => notOk
                       | _ => okPage "last-page"
                       end)
           demoDom noXml.

(** Page 1 answers, page 2 has no film but a next link. *)
Definition emptySecond : Collaborators :=
  scripted (fun n _ => match n with
                       | 0 => okPage "page-with-next"
                       | _ => okPage "empty-with-next"
                       end)
           demoDom noXml.

(** Page 1 answers; from then on every response has [ok] and a body that
    cannot be read. *)
Definition stalled : Collaborators :=
  scripted (fun n _ => match n with 0 => okPage "page-with-next" | _ => brokenBody end)
           demoDom noXml.

Definition heat : Film :=
  {| title := "Heat"; year := ""; slug := "heat";
     letterboxdUrl := "https://letterboxd.com/film/heat/" |}.

Definition ran : Film :=
  {| title := "Ran"; year := ""; slug := "ran";
     letterboxdUrl := "https://letterboxd.com/film/ran/" |}.

(** Nothing answers with [ok]. *)
Definition down : Collaborators :=
  scripted (fun _ _ => notOk) demoDom noXml.

(** The feed of alice's list answers with three films; no page does. *)
Definition threeItems : list RssItem :=
  [ {| item_link := Some "https://letterboxd.com/film/alien/";
       item_filmTitle := Some "Alien"; item_title := Some "Alien, 1979";
       item_filmYear := Some "1979" |};
    {| item_link := Some "https://letterboxd.com/film/brazil/";
       item_filmTitle := Some "Brazil"; item_title := None;
       item_filmYear := None |};
    {| item_link := Some "https://letterboxd.com/film/charade/";
       item_filmTitle := None; item_title := Some "Charade";
       item_filmYear := Some "1963" |} ].

Definition feedOnly : Collaborators :=
  scripted (fun _ url =>
              if String.eqb url "https://letterboxd.com/alice/list/favorites/rss/"
              then okPage "  <?xml version='1.0'?><rss>...</rss>"
              else notOk)
           demoDom (fun _ => Fulfilled (Some threeItems)).

(** Two pages answer, the first with a next link; the feed does not. *)
Definition twoPages : Collaborators :=
  scripted (fun _ url =>
              if String.eqb url "https://letterboxd.com/alice/list/favorites/"
              then okPage "page-with-next"
              else if String.eqb url "https://letterboxd.com/alice/list/favorites/page/2/"
              then okPage "last-page"
              else notOk)
           demoDom noXml.

(** Page 1 of alice's list answers with a film and a next link; every
    other request is answered with [ok] and a body that cannot be read. *)
Definition unreadable : Collaborators :=
  scripted (fun _ url =>
              if String.eqb url "https://letterboxd.com/alice/list/favorites/"
              then okPage "page-with-next"
              else brokenBody)
           demoDom noXml.

(** Page 1 answers; the next three calls (one page fetch) are answered
    without [ok]; from then on every response has [ok] and a body that
    cannot be read. *)
Definition hiccupThenBroken : Collaborators :=
  scripted (fun n _ => match n with
                       | 0 => okPage "page-with-next"
                       | 1 | 2 | 3 => notOk
                       | _ => brokenBody
                       end)
           demoDom noXml.

(** Only the fifth call is answered, with the last page. *)
Definition fifthOnly : Collaborators :=
  scripted (fun n _ => match n with 4 => okPage "last-page" | _ => notOk end)
           demoDom noXml.

(** The two sides taking turns, [n] times each. *)
Fixpoint alternately (n : nat) : list Side :=
  match n with
  | 0 => []
  | S n' => First :: Second :: alternately n'
  end.

(** ** Reading results *)

Definition xmlsOf (evs : list Event) : list string :=
  flat_map (fun ev => match ev with EvXml x => [x] | _ => [] end) evs.

(** What a film scraped off a list page looks like (lines 188-195). *)
Definition scrapedShape (f : Film) : Prop :=
  slug f ≠ "" ∧ title f ≠ "" ∧ year f = "" ∧
  letterboxdUrl f = "https://letterboxd.com/film/" +:+ slug f +:+ "/".

(** The films of the pages a trace shows as loaded, in that order. *)
Definition gathered `{Collaborators} (evs : list Event) : list Film :=
  flat_map (fun html => pageFilms (cheerio_load html)) (loadsOf evs).

(** What a film taken from the feed looks like (lines 112-129). *)
Definition feedShape (f : Film) : Prop :=
  slug f ≠ "" ∧ no_slash (slug f) = true ∧
  (∃ pre post, letterboxdUrl f = pre +:+ "letterboxd.com/film/" +:+ slug f +:+ post) ∧
  (year f ≠ "" → ∃ name, title f = name +:+ " (" +:+ year f +:+ ")").

(** ** The list form of the page ([fetchList], index.js, lines 36-104) *)

(** [s.includes(sub)] *)
Fixpoint includes (s sub : string) : bool :=
  startsWith s sub ||
  match s with
  | EmptyString => false
  | String _ s' => includes s' sub
  end.

Fixpoint all_space (s : string) : bool :=
  match s with
  | EmptyString => true
  | String c s' => is_js_space c && all_space s'
  end.

Definition hex_digit (n : nat) : ascii :=
  match n with
  | 0 => "0" | 1 => "1" | 2 => "2" | 3 => "3" | 4 => "4" | 5 => "5" | 6 => "6"
  | 7 => "7" | 8 => "8" | 9 => "9" | 10 => "A" | 11 => "B" | 12 => "C"
  | 13 => "D" | 14 => "E" | _ => "F"
  end%char.

(** One byte as [%XX]. *)
Definition percent (n : nat) : string :=
  String "%" (String (hex_digit (n / 16)) (String (hex_digit (n mod 16)) EmptyString)).

(** The characters [encodeURIComponent] leaves alone: letters, digits
    and [- _ . ! ~ * ' ( )]. *)
Definition is_unreserved (c : ascii) : bool :=
  let n := nat_of_ascii c in
  (((65 <=? n) && (n <=? 90)) || ((97 <=? n) && (n <=? 122))
   || ((48 <=? n) && (n <=? 57))
   || (n =? 45) || (n =? 95) || (n =? 46) || (n =? 33) || (n =? 126)
   || (n =? 42) || (n =? 39) || (n =? 40) || (n =? 41))%nat.

(** A code unit below 128 is one byte of UTF-8, one from 128 to 255 is
    two. *)
Definition encode_unit (c : ascii) : string :=
  let n := nat_of_ascii c in
  if is_unreserved c then String c EmptyString
  else if (n <? 128)%nat then percent n
  else percent (192 + n / 64) +:+ percent (128 + n mod 64).

Fixpoint encodeURIComponent (s : string) : string :=
  match s with
  | EmptyString => EmptyString
  | String c s' => encode_unit c +:+ encodeURIComponent s'
  end.

(** [cache.current] *)
Record ListCache := mkCache {
  cache_url : string;
  cache_films : list Film
}.

(** What [fetchList] does with the text of the input field, up to the
    request it sends (lines 37-67). *)
Inductive FetchListStep :=
  | Refuse (message : string)
  | FromCache (films : list Film)
  | AskApi (request : string).

Definition fetchListStep (url : string) (cache : ListCache) : FetchListStep :=
  if negb (truthy (trim url)) then Refuse "Please enter a Letterboxd list URL"
  else if negb (includes url "letterboxd.com") || negb (includes url "/list/")
  then Refuse "Please enter a valid Letterboxd list URL"
  else
    let normalizedUrl := normalizeUrl url in
    if String.eqb (cache_url cache) normalizedUrl
       && (0 <? length (cache_films cache))%nat
    then FromCache (cache_films cache)
    else AskApi ("/api/fetch-list?url=" +:+ encodeURIComponent url).

(** [response.ok] *)
Definition status_ok (status : nat) : bool :=
  ((200 <=? status) && (status <=? 299))%nat.

(** What [fetchList] does with the JSON answer of the API (lines 82-97):
    the error shown, or the films shown, and the cache afterwards. *)
Definition fetchListReceive (url : string) (answer : HttpResponse) (cache : ListCache)
  : (string + list Film) * ListCache :=
  if negb (status_ok (status answer)) then
    (inl (js_or (match body answer with
                 | ErrorBody error => Some error
                 | FilmsBody _ => None
                 end) "Failed to fetch list"), cache)
  else
    match body answer with
    | FilmsBody films =>
        if (length films =? 0)%nat then (inl "No films found in this list", cache)
        else (inr films, {| cache_url := normalizeUrl url; cache_films := films |})
    | ErrorBody _ => (inl "No films found in this list", cache)
    end.

Definition first_char (s : string) : option ascii :=
  match s with
  | EmptyString => None
  | String c _ => Some c
  end.

Fixpoint last_char (s : string) : option ascii :=
  match s with
  | EmptyString => None
  | String c EmptyString => Some c
  | String _ s' => last_char s'
  end.

Fixpoint string_forall (p : ascii -> bool) (s : string) : bool :=
  match s with
  | EmptyString => true
  | String c s' => p c && string_forall p s'
  end.

(** The two tests of lines 37 and 42 on the text of the input field. *)
Definition passesForm (url : string) : bool :=
  truthy (trim url) && includes url "letterboxd.com" && includes url "/list/".

Definition emptyCache : ListCache := {| cache_url := ""; cache_films := [] |}.

(** ** [pages/api/movie-details.js] *)

Definition is_digit (c : ascii) : bool :=
  let n := nat_of_ascii c in ((48 <=? n) && (n <=? 57))%nat.

(** [/\((\d{4})\)\s*$/] tried at the head of [s]: a bracketed group of
    four digits, then blanks only up to the end. *)
Definition year_here (s : string) : option string :=
  match s with
  | String p (String d1 (String d2 (String d3 (String d4 (String q rest))))) =>
      if Ascii.eqb p "(" && is_digit d1 && is_digit d2 && is_digit d3 && is_digit d4
         && Ascii.eqb q ")" && all_space rest
      then Some (String d1 (String d2 (String d3 (String d4 EmptyString))))
      else None
  | _ => None
  end.

(** [title.match(/\((\d{4})\)\s*$/)], the first group of the leftmost
    match. *)
Fixpoint year_match (s : string) : option string :=
  match year_here s with
  | Some y => Some y
  | None =>
      match s with
      | EmptyString => None
      | String _ s' => year_match s'
      end
  end.

(** [/\s*\(\d{4}\)\s*$/] tried at the head of [s]: the leading blanks are
    taken greedily, and a bracket has to follow them. *)
Definition year_suffix_here (s : string) : bool :=
  match year_here (trim_start s) with
  | Some _ => true
  | None => false
  end.

(** [title.replace(/\s*\(\d{4}\)\s*$/, '')]: the leftmost match runs to
    the end of the string and is cut off. *)
Fixpoint strip_year (s : string) : string :=
  if year_suffix_here s then EmptyString
  else
    match s with
    | EmptyString => EmptyString
    | String c s' => String c (strip_year s')
    end.

(** [s.split('-')[0]] *)
Fixpoint before_dash (s : string) : string :=
  match s with
  | EmptyString => EmptyString
  | String c s' => if Ascii.eqb c "-" then EmptyString else String c (before_dash s')
  end.

(** What the code reads of the JSON of a search answer and of a movie
    answer. *)
Record SearchHit := mkHit {
  hit_id : option nat                    (* data.results[0].id *)
}.

Record SearchData := mkSearch {
  results : option (list SearchHit)      (* data.results *)
}.

Record CrewMember := mkCrew {
  job : option string;
  name : option string
}.

Record MovieData := mkMovie {
  movie_title : option string;           (* data.title *)
  release_date : option string;
  runtime : option nat;
  crew : option (list CrewMember);       (* data.credits?.crew *)
  poster_path : option string;
  backdrop_path : option string
}.

(** The object returned by [fetchTmdbDetails] (lines 96-108). *)
Record Details := mkDetails {
  d_title : option string;
  d_year : string;
  d_runtime : string;
  d_director : string;
  d_poster : option string;
  d_backdrop : option string;
  d_tmdbId : string
}.

Inductive DetailsBody :=
  | DetailsError (error : string)
  | DetailsFound (details : Details).

Record DetailsAnswer := mkAnswer {
  d_status : nat;
  d_body : DetailsBody
}.

(** The configuration and the JSON reader of the metadata provider:
    [process.env.TMDB_API_KEY], and [await response.json()] on the answer
    of a search and of a movie request. *)
Class Tmdb := {
  TMDB_API_KEY : option string;
  search_json : Response -> Settled SearchData;
  movie_json : Response -> Settled MovieData
}.

Module MovieDetails.
Section Api.
Context `{Collaborators} `{Tmdb}.

Definition TMDB_BASE : string := "https://api.themoviedb.org/3".

Definition tmdbHeaders : Headers :=
  [ ("Authorization",
     "Bearer " +:+ match TMDB_API_KEY with Some k => k | None => "undefined" end);
    ("Content-Type", "application/json") ].

(** Lines 41-48. *)
Definition searchUrl (title : string) : string :=
  let year := year_match title in
  let cleanTitle := trim (strip_year title) in
  let url := TMDB_BASE +:+ "/search/movie?query=" +:+ encodeURIComponent cleanTitle in
  match year with
  | Some y => if truthy y then url +:+ "&year=" +:+ y else url
  | None => url
  end.

(** [searchTmdbByTitle] (lines 38-73).  A [title] that is no string
    makes [title.match] throw, and an [id] that is missing makes
    [toString] throw, both inside the [try]. *)
Definition searchTmdbByTitle (title : Param) : M (option string) :=
  tryCatch
    (match title with
     | One title =>
         response <- fetch (searchUrl title) tmdbHeaders ;;
         if negb (ok response) then ret None
         else
           data <- awaitSettled (search_json response) ;;
           match results data with
           | Some (first :: _) =>
               match hit_id first with
               | Some id => ret (Some (decimal id))
               | None =>
                   throw (ErrorObject "Cannot read properties of undefined (reading 'toString')")
               end
           | _ => ret None
           end
     | other => throw (noMatchMethod "title" other)
     end)
    (fun error => ret None).

Definition movieUrl (tmdbId : string) : string :=
  TMDB_BASE +:+ "/movie/" +:+ tmdbId +:+ "?append_to_response=credits".

Definition directorOf (data : MovieData) : string :=
  js_or (match crew data with
         | Some people =>
             match List.find (fun person =>
                                match job person with
                                | Some j => String.eqb j "Director"
                                | None => false
                                end) people with
             | Some person => name person
             | None => None
             end
         | None => None
         end) "Unknown".

Definition detailsOf (tmdbId : string) (data : MovieData) : Details :=
  {| d_title := movie_title data;
     d_year := match release_date data with
               | Some d => if truthy d then before_dash d else "Unknown"
               | None => "Unknown"
               end;
     d_runtime := match runtime data with
                  | Some (S n) => decimal (S n) +:+ " min"
                  | _ => "Unknown"
                  end;
     d_director := directorOf data;
     d_poster := match poster_path data with
                 | Some p => if truthy p
                             then Some ("https://image.tmdb.org/t/p/w500" +:+ p)
                             else None
                 | None => None
                 end;
     d_backdrop := match backdrop_path data with
                   | Some p => if truthy p
                               then Some ("https://image.tmdb.org/t/p/w1280" +:+ p)
                               else None
                   | None => None
                   end;
     d_tmdbId := tmdbId |}.

(** [fetchTmdbDetails] (lines 75-109) *)
Definition fetchTmdbDetails (tmdbId : string) : M Details :=
  response <- fetch (movieUrl tmdbId) tmdbHeaders ;;
  if negb (ok response) then throw (ErrorObject "TMDB API request failed")
  else
    data <- awaitSettled (movie_json response) ;;
    ret (detailsOf tmdbId data).

Definition keyConfigured : bool :=
  match TMDB_API_KEY with
  | Some k => truthy k
  | None => false
  end.

(** The id that a search outcome holds for the handler: that of the
    first hit, when the response has [ok], its JSON can be read and
    lists a hit with an id. *)
Definition firstId (o : Settled Response) : option nat :=
  match o with
  | Fulfilled response =>
      if ok response then
        match search_json response with
        | Fulfilled data =>
            match results data with
            | Some (first :: _) => hit_id first
            | _ => None
            end
        | Rejected _ => None
        end
      else None
  | Rejected _ => None
  end.

(** [handler] (lines 4-36); [title] is the query parameter. *)
Definition handler (title : Param) : M DetailsAnswer :=
  if paramFalsy title
  then ret {| d_status := 400; d_body := DetailsError "Title is required" |}
  else if negb keyConfigured
  then ret {| d_status := 500; d_body := DetailsError "TMDB API key not configured" |}
  else
    tryCatch
      (tmdbId <- searchTmdbByTitle title ;;
       match tmdbId with
       | None => ret {| d_status := 404; d_body := DetailsError "Movie not found" |}
       | Some tmdbId =>
           if negb (truthy tmdbId)
           then ret {| d_status := 404; d_body := DetailsError "Movie not found" |}
           else
             details <- fetchTmdbDetails tmdbId ;;
             ret {| d_status := 200; d_body := DetailsFound details |}
       end)
      (fun error =>
         ret {| d_status := 500;
                d_body := DetailsError
                            match error with
                            | ErrorObject message => message
                            | OtherValue _ => "Failed to fetch movie details"
                            end |}).
End Api.
End MovieDetails.

(** A metadata provider for the scenarios: a key, and one hit, 603. *)
Definition demoTmdb : Tmdb :=
  {| TMDB_API_KEY := Some "k";
     search_json := fun _ => Fulfilled {| results := Some [ {| hit_id := Some 603 |} ] |};
     movie_json := fun _ =>
       Fulfilled {| movie_title := Some "The Matrix"; release_date := Some "1999-03-31";
                    runtime := Some 136;
                    crew := Some [ {| job := Some "Producer"; name := Some "Joel Silver" |};
                                   {| job := Some "Director"; name := Some "Lana Wachowski" |} ];
                    poster_path := Some "/p.jpg"; backdrop_path := None |} |}.

(** A network that answers every request with [ok]. *)
Definition alwaysOk : Collaborators :=
  scripted (fun _ _ => okPage "{}") demoDom noXml.

(** The characters the output of [encodeURIComponent] is made of. *)
Definition url_safe (c : ascii) : bool := is_unreserved c || Ascii.eqb c "%".

Definition four_digits (y : string) : bool :=
  match y with
  | String d1 (String d2 (String d3 (String d4 EmptyString))) =>
      is_digit d1 && is_digit d2 && is_digit d3 && is_digit d4
  | _ => false
  end.

(** ** Rating colours (index.js, lines 4-17)

    A JavaScript number is a binary64 float, as a primitive float is;
    [rating >= c] is [c <= rating], false when [rating] is not a number. *)

Definition getRatingColorClass (rating : float) : string :=
  if (4.2 <=? rating)%float then "rating-excellent"
  else if (3.5 <=? rating)%float then "rating-great"
  else if (2.5 <=? rating)%float then "rating-good"
  else if (1.8 <=? rating)%float then "rating-mixed"
  else "rating-poor".

Definition getTmdbRatingColorClass (rating : float) : string :=
  let normalized := (rating / 2)%float in
  getRatingColorClass normalized.

(** The five classes from worst to best. *)
Definition classRank (class : string) : nat :=
  if String.eqb class "rating-excellent" then 4
  else if String.eqb class "rating-great" then 3
  else if String.eqb class "rating-good" then 2
  else if String.eqb class "rating-mixed" then 1
  else 0.

(** The page numbers of a walk, in the order they are asked for:
    [climbs p ps] when each page of [ps] is the one before it or the
    next one, counting from [p]; [ascends p ps] when, moreover, [ps]
    starts at [p]. *)
Fixpoint climbs (p : nat) (ps : list nat) : bool :=
  match ps with
  | [] => true
  | q :: r => ((q =? p)%nat || (q =? S p)%nat) && climbs q r
  end.

Definition ascends (p : nat) (ps : list nat) : bool :=
  match ps with
  | [] => true
  | q :: _ => (q =? p)%nat && climbs p ps
  end.

(** ** Reading code under way *)

(** One way through [p]: the calls made on the way, each fetch with the
    outcome it had, and how [p] ends. *)
Inductive Path {A} : Prog A -> list Event -> Completion A -> Prop :=
  | path_done c : Path (Done c) [] c
  | path_fetch url options k o evs c :
      Path (k o) evs c -> Path (Fetching url options k) (EvFetch url o :: evs) c
  | path_sleep ms k evs c :
      Path k evs c -> Path (Sleeping ms k) (EvSleep ms :: evs) c
  | path_load html k evs c :
      Path k evs c -> Path (Loading html k) (EvCheerio html :: evs) c
  | path_parse xml k evs c :
      Path k evs c -> Path (Parsing xml k) (EvXml xml :: evs) c.

(** [evs] is made of [l] and of [r], each in its own order. *)
Inductive Shuffle {E} : list E -> list E -> list E -> Prop :=
  | shuffle_nil : Shuffle [] [] []
  | shuffle_left x l r evs : Shuffle l r evs -> Shuffle (x :: l) r (x :: evs)
  | shuffle_right x l r evs : Shuffle l r evs -> Shuffle l (x :: r) (x :: evs).

(** Every fetch of [evs] had an outcome that the network gives for that
    request in some state. *)
Definition Answered `{Collaborators} (evs : list Event) : Prop :=
  Forall (fun ev => match ev with
                    | EvFetch url o =>
                        ∃ options w, (net_fetch url options w).1 = o
                    | _ => True
                    end) evs.

(** How a join ends, in terms of the ways through its two sides: with
    both results when each side went a way to its result, the trace
    being made of the two ways; rejected or out of budget when one side
    went a way to that end. *)
Definition joins `{Collaborators} {A B} (a : Prog A) (b : Prog B) (evs : list Event)
    (c : Completion (A * B)) : Prop :=
  match c with
  | Normal (x, y) =>
      ∃ ea eb, Path a ea (Normal x) ∧ Path b eb (Normal y) ∧ Shuffle ea eb evs
               ∧ Answered ea ∧ Answered eb
  | Throw e =>
      (∃ ea, Path a ea (Throw e) ∧ Answered ea) ∨ (∃ eb, Path b eb (Throw e) ∧ Answered eb)
  | OutOfFuel =>
      (∃ ea, Path a ea OutOfFuel ∧ Answered ea) ∨ (∃ eb, Path b eb OutOfFuel ∧ Answered eb)
  end.
(** [p], run alone from call to call, does what [m] does. *)
Definition agrees `{Collaborators} {A} (p : Prog A) (m : M A) : Prop :=
  ∀ env, run p env = m env.

(** A network that hands out the outcomes of a list, one at each call,
    with the two parsers of [C]; an outcome that is not [good] is
    replaced by a failure of the call. *)
Definition replay (good : Settled Response -> bool) (C : Collaborators)
  : Collaborators :=
  {| World := list (Settled Response);
     net_fetch := fun _ _ script =>
       match script with
       | o :: rest =>
           (if good o then o else Rejected (OtherValue "not handed out"), rest)
       | [] => (Rejected (OtherValue "nothing left"), [])
       end;
     elapse := fun _ script => script;
     cheerio_load := @cheerio_load C;
     xml_parse := @xml_parse C |}.

Definition anyOutcome (o : Settled Response) : bool := true.

(** An outcome whose body can be read when it is a response with [ok]. *)
Definition readable (o : Settled Response) : bool :=
  match o with
  | Fulfilled r =>
      if ok r then match text r with Fulfilled _ => true | Rejected _ => false end
      else true
  | Rejected _ => true
  end.

(** What the feed reader returns, read off the texts it handed to the
    XML parser (lines 106-129). *)
Definition feedFilms `{Collaborators} (xmls : list string) : option (list Film) :=
  match xmls with
  | [xml] =>
      match xml_parse xml with
      | Fulfilled (Some items) =>
          Some (List.filter (fun f => truthy (slug f)) (map rssItemFilm items))
      | _ => None
      end
  | _ => None
  end.

(** * Properties *)

(** ** The model on a few requests *)

Example extractListPath_with_slash :
  extractListPath "https://letterboxd.com/alice/list/favorites/"
  = Some "/alice/list/favorites".
Proof. reflexivity. Qed.

Example extractListPath_in_a_sentence :
  extractListPath "see letterboxd.com/a/list/b here" = Some "/a/list/b here".
Proof. reflexivity. Qed.

Example extractListPath_second_position :
  extractListPath "letterboxd.com/letterboxd.com/a/list/b" = Some "/a/list/b".
Proof. reflexivity. Qed.

Example extractListPath_not_a_url : extractListPath "not-a-url" = None.
Proof. reflexivity. Qed.

Example normalizeUrl_example :
  normalizeUrl "  HTTPS://Letterboxd.com/A/list/b//  " = "https://letterboxd.com/a/list/b".
Proof. reflexivity. Qed.

Example pageUrl_examples :
  pageUrl "/a/list/b" 1 = "https://letterboxd.com/a/list/b/" ∧
  pageUrl "/a/list/b" 12 = "https://letterboxd.com/a/list/b/page/12/".
Proof. split; reflexivity. Qed.

(** A feed with three films and no page: the three films in feed order. *)
Example handler_feed_only :
  (@handler feedOnly [] 102 (One "https://letterboxd.com/alice/list/favorites/")
     (start feedOnly 0)).1
  = Normal {| status := 200;
              body := FilmsBody
                [ mkFilm "Alien (1979)" "1979" "alien" "https://letterboxd.com/film/alien/";
                  mkFilm "Brazil" "" "brazil" "https://letterboxd.com/film/brazil/";
                  mkFilm "Charade (1963)" "1963" "charade"
                         "https://letterboxd.com/film/charade/" ] |}.
Proof. vm_compute. reflexivity. Qed.

Example handler_two_pages :
  (@handler twoPages (alternately 4) 102
     (One "https://letterboxd.com/alice/list/favorites") (start twoPages 0)).1
  = Normal {| status := 200; body := FilmsBody [heat; ran] |}.
Proof. vm_compute. reflexivity. Qed.

Example handler_not_a_url :
  @handler down [] 102 (One "not-a-url") (start down 0)
  = (Normal {| status := 400; body := ErrorBody "Invalid Letterboxd list URL" |},
     start down 0).
Proof. reflexivity. Qed.

Example handler_no_url :
  @handler down [] 102 Absent (start down 0)
  = (Normal {| status := 400; body := ErrorBody "URL is required" |}, start down 0).
Proof. reflexivity. Qed.

Example handler_nothing_found :
  (@handler down [] 102 (One "https://letterboxd.com/alice/list/favorites/")
     (start down 0)).1
  = Normal {| status := 404;
              body := ErrorBody "Could not fetch list. The list may be private or temporarily unavailable." |}.
Proof. vm_compute. reflexivity. Qed.

(** With nothing answering, each source asks three times and the walk
    stops at page 1: six network calls and four delays.  The feed is
    asked first and page 1 second; the order of the rest is that of the
    schedule. *)
Example handler_nothing_found_calls :
  let rss := "https://letterboxd.com/alice/list/favorites/rss/" in
  let page1 := "https://letterboxd.com/alice/list/favorites/" in
  let url := One "https://letterboxd.com/alice/list/favorites/" in
  fetchUrls (trace (@handler down [] 102 url (start down 0)).2)
  = [rss; page1; rss; rss; page1; page1] ∧
  fetchUrls (trace (@handler down (alternately 4) 102 url (start down 0)).2)
  = [rss; page1; rss; page1; rss; page1] ∧
  sleepsOf (trace (@handler down (alternately 4) 102 url (start down 0)).2)
  = [500; 500; 1000; 1000]%nat.
Proof. vm_compute. repeat split; reflexivity. Qed.

(** The order matters to the answer: when only the fifth call to the
    network is answered, the walker gets the answer if the feed reader
    has made its three calls by then, and the feed reader gets it, and
    cannot read it as a feed, if the two take turns. *)
Example handler_order_matters :
  let url := One "https://letterboxd.com/alice/list/favorites/" in
  (@handler fifthOnly [] 102 url (start fifthOnly 0)).1
  = Normal {| status := 200; body := FilmsBody [ran] |} ∧
  (@handler fifthOnly (alternately 4) 102 url (start fifthOnly 0)).1
  = Normal {| status := 404;
              body := ErrorBody "Could not fetch list. The list may be private or temporarily unavailable." |}.
Proof. vm_compute. split; reflexivity. Qed.

(** A request that gives the parameter twice. *)
Example handler_repeated_url :
  @handler down [] 102 (Many ["foo"; "bar"]) (start down 0)
  = (Normal {| status := 500; body := ErrorBody "url.match is not a function" |},
     start down 0).
Proof. reflexivity. Qed.

(** ** Deduplication *)

Example dedupe_ex :
  dedupeFilms [mkFilm "A" "" "a" ""; mkFilm "B" "" "b" ""; mkFilm "A2" "" "a" ""]
  = [mkFilm "A" "" "a" ""; mkFilm "B" "" "b" ""].
Proof. vm_compute. reflexivity. Qed.

Lemma dedupe_filter_fresh seen l f :
  f ∈ dedupe_filter seen l → slug f ∉ seen.
Proof.
  revert seen. induction l as [|g l IH]; intros seen; simpl.
  - intros Hin. inversion Hin.
  - destruct (decide (slug g ∈ seen)) as [Hg|Hg].
    + apply IH.
    + intros [->|Hin]%elem_of_cons; [exact Hg|].
      apply IH in Hin. set_solver.
Qed.

Lemma dedupe_filter_NoDup seen l :
  NoDup (slug <$> dedupe_filter seen l).
Proof.
  revert seen. induction l as [|g l IH]; intros seen; simpl.
  - constructor.
  - destruct (decide (slug g ∈ seen)); [apply IH|].
    rewrite fmap_cons. constructor; [|apply IH].
    intros (f & Hf & Hin)%list_elem_of_fmap.
    apply dedupe_filter_fresh in Hin. set_solver.
Qed.

Lemma dedupe_filter_sublist seen l :
  dedupe_filter seen l `sublist_of` l.
Proof.
  revert seen. induction l as [|g l IH]; intros seen; simpl.
  - constructor.
  - destruct (decide (slug g ∈ seen)).
    + apply sublist_cons, IH.
    + apply sublist_skip, IH.
Qed.

Lemma dedupe_filter_elem seen l f :
  f ∈ dedupe_filter seen l ↔
  ∃ pre post, l = pre ++ f :: post ∧ (slug f ∉ seen) ∧ (slug f ∉ (slug <$> pre)).
Proof.
  revert seen. induction l as [|g l IH]; intros seen; simpl.
  - split.
    + intros Hin. inversion Hin.
    + intros (pre & post & Heq & _). destruct pre; discriminate.
  - destruct (decide (slug g ∈ seen)) as [Hg|Hg].
    + rewrite IH. split.
      * intros (pre & post & -> & Hs & Hp).
        exists (g :: pre), post. split; [done|]. split; [done|].
        rewrite fmap_cons, not_elem_of_cons. split; [|done].
        intros E. rewrite E in Hs. done.
      * intros (pre & post & Heq & Hs & Hp).
        destruct pre as [|g' pre]; simplify_eq/=; [done|].
        apply not_elem_of_cons in Hp as [_ Hp].
        exists pre, post. done.
    + rewrite elem_of_cons, IH. split.
      * intros [->|(pre & post & -> & Hs & Hp)].
        -- exists [], l. split; [done|]. split; [done|]. simpl. apply not_elem_of_nil.
        -- apply not_elem_of_union in Hs as [Hne Hs].
           apply not_elem_of_singleton in Hne.
           exists (g :: pre), post. split; [done|]. split; [done|].
           rewrite fmap_cons, not_elem_of_cons. done.
      * intros (pre & post & Heq & Hs & Hp).
        destruct pre as [|g' pre]; simplify_eq/=; [by left|].
        right. apply not_elem_of_cons in Hp as [Hne Hp].
        exists pre, post. split; [done|]. split; [|done].
        apply not_elem_of_union. split; [|done]. by apply not_elem_of_singleton.
Qed.

Lemma first_occurrence_exists (l : list Film) s :
  s ∈ (slug <$> l) →
  ∃ pre f post, l = pre ++ f :: post ∧ slug f = s ∧ (s ∉ (slug <$> pre)).
Proof.
  induction l as [|g l IH].
  - intros Hin. inversion Hin.
  - rewrite fmap_cons. intros Hin.
    destruct (decide (slug g = s)) as [E|N].
    + exists [], g, l. split; [done|]. split; [done|]. simpl. apply not_elem_of_nil.
    + apply elem_of_cons in Hin as [E|Hin]; [congruence|].
      destruct (IH Hin) as (pre & f & post & -> & Hf & Hp).
      exists (g :: pre), f, post. split; [done|]. split; [done|].
      rewrite fmap_cons, not_elem_of_cons. split; [congruence|done].
Qed.

Lemma dedupeFilms_sublist (l : list Film) :
  dedupeFilms l `sublist_of` l.
Proof. apply dedupe_filter_sublist. Qed.

(** C1: whatever the film list, the output of [dedupeFilms] has no two
    records with the same slug, is a subsequence of the input (so it keeps
    the input's order), holds a record exactly when that record stands in
    the input with no earlier record of the same slug, and so has every
    slug of the input. *)
Theorem dedupeFilms_first_occurrences (l : list Film) :
  NoDup (slug <$> dedupeFilms l) ∧
  dedupeFilms l `sublist_of` l ∧
  (∀ f, f ∈ dedupeFilms l ↔
        ∃ pre post, l = pre ++ f :: post ∧ (slug f ∉ (slug <$> pre))) ∧
  (∀ s, s ∈ (slug <$> dedupeFilms l) ↔ s ∈ (slug <$> l)).
Proof.
  unfold dedupeFilms. split; [apply dedupe_filter_NoDup|].
  split; [apply dedupe_filter_sublist|].
  assert (Hel : ∀ f, f ∈ dedupe_filter ∅ l ↔
            ∃ pre post, l = pre ++ f :: post ∧ (slug f ∉ (slug <$> pre))).
  { intros f. rewrite dedupe_filter_elem. split.
    - intros (pre & post & ? & _ & ?). eauto.
    - intros (pre & post & ? & ?). exists pre, post. set_solver. }
  split; [exact Hel|].
  intros s. split.
  - intros (f & -> & Hin)%list_elem_of_fmap.
    apply list_elem_of_fmap. exists f. split; [done|].
    eapply elem_of_sublist; [exact Hin|]. apply dedupe_filter_sublist.
  - intros Hin. destruct (first_occurrence_exists _ _ Hin) as (pre & f & post & Heq & Hs & Hp).
    apply list_elem_of_fmap. exists f. split; [done|].
    apply Hel. exists pre, post. subst s. done.
Qed.

Lemma dedupeFilms_nil_iff (l : list Film) : dedupeFilms l = [] ↔ l = [].
Proof.
  split; [|intros ->; reflexivity].
  destruct l as [|f l]; [done|].
  unfold dedupeFilms. simpl.
  destruct (decide (slug f ∈ (∅ : gset string))) as [Hin|_]; [|discriminate].
  exfalso. revert Hin. apply not_elem_of_empty.
Qed.

(** ** Selection between the two sources *)


(** ** Retrying a request *)

Section Retry.
Context `{Collaborators}.

Lemma retryVerdict_skip o rest :
  succeeded o = false → rest ≠ [] →
  retryVerdict (o :: rest) = retryVerdict rest.
Proof.
  intros Ho Hrest. unfold retryVerdict. simpl. rewrite Ho.
  destruct rest as [|o' rest]; [congruence|]. reflexivity.
Qed.

Lemma retryTurn_eq url options retries i env :
  retryTurn url options retries i env =
  let '(o, w) := net_fetch url options (world env) in
  let env1 := fetched url o w env in
  match o with
  | Fulfilled r =>
      if ok r then (Normal (Some (Some r)), env1)
      else if (i <? retries)%nat then (Normal None, slept (500 * (i + 1)) env1)
           else (Normal None, env1)
  | Rejected e =>
      if (i =? retries)%nat then (Throw e, env1)
      else (Normal None, slept (500 * (i + 1)) env1)
  end.
Proof.
  unfold retryTurn, tryCatch, bind, fetch, fetched.
  destruct (net_fetch url options (world env)) as [[r|e] w]; cbn [awaitSettled ret throw].
  - destruct (ok r); [reflexivity|]. destruct (i <? retries)%nat; reflexivity.
  - destruct (i =? retries)%nat; reflexivity.
Qed.

Lemma retryLoop_S url options retries t i env :
  retryLoop (S t) url options retries i env =
  match retryTurn url options retries i env with
  | (Normal (Some result), env1) => (Normal result, env1)
  | (Normal None, env1) => retryLoop t url options retries (S i) env1
  | (Throw e, env1) => (Throw e, env1)
  | (OutOfFuel, env1) => (OutOfFuel, env1)
  end.
Proof.
  cbn [retryLoop]. unfold bind.
  destruct (retryTurn url options retries i env) as [[[r|]|e|] env1]; reflexivity.
Qed.

Lemma retryLoop_spec url options retries turns :
  ∀ i env, (i + turns = S retries)%nat → turns ≠ 0%nat →
  ∃ evs fails o,
    trace (retryLoop turns url options retries i env).2 = trace env ++ evs ∧
    fetchOutcomes evs = fails ++ [o] ∧
    Forall (fun a => succeeded a = false) fails ∧
    (length fails < turns)%nat ∧
    (S (length fails) = turns ∨ succeeded o = true) ∧
    (retryLoop turns url options retries i env).1 = retryVerdict (fails ++ [o]) ∧
    fetchUrls evs = replicate (S (length fails)) url ∧
    sleepsOf evs = (fun j => 500 * (j + 1))%nat <$> seq i (length fails) ∧
    net_only evs.
Proof.
  induction turns as [|t IH]; intros i env Hi Hne; [congruence|].
  rewrite retryLoop_S, retryTurn_eq.
  destruct (net_fetch url options (world env)) as [o w] eqn:Hnet.
  cbv zeta.
  destruct o as [r|e].
  - destruct (ok r) eqn:Hok.
    + exists [EvFetch url (Fulfilled r)], [], (Fulfilled r).
      unfold retryVerdict. cbn. rewrite Hok.
      repeat split; auto with lia.
      repeat constructor.
    + destruct t as [|t'].
      * assert (i = retries) as -> by lia.
        rewrite Nat.ltb_irrefl.
        exists [EvFetch url (Fulfilled r)], [], (Fulfilled r).
        unfold retryVerdict. cbn. rewrite Hok.
        repeat split; auto with lia.
        repeat constructor.
      * assert (Hlt : (i <? retries)%nat = true) by (apply Nat.ltb_lt; lia).
        rewrite Hlt.
        destruct (IH (S i) (slept (500 * (i + 1)) (fetched url (Fulfilled r) w env)))
          as (evs & fails & o & Htr & Hout & Hf & Hlen & Hlast & Hres & Hurls & Hsl & Hnet');
          [lia|lia|].
        exists (EvFetch url (Fulfilled r) :: EvSleep (500 * (i + 1)) :: evs),
               (Fulfilled r :: fails), o.
        split. { rewrite Htr. cbn [slept fetched trace]. rewrite <- !app_assoc. reflexivity. }
        split. { cbn [fetchOutcomes flat_map app]. fold (fetchOutcomes evs). rewrite Hout. reflexivity. }
        split. { constructor; [exact Hok|exact Hf]. }
        split. { cbn [length]. lia. }
        split. { cbn [length]. destruct Hlast; [left; lia|by right]. }
        split. { rewrite Hres. symmetry. apply (retryVerdict_skip (Fulfilled r)); [exact Hok|].
                 destruct fails; discriminate. }
        split. { cbn [fetchUrls flat_map app]. fold (fetchUrls evs). rewrite Hurls. reflexivity. }
        split. { cbn [sleepsOf flat_map app]. fold (sleepsOf evs). rewrite Hsl. reflexivity. }
        constructor; [exact I|]. constructor; [exact I|exact Hnet'].
  - destruct t as [|t'].
    + assert (i = retries) as -> by lia.
      rewrite Nat.eqb_refl.
      exists [EvFetch url (Rejected e)], [], (Rejected e).
      repeat split; auto with lia.
      repeat constructor.
    + assert (Hneq : (i =? retries)%nat = false) by (apply Nat.eqb_neq; lia).
      rewrite Hneq.
      destruct (IH (S i) (slept (500 * (i + 1)) (fetched url (Rejected e) w env)))
        as (evs & fails & o & Htr & Hout & Hf & Hlen & Hlast & Hres & Hurls & Hsl & Hnet');
        [lia|lia|].
      exists (EvFetch url (Rejected e) :: EvSleep (500 * (i + 1)) :: evs),
             (Rejected e :: fails), o.
      split. { rewrite Htr. cbn [slept fetched trace]. rewrite <- !app_assoc. reflexivity. }
      split. { cbn [fetchOutcomes flat_map app]. fold (fetchOutcomes evs). rewrite Hout. reflexivity. }
      split. { constructor; [reflexivity|exact Hf]. }
      split. { cbn [length]. lia. }
      split. { cbn [length]. destruct Hlast; [left; lia|by right]. }
      split. { rewrite Hres. symmetry. apply (retryVerdict_skip (Rejected e)); [reflexivity|].
               destruct fails; discriminate. }
      split. { cbn [fetchUrls flat_map app]. fold (fetchUrls evs). rewrite Hurls. reflexivity. }
      split. { cbn [sleepsOf flat_map app]. fold (sleepsOf evs). rewrite Hsl. reflexivity. }
      constructor; [exact I|]. constructor; [exact I|exact Hnet'].
Qed.

Lemma retryVerdict_last fails last :
  Forall (fun a => succeeded a = false) fails →
  retryVerdict (fails ++ [last]) =
  match last with
  | Fulfilled r => if ok r then Normal (Some r) else Normal None
  | Rejected e => Throw e
  end.
Proof.
  induction 1 as [|o fails Ho _ IH].
  - unfold retryVerdict. cbn. destruct last as [r|e]; cbn; [|reflexivity].
    destruct (ok r); reflexivity.
  - cbn [app]. rewrite retryVerdict_skip; [exact IH|exact Ho|].
    destruct fails; discriminate.
Qed.

(** C5: whatever the network answers, [fetchWithRetry] asks it between
    one and three times, always for the same URL; every attempt before
    the last one failed, and the call stops before the third attempt
    only on a response with [ok]; it returns that response, returns
    [null] when the third attempt too answered without [ok], and throws
    what the third attempt threw.  It waits 500 ms and then 1000 ms
    between the attempts. *)
Theorem fetchWithRetry_contract url options env :
  ∃ evs fails last,
    trace (fetchWithRetry url options env).2 = trace env ++ evs ∧
    fetchOutcomes evs = fails ++ [last] ∧
    fetchUrls evs = replicate (S (length fails)) url ∧
    (S (length fails) ≤ 3)%nat ∧
    Forall (fun a => succeeded a = false) fails ∧
    (S (length fails) = 3%nat ∨ succeeded last = true) ∧
    (fetchWithRetry url options env).1 = retryVerdict (fails ++ [last]) ∧
    (∀ r, last = Fulfilled r → ok r = true →
          (fetchWithRetry url options env).1 = Normal (Some r)) ∧
    (∀ r, last = Fulfilled r → ok r = false →
          (fetchWithRetry url options env).1 = Normal None ∧ length fails = 2%nat) ∧
    (∀ e, last = Rejected e →
          (fetchWithRetry url options env).1 = Throw e ∧ length fails = 2%nat) ∧
    sleepsOf evs = take (length fails) [500; 1000]%nat.
Proof.
  unfold fetchWithRetry, fetchWithRetryN.
  destruct (retryLoop_spec url options 2 3 0 env)
    as (evs & fails & o & Htr & Hout & Hf & Hlen & Hlast & Hres & Hurls & Hsl & _);
    [lia|lia|].
  exists evs, fails, o.
  rewrite Hres.
  repeat match goal with |- _ ∧ _ => split end;
    try assumption; try reflexivity; try lia;
    try rewrite (retryVerdict_last _ _ Hf).
  - intros r -> Hok. rewrite Hok. reflexivity.
  - intros r -> Hok. rewrite Hok. split; [reflexivity|].
    destruct Hlast as [Hl|Hs]; [lia|]. cbn in Hs. congruence.
  - intros e ->. split; [reflexivity|].
    destruct Hlast as [Hl|Hs]; [lia|]. cbn in Hs. congruence.
  - rewrite Hsl. destruct fails as [|? [|? [|? ?]]]; cbn in Hlen |- *; try reflexivity; lia.
Qed.
End Retry.

(** ** The pagination walker *)

Section Walker.
Context `{Collaborators}.

Lemma fetchWithRetry_completes url options env :
  (∃ response, (fetchWithRetry url options env).1 = Normal (Some response)
               ∧ ok response = true) ∨
  (fetchWithRetry url options env).1 = Normal None ∨
  (∃ e, (fetchWithRetry url options env).1 = Throw e).
Proof.
  unfold fetchWithRetry, fetchWithRetryN.
  destruct (retryLoop_spec url options 2 3 0 env)
    as (evs & fails & last & _ & _ & Hf & _ & _ & Hres & _); [lia|lia|].
  rewrite Hres, (retryVerdict_last _ _ Hf).
  destruct last as [r|e].
  - destruct (ok r) eqn:E.
    + left. exists r. split; [reflexivity|exact E].
    + right. left. reflexivity.
  - right. right. exists e. reflexivity.
Qed.

Lemma scrapeTurn_eq listPath w env :
  scrapeTurn listPath w env =
  match fetchWithRetry (pageUrl listPath (page w)) pageHeaders env with
  | (Normal (Some response), env1) =>
      if ok response then
        match text response with
        | Fulfilled html =>
            (Normal (scrapePage (failuresReset w) (cheerio_load html)), loaded html env1)
        | Rejected _ => (Normal (pageFailed (failuresReset w)), env1)
        end
      else (Normal (pageFailed w), env1)
  | (Normal None, env1) => (Normal (pageFailed w), env1)
  | (Throw _, env1) => (Normal (pageFailed w), env1)
  | (OutOfFuel, env1) => (OutOfFuel, env1)
  end.
Proof.
  unfold scrapeTurn, attempt, tryCatch, bind, responseText, cheerioLoad, loaded.
  destruct (fetchWithRetry (pageUrl listPath (page w)) pageHeaders env)
    as [[[r|]|e|] env1]; cbn [ret negb]; try reflexivity.
  destruct (ok r); cbn [negb]; [|reflexivity].
  destruct (text r); reflexivity.
Qed.

Lemma scrapeTurn_failed listPath w env r env1 :
  fetchWithRetry (pageUrl listPath (page w)) pageHeaders env = (r, env1) →
  fetchFailed r = true →
  scrapeTurn listPath w env = (Normal (pageFailed w), env1).
Proof.
  intros Hf Hr. rewrite scrapeTurn_eq, Hf.
  destruct r as [[resp|]|e|]; try reflexivity.
  - cbn in Hr. destruct (ok resp); [discriminate|reflexivity].
  - exfalso.
    destruct (fetchWithRetry_completes (pageUrl listPath (page w)) pageHeaders env)
      as [(x & Hx & _)|[Hx|(x & Hx)]]; rewrite Hf in Hx; discriminate.
Qed.

Lemma scrapeTurn_loaded listPath w env response env1 html :
  fetchWithRetry (pageUrl listPath (page w)) pageHeaders env
    = (Normal (Some response), env1) →
  ok response = true → text response = Fulfilled html →
  scrapeTurn listPath w env
    = (Normal (scrapePage (failuresReset w) (cheerio_load html)), loaded html env1).
Proof.
  intros Hf Hok Ht. rewrite scrapeTurn_eq, Hf, Hok, Ht. reflexivity.
Qed.

Lemma scrapeLoop_done fuel listPath w env :
  loopCondition w = false → scrapeLoop fuel listPath w env = (Normal w, env).
Proof. intros Hc. destruct fuel; cbn [scrapeLoop]; rewrite Hc; reflexivity. Qed.

Lemma scrapeLoop_turn fuel listPath w env :
  loopCondition w = true →
  scrapeLoop (S fuel) listPath w env =
  match scrapeTurn listPath w env with
  | (Normal (Break w'), env1) => (Normal w', env1)
  | (Normal (Again w'), env1) => scrapeLoop fuel listPath w' env1
  | (Throw e, env1) => (Throw e, env1)
  | (OutOfFuel, env1) => (OutOfFuel, env1)
  end.
Proof.
  intros Hc. cbn [scrapeLoop]. rewrite Hc. unfold bind.
  destruct (scrapeTurn listPath w env) as [[[w'|w']|e|] env1]; reflexivity.
Qed.

Lemma reaches_returns listPath c0 c :
  WalkReaches listPath c0 c →
  ∀ a env',
    returns (fun fuel => scrapeLoop fuel listPath c.1) c.2 a env' →
    returns (fun fuel => scrapeLoop fuel listPath c0.1) c0.2 a env'.
Proof.
  induction 1 as [c|w env w1 env1 c Hc Ht _ IH]; intros a env' Hret; [exact Hret|].
  destruct (IH a env' Hret) as (fuel & Hfuel).
  exists (S fuel). intros [|fuel'] Hle; [lia|].
  cbn [fst snd]. rewrite (scrapeLoop_turn _ _ _ _ Hc), Ht.
  apply Hfuel. lia.
Qed.

Lemma walk_returns listPath env0 w env w' env' :
  WalkReaches listPath (initialWalk, env0) (w, env) →
  returns (fun fuel => scrapeLoop fuel listPath w) env w' env' →
  returns (fun fuel => scrapeAllPages fuel listPath) env0 (films w') env'.
Proof.
  intros Hreach Hret.
  destruct (reaches_returns _ _ _ Hreach w' env' Hret) as (fuel & Hfuel).
  exists fuel. intros fuel' Hle. unfold scrapeAllPages, bind.
  cbn [fst snd] in Hfuel. rewrite (Hfuel fuel' Hle). reflexivity.
Qed.

Lemma reaches_trans listPath c0 c1 c2 :
  WalkReaches listPath c0 c1 → WalkReaches listPath c1 c2 →
  WalkReaches listPath c0 c2.
Proof.
  induction 1 as [c|w env w1 env1 c Hc Ht _ IH]; intros H2; [exact H2|].
  eapply reaches_turn; eauto.
Qed.

Lemma reaches_one listPath w env w1 env1 :
  loopCondition w = true →
  scrapeTurn listPath w env = (Normal (Again w1), env1) →
  WalkReaches listPath (w, env) (w1, env1).
Proof. intros Hc Ht. eapply reaches_turn; [exact Hc|exact Ht|apply reaches_here]. Qed.

(** Failed fetches in a row: take the walk at a test of its loop
    condition after page 1 was scraped, with no failure pending.  When the fetch of the page fails
    and the fetch that follows fails too, the walker returns, and what
    it returns is the films gathered up to there.  When the first fetch
    fails and the second brings a page with films, that page is
    scraped: the walk goes on to the next test of its condition with
    the failure counter at zero and the page's films added. *)
Theorem failures_in_a_row listPath env0 w env r1 env1 r2 env2 :
  WalkReaches listPath (initialWalk, env0) (w, env) →
  hasMore w = true → consecutiveFailures w = 0%nat → page w ≠ 1%nat →
  fetchWithRetry (pageUrl listPath (page w)) pageHeaders env = (r1, env1) →
  fetchFailed r1 = true →
  fetchWithRetry (pageUrl listPath (page w)) pageHeaders env1 = (r2, env2) →
  (fetchFailed r2 = true →
     returns (fun fuel => scrapeAllPages fuel listPath) env0 (films w) env2) ∧
  (∀ response html,
     r2 = Normal (Some response) → ok response = true →
     text response = Fulfilled html →
     li_posteritem (cheerio_load html) ≠ [] →
     ∃ w', WalkReaches listPath (initialWalk, env0) (w', loaded html env2) ∧
           consecutiveFailures w' = 0%nat ∧
           films w' = films w ++ pageFilms (cheerio_load html) ∧
           hasMore w' = (hasNextPage (cheerio_load html) && (page w <? 50)%nat) ∧
           page w' = if hasNextPage (cheerio_load html) then S (page w) else page w).
Proof.
  intros Hreach Hmore Hcf Hpage Hf1 Hr1 Hf2.
  assert (Hc : loopCondition w = true).
  { unfold loopCondition. rewrite Hmore, Hcf. reflexivity. }
  assert (Hp : (page w =? 1)%nat = false) by (apply Nat.eqb_neq; exact Hpage).
  pose (w1 := {| films := films w; page := page w; hasMore := hasMore w;
                 consecutiveFailures := S (consecutiveFailures w) |}).
  assert (Ht1 : scrapeTurn listPath w env = (Normal (Again w1), env1)).
  { rewrite (scrapeTurn_failed _ _ _ _ _ Hf1 Hr1). unfold pageFailed.
    rewrite Hp. reflexivity. }
  assert (Hc1 : loopCondition w1 = true).
  { unfold loopCondition, w1. cbn. rewrite Hmore, Hcf. reflexivity. }
  assert (Hreach1 : WalkReaches listPath (initialWalk, env0) (w1, env1)).
  { eapply reaches_trans; [exact Hreach|]. apply reaches_one; assumption. }
  split.
  - intros Hr2.
    pose (w2 := {| films := films w; page := page w; hasMore := hasMore w;
                   consecutiveFailures := 2 |}).
    assert (Ht2 : scrapeTurn listPath w1 env1 = (Normal (Again w2), env2)).
    { rewrite (scrapeTurn_failed listPath w1 env1 r2 env2 Hf2 Hr2). unfold pageFailed.
      cbn [page films hasMore consecutiveFailures w1]. rewrite Hp, Hcf. reflexivity. }
    change (films w) with (films w2).
    eapply walk_returns; [exact Hreach1|].
    exists 1%nat. intros [|fuel] Hle; [lia|].
    rewrite (scrapeLoop_turn _ _ _ _ Hc1), Ht2.
    apply scrapeLoop_done. unfold loopCondition, w2. cbn.
    rewrite Hmore. reflexivity.
  - intros response html -> Hok Htext Hitems.
    assert (Ht2 : scrapeTurn listPath w1 env1
                  = (Normal (scrapePage (failuresReset w1) (cheerio_load html)),
                     loaded html env2)).
    { exact (scrapeTurn_loaded listPath w1 env1 response env2 html Hf2 Hok Htext). }
    unfold scrapePage in Ht2.
    destruct (li_posteritem (cheerio_load html)) as [|el els] eqn:Hels; [congruence|].
    cbn [length Nat.eqb] in Ht2.
    eexists. split.
    { eapply reaches_trans; [exact Hreach1|]. apply reaches_one; [exact Hc1|exact Ht2]. }
    cbn [films page hasMore consecutiveFailures failuresReset w1].
    split; [reflexivity|]. split; [reflexivity|]. split; [|reflexivity].
    rewrite Hmore.
    destruct (hasNextPage (cheerio_load html)); cbn [andb].
    + destruct (page w <? 50)%nat eqn:E.
      * apply Nat.ltb_lt in E.
        assert (E' : (50 <? S (page w))%nat = false) by (apply Nat.ltb_ge; lia).
        rewrite E'. reflexivity.
      * apply Nat.ltb_ge in E.
        assert (E' : (50 <? S (page w))%nat = true) by (apply Nat.ltb_lt; lia).
        rewrite E'. reflexivity.
    + destruct (50 <? page w)%nat; reflexivity.
Qed.

(** C4: take the walk at a test of its loop condition that passes.
    When the page fetched there has no list-item container, the walker
    returns right after loading it, with the films gathered up to
    there, whatever next-page links the page shows. *)
Theorem empty_page_ends_walk listPath env0 w env response env1 html :
  WalkReaches listPath (initialWalk, env0) (w, env) →
  loopCondition w = true →
  fetchWithRetry (pageUrl listPath (page w)) pageHeaders env
    = (Normal (Some response), env1) →
  ok response = true →
  text response = Fulfilled html →
  li_posteritem (cheerio_load html) = [] →
  returns (fun fuel => scrapeAllPages fuel listPath) env0 (films w) (loaded html env1).
Proof.
  intros Hreach Hc Hf Hok Htext Hitems.
  pose (w' := {| films := films w; page := page w; hasMore := false;
                 consecutiveFailures := 0 |}).
  change (films w) with (films w').
  eapply walk_returns; [exact Hreach|].
  exists 1%nat. intros [|fuel] Hle; [lia|].
  rewrite (scrapeLoop_turn _ _ _ _ Hc).
  rewrite (scrapeTurn_loaded _ _ _ _ _ _ Hf Hok Htext).
  unfold scrapePage. rewrite Hitems. reflexivity.
Qed.
End Walker.

(** ** Termination of the walk *)

Section WalkEnds.
Context `{Collaborators}.

Lemma retryLoop_from_net url options retries turns :
  ∀ i env r,
    (retryLoop turns url options retries i env).1 = Normal (Some r) →
    ok r = true ∧ ∃ w w', net_fetch url options w = (Fulfilled r, w').
Proof.
  induction turns as [|t IH]; intros i env r; [discriminate|].
  rewrite retryLoop_S, retryTurn_eq.
  destruct (net_fetch url options (world env)) as [[r0|e] w0] eqn:Hnet; cbv zeta.
  - destruct (ok r0) eqn:Hok.
    + cbn. intros [= <-]. split; [exact Hok|]. eauto.
    + destruct (i <? retries)%nat; apply IH.
  - destruct (i =? retries)%nat; [discriminate|apply IH].
Qed.

Lemma turn_uses_a_turn listPath w env w' env' :
  BodiesReadable →
  loopCondition w = true →
  scrapeTurn listPath w env = (Normal (Again w'), env') →
  loopCondition w' = true →
  (turnsLeft w' < turnsLeft w)%nat.
Proof.
  intros Hread Hc Ht Hc'.
  unfold loopCondition in Hc, Hc'.
  apply andb_true_iff in Hc as [Hm Hcf]. apply Nat.ltb_lt in Hcf.
  apply andb_true_iff in Hc' as [Hm' Hcf']. apply Nat.ltb_lt in Hcf'.
  assert (Hfail : ∀ v, pageFailed v = Again w' →
                       page w' = page v ∧
                       consecutiveFailures w' = S (consecutiveFailures v)).
  { intros v. unfold pageFailed. destruct (page v =? 1)%nat; [discriminate|].
    intros [= <-]. split; reflexivity. }
  rewrite scrapeTurn_eq in Ht.
  destruct (fetchWithRetry (pageUrl listPath (page w)) pageHeaders env)
    as [[[r|]|e|] env1] eqn:Hf; try discriminate.
  - destruct (ok r) eqn:Hok.
    + destruct (retryLoop_from_net _ _ _ _ _ _ _ (f_equal fst Hf))
        as (_ & w0 & w0' & Hnet).
      destruct (Hread _ _ _ _ _ Hnet Hok) as (html & Htext).
      rewrite Htext in Ht. injection Ht as Ht _.
      unfold scrapePage in Ht.
      destruct (length (li_posteritem (cheerio_load html)) =? 0)%nat; [discriminate|].
      injection Ht as <-. cbn [hasMore page consecutiveFailures failuresReset] in *.
      unfold turnsLeft. cbn [page consecutiveFailures].
      destruct (hasNextPage (cheerio_load html)).
      * destruct (50 <? S (page w))%nat eqn:E; [discriminate|].
        apply Nat.ltb_ge in E. lia.
      * destruct (50 <? page w)%nat; discriminate.
    + injection Ht as Ht _. destruct (Hfail w Ht) as [Hp Hk].
      unfold turnsLeft. lia.
  - injection Ht as Ht _. destruct (Hfail w Ht) as [Hp Hk]. unfold turnsLeft. lia.
  - injection Ht as Ht _. destruct (Hfail w Ht) as [Hp Hk]. unfold turnsLeft. lia.
Qed.

Lemma scrapeTurn_completes listPath w env :
  ∃ t env', scrapeTurn listPath w env = (Normal t, env').
Proof.
  rewrite scrapeTurn_eq.
  destruct (fetchWithRetry_completes (pageUrl listPath (page w)) pageHeaders env)
    as [(r & Hr & Hok)|[Hr|(e & Hr)]];
    destruct (fetchWithRetry (pageUrl listPath (page w)) pageHeaders env) as [c env1];
    cbn [fst] in Hr; subst c.
  - rewrite Hok. destruct (text r); eauto.
  - eauto.
  - eauto.
Qed.

(** With readable bodies the loop ends within [turnsLeft] turns. *)
Lemma scrapeLoop_terminates listPath :
  BodiesReadable →
  ∀ fuel w env, (turnsLeft w ≤ fuel)%nat →
    ∃ w' env', scrapeLoop fuel listPath w env = (Normal w', env').
Proof.
  intros Hread. induction fuel as [|fuel IH]; intros w env Hle.
  - destruct (loopCondition w) eqn:Hc.
    + exfalso. unfold loopCondition in Hc.
      apply andb_true_iff in Hc as [_ Hcf]. apply Nat.ltb_lt in Hcf.
      unfold turnsLeft in Hle. lia.
    + rewrite (scrapeLoop_done _ _ _ _ Hc). eauto.
  - destruct (loopCondition w) eqn:Hc; [|rewrite (scrapeLoop_done _ _ _ _ Hc); eauto].
    rewrite (scrapeLoop_turn _ _ _ _ Hc).
    destruct (scrapeTurn_completes listPath w env) as ([w1|w1] & env1 & Ht); rewrite Ht.
    + eauto.
    + destruct (loopCondition w1) eqn:Hc1.
      * apply IH.
        pose proof (turn_uses_a_turn _ _ _ _ _ Hread Hc Ht Hc1). lia.
      * rewrite (scrapeLoop_done _ _ _ _ Hc1). eauto.
Qed.

Lemma scrapeAllPages_terminates listPath fuel env :
  BodiesReadable → (102 ≤ fuel)%nat →
  ∃ fs env', scrapeAllPages fuel listPath env = (Normal fs, env').
Proof.
  intros Hread Hle.
  destruct (scrapeLoop_terminates listPath Hread fuel initialWalk env) as (w & env' & Hw).
  { unfold turnsLeft, initialWalk. cbn [page consecutiveFailures]. lia. }
  unfold scrapeAllPages, bind. rewrite Hw. eauto.
Qed.

(** Whatever the budget, the walk ends with a value or out of fuel: it
    never throws. *)
Lemma scrapeLoop_never_throws listPath :
  ∀ fuel w env e, (scrapeLoop fuel listPath w env).1 ≠ Throw e.
Proof.
  induction fuel as [|fuel IH]; intros w env e.
  - cbn [scrapeLoop]. destruct (loopCondition w); discriminate.
  - destruct (loopCondition w) eqn:Hc; [|rewrite (scrapeLoop_done _ _ _ _ Hc); discriminate].
    rewrite (scrapeLoop_turn _ _ _ _ Hc).
    destruct (scrapeTurn_completes listPath w env) as ([w1|w1] & env1 & Ht); rewrite Ht.
    + discriminate.
    + apply IH.
Qed.
End WalkEnds.

(** ** The page ceiling and the first page *)

Section WalkBounds.
Context `{Collaborators}.

Lemma loadsOf_app (a b : list Event) : loadsOf (a ++ b) = loadsOf a ++ loadsOf b.
Proof. unfold loadsOf. apply flat_map_app. Qed.

Lemma fetchUrls_app (a b : list Event) : fetchUrls (a ++ b) = fetchUrls a ++ fetchUrls b.
Proof. unfold fetchUrls. apply flat_map_app. Qed.

Lemma net_only_loads (evs : list Event) : net_only evs → loadsOf evs = [].
Proof.
  induction 1 as [|ev evs Hev _ IH]; [reflexivity|].
  destruct ev; cbn in Hev |- *; try contradiction; exact IH.
Qed.

Lemma fetchWithRetry_trace url options env :
  ∃ evs,
    trace (fetchWithRetry url options env).2 = trace env ++ evs ∧
    loadsOf evs = [] ∧ Forall (fun u => u = url) (fetchUrls evs).
Proof.
  unfold fetchWithRetry, fetchWithRetryN.
  destruct (retryLoop_spec url options 2 3 0 env)
    as (evs & fails & last & Htr & _ & _ & _ & _ & _ & Hurls & _ & Hnet); [lia|lia|].
  exists evs. split; [exact Htr|]. split; [exact (net_only_loads _ Hnet)|].
  rewrite Hurls. generalize (S (length fails)). intros n.
  induction n as [|n IH]; cbn [replicate]; constructor; [reflexivity|exact IH].
Qed.

(** What one turn adds to the trace, and where it leaves the walk when
    it goes on. *)
Lemma scrapeTurn_trace listPath w env :
  ∃ evs,
    trace (scrapeTurn listPath w env).2 = trace env ++ evs ∧
    Forall (fun u => u = pageUrl listPath (page w)) (fetchUrls evs) ∧
    ((loadsOf evs = [] ∧
      ∀ w', (scrapeTurn listPath w env).1 = Normal (Again w') →
            page w' = page w) ∨
     (length (loadsOf evs) = 1%nat ∧
      ∀ w', (scrapeTurn listPath w env).1 = Normal (Again w') →
            hasMore w' = true → page w' = S (page w) ∧ (page w' ≤ 50)%nat)).
Proof.
  assert (Hfail : ∀ v w', pageFailed v = Again w' → page w' = page v).
  { intros v w'. unfold pageFailed. destruct (page v =? 1)%nat; [discriminate|].
    intros [= <-]. reflexivity. }
  rewrite scrapeTurn_eq.
  destruct (fetchWithRetry_trace (pageUrl listPath (page w)) pageHeaders env)
    as (evs & Htr & Hloads & Hurls).
  destruct (fetchWithRetry (pageUrl listPath (page w)) pageHeaders env)
    as [[[r|]|e|] env1]; cbn [snd] in Htr.
  2-4: exists evs; cbn [fst snd]; split; [exact Htr|]; split; [exact Hurls|];
       left; split; [exact Hloads|]; intros w' [= Hw']; try discriminate;
       exact (Hfail _ _ Hw').
  destruct (ok r).
  - destruct (text r) as [html|e].
    + exists (evs ++ [EvCheerio html]). cbn [fst snd loaded trace].
      split; [rewrite Htr, app_assoc; reflexivity|].
      split; [rewrite fetchUrls_app, app_nil_r; exact Hurls|].
      right. split; [rewrite loadsOf_app, Hloads; reflexivity|].
      intros w'. unfold scrapePage.
      destruct (length (li_posteritem (cheerio_load html)) =? 0)%nat; [discriminate|].
      cbn [films page hasMore consecutiveFailures failuresReset].
      intros [= <-]. cbn [hasMore page].
      destruct (hasNextPage (cheerio_load html)).
      * destruct (50 <? S (page w))%nat eqn:E; [discriminate|].
        apply Nat.ltb_ge in E. intros _. split; [reflexivity|lia].
      * destruct (50 <? page w)%nat; discriminate.
    + exists evs. cbn [fst snd]. split; [exact Htr|]. split; [exact Hurls|].
      left. split; [exact Hloads|]. intros w' [= Hw']. exact (Hfail _ _ Hw').
  - exists evs. cbn [fst snd]. split; [exact Htr|]. split; [exact Hurls|].
    left. split; [exact Hloads|]. intros w' [= Hw']. exact (Hfail _ _ Hw').
Qed.

Lemma scrapeLoop_trace listPath :
  ∀ fuel w env,
    ∃ evs,
      trace (scrapeLoop fuel listPath w env).2 = trace env ++ evs ∧
      (length (loadsOf evs) ≤ Nat.max 1 (51 - page w))%nat ∧
      Forall (fun u => ∃ p, (page w ≤ p ≤ Nat.max (page w) 50)%nat
                            ∧ u = pageUrl listPath p) (fetchUrls evs).
Proof.
  assert (Hnone : ∀ w (env : Env),
            ∃ evs, trace env = trace env ++ evs ∧
                   (length (loadsOf evs) ≤ Nat.max 1 (51 - page w))%nat ∧
                   Forall (fun u => ∃ p, (page w ≤ p ≤ Nat.max (page w) 50)%nat
                                         ∧ u = pageUrl listPath p) (fetchUrls evs)).
  { intros w env. exists []. rewrite app_nil_r. cbn. split; [reflexivity|].
    split; [lia|constructor]. }
  induction fuel as [|fuel IH]; intros w env.
  - cbn [scrapeLoop]. destruct (loopCondition w); apply Hnone.
  - destruct (loopCondition w) eqn:Hc;
      [|rewrite (scrapeLoop_done _ _ _ _ Hc); apply Hnone].
    rewrite (scrapeLoop_turn _ _ _ _ Hc).
    destruct (scrapeTurn_trace listPath w env) as (evs & Htr & Hurls & Hturn).
    assert (Hurls' : Forall (fun u => ∃ p, (page w ≤ p ≤ Nat.max (page w) 50)%nat
                                           ∧ u = pageUrl listPath p) (fetchUrls evs)).
    { eapply Forall_impl; [exact Hurls|]. intros u ->. exists (page w). split; [lia|done]. }
    assert (Hloads : (length (loadsOf evs) ≤ 1)%nat).
    { destruct Hturn as [[-> _]|[-> _]]; cbn; lia. }
    destruct (scrapeTurn listPath w env) as [[[w1|w1]|e|] env1] eqn:Ht;
      cbn [fst snd] in *.
    1,3,4: exists evs; split; [exact Htr|]; split; [lia|exact Hurls'].
    destruct (loopCondition w1) eqn:Hc1.
    + destruct (IH w1 env1) as (evs1 & Htr1 & Hloads1 & Hurls1).
      exists (evs ++ evs1).
      split; [rewrite Htr1, Htr, app_assoc; reflexivity|].
      rewrite loadsOf_app, length_app, fetchUrls_app.
      assert (Hm1 : hasMore w1 = true).
      { unfold loopCondition in Hc1. apply andb_true_iff in Hc1. tauto. }
      destruct Hturn as [[Hl Hp]|[Hl Hp]].
      * specialize (Hp w1 eq_refl). rewrite Hl, Hp in *. split; [cbn; lia|].
        apply Forall_app. split; [exact Hurls'|exact Hurls1].
      * destruct (Hp w1 eq_refl Hm1) as [Hp1 Hp2]. rewrite Hl. split; [lia|].
        apply Forall_app. split; [exact Hurls'|].
        eapply Forall_impl; [exact Hurls1|].
        intros u (q & Hq & ->). exists q. split; [lia|reflexivity].
    + rewrite (scrapeLoop_done _ _ _ _ Hc1).
      exists evs. split; [exact Htr|]. split; [lia|exact Hurls'].
Qed.

(** The page ceiling: whatever the network does and however long the
    walk is followed, it loads at most 50 pages, and every request it
    makes is for a page between 1 and 50 of the list. *)
Theorem walk_stays_within_fifty_pages fuel listPath env :
  ∃ evs,
    trace (scrapeAllPages fuel listPath env).2 = trace env ++ evs ∧
    (length (loadsOf evs) ≤ 50)%nat ∧
    Forall (fun u => ∃ p, (1 ≤ p ≤ 50)%nat ∧ u = pageUrl listPath p) (fetchUrls evs).
Proof.
  destruct (scrapeLoop_trace listPath fuel initialWalk env) as (evs & Htr & Hloads & Hurls).
  exists evs. unfold scrapeAllPages, bind.
  destruct (scrapeLoop fuel listPath initialWalk env) as [[w|e|] env'];
    cbn [fst snd] in *; (split; [exact Htr|]; split; [exact Hloads|exact Hurls]).
Qed.

(** The first page: when its fetch fails, the walk is over after that
    one fetch and returns no film. *)
Theorem first_page_failure_ends_walk fuel listPath env r env1 :
  fetchWithRetry (pageUrl listPath 1) pageHeaders env = (r, env1) →
  fetchFailed r = true →
  (1 ≤ fuel)%nat →
  scrapeAllPages fuel listPath env = (Normal [], env1).
Proof.
  intros Hf Hr Hfuel. destruct fuel as [|fuel]; [lia|].
  unfold scrapeAllPages, bind.
  rewrite (scrapeLoop_turn fuel listPath initialWalk env eq_refl).
  rewrite (scrapeTurn_failed listPath initialWalk env r env1 Hf Hr).
  reflexivity.
Qed.
End WalkBounds.

Section WalkReturns.
Context `{Collaborators}.

Lemma scrapeLoop_more_fuel listPath :
  ∀ fuel w env w' env',
    scrapeLoop fuel listPath w env = (Normal w', env') →
    ∀ fuel', (fuel ≤ fuel')%nat → scrapeLoop fuel' listPath w env = (Normal w', env').
Proof.
  induction fuel as [|fuel IH]; intros w env w' env' Hrun fuel' Hle.
  - cbn [scrapeLoop] in Hrun. destruct (loopCondition w) eqn:Hc; [discriminate|].
    rewrite (scrapeLoop_done _ _ _ _ Hc). exact Hrun.
  - destruct (loopCondition w) eqn:Hc.
    + destruct fuel' as [|fuel']; [lia|].
      rewrite (scrapeLoop_turn fuel _ _ _ Hc) in Hrun.
      rewrite (scrapeLoop_turn fuel' _ _ _ Hc).
      destruct (scrapeTurn listPath w env) as [[[w1|w1]|e|] env1]; try exact Hrun.
      apply (IH _ _ _ _ Hrun). lia.
    + rewrite (scrapeLoop_done (S fuel) _ _ _ Hc) in Hrun.
      rewrite (scrapeLoop_done fuel' _ _ _ Hc). exact Hrun.
Qed.

(** With bodies that can be read the walk returns, and 102 turns are
    enough for it. *)
Theorem walk_ends_when_bodies_are_read listPath env :
  BodiesReadable →
  ∃ fs env',
    scrapeAllPages 102 listPath env = (Normal fs, env') ∧
    returns (fun fuel => scrapeAllPages fuel listPath) env fs env'.
Proof.
  intros Hread.
  destruct (scrapeLoop_terminates listPath Hread 102 initialWalk env) as (w & env' & Hw).
  { unfold turnsLeft, initialWalk. cbn [page consecutiveFailures]. lia. }
  exists (films w), env'. split.
  - unfold scrapeAllPages, bind. rewrite Hw. reflexivity.
  - exists 102%nat. intros fuel' Hle. unfold scrapeAllPages, bind.
    rewrite (scrapeLoop_more_fuel listPath _ _ _ _ _ Hw fuel' Hle). reflexivity.
Qed.
End WalkReturns.

Lemma twoPages_readable : @BodiesReadable twoPages.
Proof.
  intros url options w r w'. cbn [net_fetch twoPages scripted].
  destruct (String.eqb url "https://letterboxd.com/alice/list/favorites/");
    [|destruct (String.eqb url "https://letterboxd.com/alice/list/favorites/page/2/")];
    intros [= <- _]; cbn; intros Hok; try discriminate; eauto.
Defined.

Lemma walk_ends_when_bodies_are_read_witness :
  ∃ env',
    @scrapeAllPages twoPages 102 "/alice/list/favorites" (start twoPages 0)
    = (Normal [heat; ran], env').
Proof.
  destruct (@walk_ends_when_bodies_are_read twoPages "/alice/list/favorites"
              (start twoPages 0) twoPages_readable) as (fs & env' & Hrun & _).
  exists env'. rewrite Hrun. f_equal. f_equal.
  assert (Hfs : (@scrapeAllPages twoPages 102 "/alice/list/favorites" (start twoPages 0)).1
                = Normal [heat; ran]) by (vm_compute; reflexivity).
  rewrite Hrun in Hfs. cbn [fst] in Hfs. congruence.
Defined.

Lemma first_page_failure_ends_walk_witness :
  ∃ env1,
    @scrapeAllPages down 102 "/alice/list/favorites" (start down 0) = (Normal [], env1)
    ∧ fetchUrls (trace env1)
      = replicate 3 "https://letterboxd.com/alice/list/favorites/".
Proof.
  pose (a := @fetchWithRetry down (pageUrl "/alice/list/favorites" 1) pageHeaders
               (start down 0)).
  exists a.2. split.
  - exact (@first_page_failure_ends_walk down 102 "/alice/list/favorites" (start down 0)
             a.1 a.2 ltac:(vm_compute; reflexivity) eq_refl ltac:(lia)).
  - vm_compute. reflexivity.
Defined.

Lemma failures_in_a_row_witness :
  (∃ env2,
     returns (fun fuel => @scrapeAllPages downAfterFirst fuel "/alice/list/favorites")
             (start downAfterFirst 0) [heat] env2) ∧
  (∃ w' env2,
     @WalkReaches oneHiccup "/alice/list/favorites"
        (initialWalk, start oneHiccup 0) (w', env2) ∧
     consecutiveFailures w' = 0%nat ∧ films w' = [heat; ran]).
Proof.
  pose (lp := "/alice/list/favorites").
  pose (w := {| films := [heat]; page := 2; hasMore := true; consecutiveFailures := 0 |}).
  split.
  - pose (env0 := start downAfterFirst 0).
    pose (env := (@scrapeTurn downAfterFirst lp initialWalk env0).2).
    pose (a1 := @fetchWithRetry downAfterFirst (pageUrl lp 2) pageHeaders env).
    pose (a2 := @fetchWithRetry downAfterFirst (pageUrl lp 2) pageHeaders a1.2).
    exists a2.2.
    apply (proj1 (@failures_in_a_row downAfterFirst lp env0 w env a1.1 a1.2 a2.1 a2.2
                    ltac:(apply reaches_one; [reflexivity|vm_compute; reflexivity])
                    eq_refl eq_refl ltac:(discriminate)
                    ltac:(vm_compute; reflexivity) ltac:(vm_compute; reflexivity)
                    ltac:(vm_compute; reflexivity))).
    vm_compute. reflexivity.
  - pose (env0 := start oneHiccup 0).
    pose (env := (@scrapeTurn oneHiccup lp initialWalk env0).2).
    pose (a1 := @fetchWithRetry oneHiccup (pageUrl lp 2) pageHeaders env).
    pose (a2 := @fetchWithRetry oneHiccup (pageUrl lp 2) pageHeaders a1.2).
    destruct (proj2 (@failures_in_a_row oneHiccup lp env0 w env a1.1 a1.2 a2.1 a2.2
                       ltac:(apply reaches_one; [reflexivity|vm_compute; reflexivity])
                       eq_refl eq_refl ltac:(discriminate)
                       ltac:(vm_compute; reflexivity) ltac:(vm_compute; reflexivity)
                       ltac:(vm_compute; reflexivity))
                    {| ok := true; text := Fulfilled "last-page" |} "last-page"
                    ltac:(vm_compute; reflexivity) eq_refl eq_refl
                    ltac:(vm_compute; discriminate))
      as (w' & Hreach & Hcf & Hfilms & _).
    exists w', (loaded "last-page" a2.2).
    split; [exact Hreach|]. split; [exact Hcf|exact Hfilms].
Defined.

Lemma empty_page_ends_walk_witness :
  hasNextPage (demoDom "empty-with-next") = true ∧
  ∃ env',
    returns (fun fuel => @scrapeAllPages emptySecond fuel "/alice/list/favorites")
            (start emptySecond 0) [heat] env'.
Proof.
  split; [reflexivity|].
  pose (lp := "/alice/list/favorites").
  pose (w := {| films := [heat]; page := 2; hasMore := true; consecutiveFailures := 0 |}).
  pose (env0 := start emptySecond 0).
  pose (env := (@scrapeTurn emptySecond lp initialWalk env0).2).
  pose (a1 := @fetchWithRetry emptySecond (pageUrl lp 2) pageHeaders env).
  exists (loaded "empty-with-next" a1.2).
  exact (@empty_page_ends_walk emptySecond lp env0 w env
           {| ok := true; text := Fulfilled "empty-with-next" |} a1.2 "empty-with-next"
           ltac:(apply reaches_one; [reflexivity|vm_compute; reflexivity])
           eq_refl ltac:(vm_compute; reflexivity) eq_refl eq_refl eq_refl).
Defined.

(** ** A walk that never ends *)

Lemma stalled_fetch url n tr :
  @fetchWithRetry stalled url pageHeaders (@mkEnv stalled (S n) tr)
  = (Normal (Some {| ok := true; text := Rejected (ErrorObject "terminated") |}),
     @mkEnv stalled (S (S n)) (tr ++ [EvFetch url brokenBody])).
Proof.
  unfold fetchWithRetry, fetchWithRetryN.
  rewrite (@retryLoop_S stalled), (@retryTurn_eq stalled). reflexivity.
Qed.

Lemma stalled_loop listPath fs :
  ∀ fuel n tr cf, (cf < 2)%nat →
    (@scrapeLoop stalled fuel listPath
       {| films := fs; page := 2; hasMore := true; consecutiveFailures := cf |}
       (@mkEnv stalled (S n) tr)).1 = OutOfFuel.
Proof.
  induction fuel as [|fuel IH]; intros n tr cf Hcf.
  - cbn [scrapeLoop]. unfold loopCondition. cbn [hasMore consecutiveFailures andb].
    assert (E : (cf <? 2)%nat = true) by (apply Nat.ltb_lt; exact Hcf).
    rewrite E. reflexivity.
  - rewrite (@scrapeLoop_turn stalled).
    + rewrite (@scrapeTurn_eq stalled). cbn [page].
      rewrite stalled_fetch. cbn [ok text failuresReset pageFailed page Nat.eqb
                                    films hasMore consecutiveFailures].
      apply IH. lia.
    + unfold loopCondition. cbn [hasMore consecutiveFailures andb].
      apply Nat.ltb_lt. exact Hcf.
Qed.

(** C6, at the input where it fails: page 1 of the list is scraped and
    has a next link; from then on the network answers every request with
    a response that has [ok] and a body that cannot be read.  Each turn
    of the loop then sets the failure counter to zero and the [catch]
    block moves it to one, so the loop condition never fails: whatever
    the iteration budget, the walk runs out of it. *)
Theorem stalled_walk_never_returns :
  ∀ fuel,
    (@scrapeAllPages stalled fuel "/alice/list/favorites" (start stalled 0)).1
    = OutOfFuel.
Proof.
  intros fuel. unfold scrapeAllPages, bind.
  assert (Hloop : (@scrapeLoop stalled fuel "/alice/list/favorites" initialWalk
                     (start stalled 0)).1 = OutOfFuel).
  { destruct fuel as [|fuel]; [reflexivity|].
    rewrite (@scrapeLoop_turn stalled) by reflexivity.
    replace (@scrapeTurn stalled "/alice/list/favorites" initialWalk (start stalled 0))
      with (@Normal Turn (Again {| films := [heat]; page := 2; hasMore := true;
                                  consecutiveFailures := 0 |}),
            @mkEnv stalled 1
              [EvFetch (pageUrl "/alice/list/favorites" 1) (okPage "page-with-next");
               EvCheerio "page-with-next"])
      by (vm_compute; reflexivity).
    apply stalled_loop. lia. }
  destruct (@scrapeLoop stalled fuel "/alice/list/favorites" initialWalk (start stalled 0))
    as [[w| |] env']; cbn [fst] in Hloop; try discriminate. reflexivity.
Qed.

(** ** Strings and the list-URL pattern *)

Lemma app_cons c (s t : string) : String c s +:+ t = String c (s +:+ t).
Proof. reflexivity. Qed.

Lemma app_empty_l (s : string) : "" +:+ s = s.
Proof. reflexivity. Qed.

Lemma app_empty_r (s : string) : s +:+ "" = s.
Proof. induction s as [|c s IH]; [reflexivity|]. rewrite app_cons, IH. reflexivity. Qed.

Lemma app_assoc_str (a b c : string) : (a +:+ b) +:+ c = a +:+ b +:+ c.
Proof.
  induction a as [|x a IH]; [reflexivity|]. rewrite !app_cons, IH. reflexivity.
Qed.

Lemma truthy_true (s : string) : truthy s = true ↔ s ≠ "".
Proof. destruct s; cbn; split; congruence. Qed.

Lemma strip_prefix_app (p r : string) : strip_prefix p (p +:+ r) = Some r.
Proof.
  induction p as [|c p IH]; [destruct r; reflexivity|].
  rewrite app_cons. cbn [strip_prefix]. rewrite Ascii.eqb_refl. exact IH.
Qed.

Lemma strip_prefix_inv (p s r : string) : strip_prefix p s = Some r → s = p +:+ r.
Proof.
  revert s. induction p as [|c p IH]; intros s.
  - destruct s; cbn; intros [= <-]; reflexivity.
  - destruct s as [|d s]; cbn [strip_prefix]; [discriminate|].
    destruct (Ascii.eqb c d) eqn:E; [|discriminate].
    apply Ascii.eqb_eq in E as ->. intros Hs. rewrite app_cons, <- (IH _ Hs). reflexivity.
Qed.

Lemma span_segment_inv (s : string) :
  s = (span_segment s).1 +:+ (span_segment s).2 ∧
  no_slash (span_segment s).1 = true ∧
  segment_ends (span_segment s).2.
Proof.
  induction s as [|c s (IH1 & IH2 & IH3)]; cbn [span_segment].
  - split; [reflexivity|]. split; [reflexivity|]. by left.
  - destruct (Ascii.eqb c slash) eqn:E.
    + apply Ascii.eqb_eq in E as ->. cbn [fst snd].
      split; [reflexivity|]. split; [reflexivity|]. right. eauto.
    + destruct (span_segment s) as [seg rest]. cbn [fst snd] in *.
      split; [rewrite app_cons; congruence|].
      split; [|exact IH3]. cbn [no_slash]. rewrite E. exact IH2.
Qed.

Lemma span_segment_app (a post : string) :
  no_slash a = true →
  span_segment (a +:+ post)
  = (a +:+ (span_segment post).1, (span_segment post).2).
Proof.
  induction a as [|c a IH]; intros Ha.
  - rewrite !app_empty_l. destruct (span_segment post); reflexivity.
  - cbn [no_slash] in Ha. apply andb_true_iff in Ha as [Hc Ha].
    apply negb_true_iff in Hc.
    rewrite app_cons. cbn [span_segment]. rewrite Hc, (IH Ha). reflexivity.
Qed.

Lemma span_segment_ends (post : string) :
  segment_ends post → span_segment post = ("", post).
Proof.
  intros [->|(rest & ->)]; [reflexivity|].
  cbn [span_segment]. unfold slash. rewrite Ascii.eqb_refl. reflexivity.
Qed.

(** The pattern anchored at the head of [s], with the second segment as
    long as it can be. *)
Lemma list_match_here_iff (s owner name : string) :
  list_match_here s = Some (owner, name) ↔
  ∃ post, OccursAt "" owner name post s ∧ segment_ends post.
Proof.
  unfold list_match_here, OccursAt. split.
  - destruct (strip_prefix "letterboxd.com/" s) as [r|] eqn:Hp; [|discriminate].
    apply strip_prefix_inv in Hp.
    destruct (span_segment_inv r) as (Hr & Ho & _).
    destruct (span_segment r) as [o r1]. cbn [fst snd] in *.
    destruct (truthy o) eqn:Hto; [|discriminate].
    destruct (strip_prefix "/list/" r1) as [r2|] eqn:Hl; [|discriminate].
    apply strip_prefix_inv in Hl.
    destruct (span_segment_inv r2) as (Hr2 & Hn & Hend).
    destruct (span_segment r2) as [n post]. cbn [fst snd] in *.
    destruct (truthy n) eqn:Htn; [|discriminate].
    intros [= <- <-]. exists post. split; [|exact Hend].
    split; [|by rewrite <- !truthy_true].
    rewrite app_empty_l, Hp, Hr, Hl, Hr2. reflexivity.
  - intros (post & (Hs & Ho & Hn & Hso & Hsn) & Hend).
    rewrite app_empty_l in Hs. subst s.
    rewrite strip_prefix_app, (span_segment_app _ _ Hso).
    rewrite (span_segment_ends ("/list/" +:+ name +:+ post)) by (right; eauto).
    cbn [fst snd]. rewrite app_empty_r.
    apply truthy_true in Ho. rewrite Ho.
    rewrite strip_prefix_app, (span_segment_app _ _ Hsn), (span_segment_ends _ Hend).
    cbn [fst snd]. rewrite app_empty_r.
    apply truthy_true in Hn. rewrite Hn. reflexivity.
Qed.

(** Any occurrence at the head makes the anchored match succeed. *)
Lemma list_match_here_occurs (s owner name post : string) :
  OccursAt "" owner name post s → list_match_here s ≠ None.
Proof.
  intros (Hs & Ho & Hn & Hso & Hsn).
  rewrite app_empty_l in Hs. subst s. unfold list_match_here.
  rewrite strip_prefix_app, (span_segment_app _ _ Hso).
  rewrite (span_segment_ends ("/list/" +:+ name +:+ post)) by (right; eauto).
  cbn [fst snd]. rewrite app_empty_r.
  apply truthy_true in Ho. rewrite Ho.
  rewrite strip_prefix_app, (span_segment_app _ _ Hsn). cbn [fst snd].
  destruct name as [|c name]; [congruence|]. rewrite app_cons. cbn [truthy]. discriminate.
Qed.

(** The search returns the anchored match of the first position that has
    one. *)
Lemma list_match_first (s : string) (m : string * string) :
  list_match s = Some m ↔
  ∃ pre rest,
    s = pre +:+ rest ∧ list_match_here rest = Some m ∧
    ∀ pre' rest', s = pre' +:+ rest' →
      (String.length pre' < String.length pre)%nat → list_match_here rest' = None.
Proof.
  induction s as [|c s IH].
  - cbn [list_match]. split.
    + destruct (list_match_here "") eqn:E; [|discriminate]. intros [= <-].
      exists "", "". split; [reflexivity|]. split; [exact E|].
      intros pre' rest' _ Hlt. cbn in Hlt. lia.
    + intros (pre & rest & Hs & Hm & _).
      destruct pre; [|discriminate]. rewrite app_empty_l in Hs. subst rest.
      rewrite Hm. reflexivity.
  - cbn [list_match]. destruct (list_match_here (String c s)) as [m0|] eqn:E.
    + split.
      * intros [= <-]. exists "", (String c s). split; [reflexivity|]. split; [exact E|].
        intros pre' rest' _ Hlt. cbn in Hlt. lia.
      * intros (pre & rest & Hs & Hm & Hfirst).
        destruct pre as [|d pre].
        -- rewrite app_empty_l in Hs. subst rest. congruence.
        -- specialize (Hfirst "" (String c s) eq_refl). cbn in Hfirst.
           rewrite Hfirst in E by lia. discriminate.
    + rewrite IH. split.
      * intros (pre & rest & -> & Hm & Hfirst).
        exists (String c pre), rest. split; [reflexivity|]. split; [exact Hm|].
        intros [|d pre'] rest' Hs Hlt.
        -- rewrite app_empty_l in Hs. subst rest'. exact E.
        -- rewrite app_cons in Hs. injection Hs as _ Hs.
           apply (Hfirst pre' rest' Hs). cbn in Hlt. lia.
      * intros (pre & rest & Hs & Hm & Hfirst).
        destruct pre as [|d pre].
        -- rewrite app_empty_l in Hs. subst rest. congruence.
        -- rewrite app_cons in Hs. injection Hs as <- Hs.
           exists pre, rest. split; [exact Hs|]. split; [exact Hm|].
           intros pre' rest' Hs' Hlt.
           apply (Hfirst (String c pre') rest').
           ++ rewrite app_cons, <- Hs'. reflexivity.
           ++ cbn. lia.
Qed.

Lemma list_match_found (pre rest : string) :
  list_match_here rest ≠ None → list_match (pre +:+ rest) ≠ None.
Proof.
  intros Hrest. induction pre as [|c pre IH].
  - rewrite app_empty_l. destruct rest; cbn [list_match];
      destruct (list_match_here _); congruence.
  - rewrite app_cons. cbn [list_match].
    destruct (list_match_here (String c (pre +:+ rest))); [discriminate|exact IH].
Qed.

Lemma occurs_shift (pre owner name post s : string) :
  OccursAt pre owner name post s →
  ∃ rest, s = pre +:+ rest ∧ OccursAt "" owner name post rest.
Proof.
  intros (Hs & Hrest). eexists. split; [exact Hs|]. split; [|exact Hrest].
  rewrite app_empty_l. reflexivity.
Qed.

(** C10: [extractListPath] gives a path exactly for the strings that
    hold an occurrence of the pattern anywhere, with nothing asked of
    what stands before or after it; the path is made of the two segments
    of the leftmost occurrence, the second one taken up to the next slash
    or the end of the string. *)
Theorem extractListPath_iff_occurs (s : string) :
  (extractListPath s ≠ None ↔ ∃ pre owner name post, OccursAt pre owner name post s) ∧
  (∀ path, extractListPath s = Some path →
     ∃ pre owner name post,
       OccursAt pre owner name post s ∧
       path = "/" +:+ owner +:+ "/list/" +:+ name ∧
       segment_ends post ∧
       ∀ pre' owner' name' post',
         OccursAt pre' owner' name' post' s →
         (String.length pre ≤ String.length pre')%nat).
Proof.
  assert (Hsome : ∀ m, list_match s = Some m →
     ∃ pre post,
       OccursAt pre m.1 m.2 post s ∧ segment_ends post ∧
       ∀ pre' owner' name' post',
         OccursAt pre' owner' name' post' s →
         (String.length pre ≤ String.length pre')%nat).
  { intros [owner name] (pre & rest & Hs & Hm & Hfirst)%list_match_first.
    apply list_match_here_iff in Hm as (post & (Hrest & Hdata) & Hend).
    rewrite app_empty_l in Hrest.
    exists pre, post. cbn [fst snd].
    split; [split; [rewrite Hs, Hrest; reflexivity|exact Hdata]|]. split; [exact Hend|].
    intros pre' owner' name' post' Hocc.
    destruct (occurs_shift _ _ _ _ _ Hocc) as (rest' & Hs' & Hocc').
    destruct (Nat.le_gt_cases (String.length pre) (String.length pre')) as [Hle|Hlt];
      [exact Hle|].
    exfalso. apply (list_match_here_occurs _ _ _ _ Hocc').
    exact (Hfirst pre' rest' Hs' Hlt). }
  unfold extractListPath. split; [split|].
  - destruct (list_match s) as [[owner name]|] eqn:Hm; [|congruence].
    intros _. destruct (Hsome _ eq_refl) as (pre & post & Hocc & _).
    exists pre, owner, name, post. exact Hocc.
  - intros (pre & owner & name & post & Hocc).
    destruct (occurs_shift _ _ _ _ _ Hocc) as (rest & -> & Hocc').
    pose proof (list_match_found pre rest (list_match_here_occurs _ _ _ _ Hocc')) as Hne.
    destruct (list_match (pre +:+ rest)) as [[o n]|]; congruence.
  - intros path. destruct (list_match s) as [[owner name]|] eqn:Hm; [|discriminate].
    intros [= <-]. destruct (Hsome _ eq_refl) as (pre & post & Hocc & Hend & Hfirst).
    exists pre, owner, name, post. split; [exact Hocc|]. split; [reflexivity|].
    split; [exact Hend|exact Hfirst].
Qed.

(** ** Trailing slashes and letter case *)

Lemma strip_prefix_more (p s r t : string) :
  strip_prefix p s = Some r → strip_prefix p (s +:+ t) = Some (r +:+ t).
Proof.
  intros ->%strip_prefix_inv. rewrite app_assoc_str. apply strip_prefix_app.
Qed.

Lemma strip_prefix_slash (p s : string) :
  strip_prefix p s = None →
  strip_prefix p (s +:+ "/") = None ∨ strip_prefix p (s +:+ "/") = Some "".
Proof.
  revert s. induction p as [|c p IH]; intros s.
  - destruct s; discriminate.
  - destruct s as [|d s].
    + intros _. rewrite app_empty_l. cbn [strip_prefix].
      destruct (Ascii.eqb c "/"); [|by left].
      destruct p; [by right|by left].
    + rewrite app_cons. cbn [strip_prefix].
      destruct (Ascii.eqb c d); [apply IH|by left].
Qed.

Lemma span_segment_slash (s : string) :
  span_segment (s +:+ "/") = ((span_segment s).1, (span_segment s).2 +:+ "/").
Proof.
  induction s as [|c s IH]; [reflexivity|].
  rewrite app_cons. cbn [span_segment].
  destruct (Ascii.eqb c slash); [reflexivity|].
  rewrite IH. destruct (span_segment s); reflexivity.
Qed.

Lemma list_match_here_slash (s : string) :
  list_match_here (s +:+ "/") = list_match_here s.
Proof.
  unfold list_match_here.
  destruct (strip_prefix "letterboxd.com/" s) as [r|] eqn:Hp.
  - rewrite (strip_prefix_more _ _ _ "/" Hp), span_segment_slash.
    destruct (span_segment r) as [o r1]. cbn [fst snd].
    destruct (truthy o); [|reflexivity].
    destruct (strip_prefix "/list/" r1) as [r2|] eqn:Hl.
    + rewrite (strip_prefix_more _ _ _ "/" Hl), span_segment_slash.
      destruct (span_segment r2) as [n r3]. reflexivity.
    + destruct (strip_prefix_slash _ _ Hl) as [-> | ->]; reflexivity.
  - destruct (strip_prefix_slash _ _ Hp) as [-> | ->]; reflexivity.
Qed.

Lemma list_match_slash (s : string) : list_match (s +:+ "/") = list_match s.
Proof.
  induction s as [|c s IH]; [reflexivity|].
  rewrite app_cons. cbn [list_match].
  rewrite <- app_cons, list_match_here_slash.
  destruct (list_match_here (String c s)); [reflexivity|exact IH].
Qed.

(** C9, as stated, fails: two URLs that differ in the letter case of the
    host and in a trailing slash have one normal form, and
    [extractListPath] gives a path for one and nothing for the other. *)
Lemma host_case_is_not_ignored :
  normalizeUrl "https://LETTERBOXD.COM/alice/list/favorites"
    = normalizeUrl "https://letterboxd.com/alice/list/favorites/" ∧
  extractListPath "https://LETTERBOXD.COM/alice/list/favorites" = None ∧
  extractListPath "https://letterboxd.com/alice/list/favorites/"
    = Some "/alice/list/favorites".
Proof. repeat split; vm_compute; reflexivity. Qed.

(** C9, as amended: two URLs that differ only in how many slashes end
    them get the same answer from [extractListPath], the same path or
    nothing for both. *)
Theorem trailing_slashes_are_ignored (base : string) (k1 k2 : nat) :
  extractListPath (base +:+ slashes k1) = extractListPath (base +:+ slashes k2).
Proof.
  assert (Hdrop : ∀ k s, extractListPath (s +:+ slashes k) = extractListPath s).
  { induction k as [|k IH]; intros s; cbn [slashes].
    - rewrite app_empty_r. reflexivity.
    - change (String slash (slashes k)) with ("/" +:+ slashes k).
      rewrite <- app_assoc_str, IH. unfold extractListPath.
      rewrite list_match_slash. reflexivity. }
  rewrite !Hdrop. reflexivity.
Qed.

(** ** What the walker gathers *)

Section WalkGathers.
Context `{Collaborators}.

Lemma posterFilm_shape el : Forall scrapedShape (posterFilm el).
Proof.
  unfold posterFilm.
  set (s := js_or (option_map data_item_slug (head (react_components el))) "").
  set (t := js_or match head (react_components el) with
                  | Some c => data_item_name c
                  | None => None
                  end "").
  destruct (truthy s) eqn:Hs; [|constructor].
  destruct (truthy t) eqn:Ht; [|constructor].
  constructor; [|constructor].
  unfold scrapedShape. cbn [slug title year letterboxdUrl].
  apply truthy_true in Hs. apply truthy_true in Ht. done.
Qed.

Lemma pageFilms_shape doc : Forall scrapedShape (pageFilms doc).
Proof.
  unfold pageFilms. induction (li_posteritem doc) as [|el els IH]; cbn [flat_map].
  - constructor.
  - apply Forall_app. split; [apply posterFilm_shape|exact IH].
Qed.

Lemma gathered_app a b : gathered (a ++ b) = gathered a ++ gathered b.
Proof. unfold gathered. rewrite loadsOf_app. apply flat_map_app. Qed.

Lemma scrapeTurn_gathers listPath w env :
  ∃ evs,
    trace (scrapeTurn listPath w env).2 = trace env ++ evs ∧
    ∀ t, (scrapeTurn listPath w env).1 = Normal t →
         films (match t with Break v | Again v => v end) = films w ++ gathered evs.
Proof.
  assert (Hfail : ∀ v, films (match pageFailed v with Break u | Again u => u end)
                       = films v).
  { intros v. unfold pageFailed. destruct (page v =? 1)%nat; reflexivity. }
  rewrite scrapeTurn_eq.
  destruct (fetchWithRetry_trace (pageUrl listPath (page w)) pageHeaders env)
    as (evs & Htr & Hloads & _).
  assert (Hnone : gathered evs = []) by (unfold gathered; rewrite Hloads; reflexivity).
  destruct (fetchWithRetry (pageUrl listPath (page w)) pageHeaders env)
    as [[[r|]|e|] env1]; cbn [snd] in Htr.
  2-4: exists evs; cbn [fst snd]; split; [exact Htr|]; intros t [= <-];
       rewrite Hfail, Hnone, app_nil_r; reflexivity.
  destruct (ok r).
  - destruct (text r) as [html|e].
    + exists (evs ++ [EvCheerio html]). cbn [fst snd loaded trace].
      split; [rewrite Htr, app_assoc; reflexivity|].
      intros t [= <-]. rewrite gathered_app, Hnone. cbn [app].
      unfold gathered. cbn [loadsOf flat_map app]. rewrite app_nil_r.
      unfold scrapePage.
      destruct (li_posteritem (cheerio_load html)) as [|el els] eqn:Hels.
      * cbn [length Nat.eqb films failuresReset]. unfold pageFilms. rewrite Hels.
        cbn [flat_map]. rewrite app_nil_r. reflexivity.
      * cbn [length Nat.eqb films failuresReset]. reflexivity.
    + exists evs. cbn [fst snd]. split; [exact Htr|]. intros t [= <-].
      rewrite Hfail, Hnone, app_nil_r. reflexivity.
  - exists evs. cbn [fst snd]. split; [exact Htr|]. intros t [= <-].
    rewrite Hfail, Hnone, app_nil_r. reflexivity.
Qed.

Lemma scrapeLoop_gathers listPath :
  ∀ fuel w env,
    ∃ evs,
      trace (scrapeLoop fuel listPath w env).2 = trace env ++ evs ∧
      ∀ w', (scrapeLoop fuel listPath w env).1 = Normal w' →
            films w' = films w ++ gathered evs.
Proof.
  assert (Hnone : ∀ w (env : Env),
            ∃ evs, trace env = trace env ++ evs ∧
                   ∀ w', @Normal Walk w = Normal w' → films w' = films w ++ gathered evs).
  { intros w env. exists []. rewrite app_nil_r. split; [reflexivity|].
    intros w' [= <-]. unfold gathered. cbn. rewrite app_nil_r. reflexivity. }
  induction fuel as [|fuel IH]; intros w env.
  - cbn [scrapeLoop]. destruct (loopCondition w); [|apply Hnone].
    exists []. cbn [fst snd]. rewrite app_nil_r. split; [reflexivity|discriminate].
  - destruct (loopCondition w) eqn:Hc;
      [|rewrite (scrapeLoop_done _ _ _ _ Hc); apply Hnone].
    rewrite (scrapeLoop_turn _ _ _ _ Hc).
    destruct (scrapeTurn_gathers listPath w env) as (evs & Htr & Hfilms).
    destruct (scrapeTurn listPath w env) as [[[w1|w1]|e|] env1]; cbn [fst snd] in *.
    + exists evs. split; [exact Htr|]. intros w' [= <-]. exact (Hfilms _ eq_refl).
    + destruct (IH w1 env1) as (evs1 & Htr1 & Hfilms1).
      exists (evs ++ evs1). split; [rewrite Htr1, Htr, app_assoc; reflexivity|].
      intros w' Hw'. rewrite (Hfilms1 w' Hw'), (Hfilms _ eq_refl), gathered_app, app_assoc.
      reflexivity.
    + exists evs. split; [exact Htr|discriminate].
    + exists evs. split; [exact Htr|discriminate].
Qed.

(** The walker's result is what the pages it loaded hold, page after
    page in the order they were loaded, and each film in it has a slug
    and a title that are not empty, no year, and the URL of its slug. *)
Theorem walk_result_is_pages_in_order fuel listPath env :
  ∃ evs,
    trace (scrapeAllPages fuel listPath env).2 = trace env ++ evs ∧
    ∀ fs, (scrapeAllPages fuel listPath env).1 = Normal fs →
      fs = flat_map (fun html => pageFilms (cheerio_load html)) (loadsOf evs) ∧
      Forall scrapedShape fs.
Proof.
  destruct (scrapeLoop_gathers listPath fuel initialWalk env) as (evs & Htr & Hfilms).
  exists evs. unfold scrapeAllPages, bind.
  destruct (scrapeLoop fuel listPath initialWalk env) as [[w|e|] env'];
    cbn [fst snd] in *; (split; [exact Htr|]); try discriminate.
  intros fs [= <-]. rewrite (Hfilms w eq_refl). cbn [films initialWalk app].
  split; [reflexivity|].
  unfold gathered. induction (loadsOf evs) as [|html l IH]; cbn [flat_map].
  - constructor.
  - apply Forall_app. split; [apply pageFilms_shape|exact IH].
Qed.
End WalkGathers.

(** ** What the feed reader returns *)

Section Feed.
Context `{Collaborators}.

Lemma film_match_here_inv (s m : string) :
  film_match_here s = Some m →
  m ≠ "" ∧ no_slash m = true ∧ ∃ post, s = "letterboxd.com/film/" +:+ m +:+ post.
Proof.
  unfold film_match_here.
  destruct (strip_prefix "letterboxd.com/film/" s) as [r|] eqn:Hp; [|discriminate].
  apply strip_prefix_inv in Hp.
  destruct (span_segment_inv r) as (Hr & Hseg & _).
  destruct (span_segment r) as [seg post]. cbn [fst snd] in *.
  destruct (truthy seg) eqn:Ht; [|discriminate].
  intros [= <-]. apply truthy_true in Ht.
  split; [exact Ht|]. split; [exact Hseg|]. exists post. rewrite Hp, Hr. reflexivity.
Qed.

Lemma film_match_inv (s m : string) :
  film_match s = Some m →
  m ≠ "" ∧ no_slash m = true ∧
  ∃ pre post, s = pre +:+ "letterboxd.com/film/" +:+ m +:+ post.
Proof.
  induction s as [|c s IH]; cbn [film_match].
  - destruct (film_match_here "") eqn:E; [|discriminate]. intros [= <-].
    destruct (film_match_here_inv _ _ E) as (? & ? & post & Hs).
    split; [done|]. split; [done|]. exists "", post. exact Hs.
  - destruct (film_match_here (String c s)) eqn:E.
    + intros [= <-]. destruct (film_match_here_inv _ _ E) as (? & ? & post & Hs).
      split; [done|]. split; [done|]. exists "", post. exact Hs.
    + intros Hm. destruct (IH Hm) as (? & ? & pre & post & ->).
      split; [done|]. split; [done|]. exists (String c pre), post. reflexivity.
Qed.

Lemma rssItemFilm_shape item :
  truthy (slug (rssItemFilm item)) = true → feedShape (rssItemFilm item).
Proof.
  unfold rssItemFilm, feedShape. cbn [slug title year letterboxdUrl].
  set (link := js_or (item_link item) "").
  set (y := js_or (item_filmYear item) "").
  set (t := js_or (item_filmTitle item) (js_or (item_title item) "")).
  destruct (film_match link) as [m|] eqn:Hm; cbn [js_or]; [|discriminate].
  destruct (truthy m) eqn:Htm; [|discriminate]. intros _.
  destruct (film_match_inv _ _ Hm) as (Hne & Hns & pre & post & Hlink).
  split; [exact Hne|]. split; [exact Hns|]. split; [eauto|].
  intros Hy. apply truthy_true in Hy. rewrite Hy. eauto.
Qed.

Lemma feed_films_shape items :
  Forall feedShape
    (List.filter (fun f => truthy (slug f)) (map rssItemFilm items)).
Proof.
  induction items as [|item items IH]; cbn [map List.filter]; [constructor|].
  destruct (truthy (slug (rssItemFilm item))) eqn:E; [|exact IH].
  constructor; [exact (rssItemFilm_shape item E)|exact IH].
Qed.

Lemma xmlsOf_app (a b : list Event) : xmlsOf (a ++ b) = xmlsOf a ++ xmlsOf b.
Proof. unfold xmlsOf. apply flat_map_app. Qed.

Lemma net_only_xmls (evs : list Event) : net_only evs → xmlsOf evs = [].
Proof.
  induction 1 as [|ev evs Hev _ IH]; [reflexivity|].
  destruct ev; cbn in Hev |- *; try contradiction; exact IH.
Qed.

Lemma fetchWithRetry_calls url options env :
  ∃ evs n,
    trace (fetchWithRetry url options env).2 = trace env ++ evs ∧
    (1 ≤ n ≤ 3)%nat ∧ fetchUrls evs = replicate n url ∧ net_only evs.
Proof.
  unfold fetchWithRetry, fetchWithRetryN.
  destruct (retryLoop_spec url options 2 3 0 env)
    as (evs & fails & last & Htr & _ & _ & Hlen & _ & _ & Hurls & _ & Hnet); [lia|lia|].
  exists evs, (S (length fails)). split; [exact Htr|]. split; [lia|]. split; assumption.
Qed.

(** The feed reader never throws and never runs short: it returns a
    list or [null].  It asks the network one to three times, always for
    the feed of the list, loads no HTML, and hands a text to the XML
    parser at most once, and only a text that starts, blanks aside, with
    an XML declaration or an [rss] tag.  Every film it returns has a slug
    that is not empty and has no slash, a URL that holds the film path of
    that slug, and, when it has a year, a title that ends with the year
    in brackets. *)
Theorem tryRssFeed_contract listPath env :
  ∃ rss env' evs n,
    tryRssFeed listPath env = (Normal rss, env') ∧
    trace env' = trace env ++ evs ∧
    (1 ≤ n ≤ 3)%nat ∧
    fetchUrls evs = replicate n ("https://letterboxd.com" +:+ listPath +:+ "/rss/") ∧
    loadsOf evs = [] ∧
    (length (xmlsOf evs) ≤ 1)%nat ∧
    Forall (fun x => startsWith (trim x) "<?xml" || startsWith (trim x) "<rss" = true)
           (xmlsOf evs) ∧
    (∀ fs, rss = Some fs → Forall feedShape fs).
Proof.
  unfold tryRssFeed, tryCatch, bind.
  set (rssUrl := "https://letterboxd.com" +:+ listPath +:+ "/rss/").
  destruct (fetchWithRetry_calls rssUrl rssHeaders env) as (evs & n & Htr & Hn & Hurls & Hnet).
  pose proof (net_only_loads _ Hnet) as Hloads.
  pose proof (net_only_xmls _ Hnet) as Hxml.
  assert (Hquiet : ∀ env1 : Env, trace env1 = trace env ++ evs →
            ∃ rss env' evs' n',
              (@Normal (option (list Film)) None, env1) = (Normal rss, env') ∧
              trace env' = trace env ++ evs' ∧ (1 ≤ n' ≤ 3)%nat ∧
              fetchUrls evs' = replicate n' rssUrl ∧ loadsOf evs' = [] ∧
              (length (xmlsOf evs') ≤ 1)%nat ∧
              Forall (fun x => startsWith (trim x) "<?xml" || startsWith (trim x) "<rss" = true)
                     (xmlsOf evs') ∧
              (∀ fs, rss = Some fs → Forall feedShape fs)).
  { intros env1 Htr1. exists None, env1, evs, n. rewrite Hxml.
    split; [reflexivity|]. split; [exact Htr1|]. split; [exact Hn|].
    split; [exact Hurls|]. split; [exact Hloads|]. split; [cbn; lia|].
    split; [constructor|]. intros fs Hfs. discriminate. }
  destruct (fetchWithRetry_completes rssUrl rssHeaders env) as [(r & Hr & Hok)|[Hr|(e & Hr)]];
    destruct (fetchWithRetry rssUrl rssHeaders env) as [c env1];
    cbn [fst snd] in *; subst c; cbn [ret]; try (apply Hquiet; exact Htr).
  rewrite Hok. cbn [negb]. unfold responseText.
  destruct (text r) as [body|e]; cbn [awaitSettled ret throw]; [|apply Hquiet; exact Htr].
  destruct (startsWith (trim body) "<?xml" || startsWith (trim body) "<rss") eqn:Hxmlish.
  - replace (negb (startsWith (trim body) "<?xml") && negb (startsWith (trim body) "<rss"))
      with false by (rewrite <- negb_orb, Hxmlish; reflexivity).
    unfold parseStringPromise.
    assert (Hev : ∀ rss,
              (∀ fs, rss = Some fs → Forall feedShape fs) →
              ∃ rss' env' evs' n',
                (@Normal (option (list Film)) rss,
                 {| world := world env1; trace := trace env1 ++ [EvXml body] |})
                = (Normal rss', env') ∧
                trace env' = trace env ++ evs' ∧ (1 ≤ n' ≤ 3)%nat ∧
                fetchUrls evs' = replicate n' rssUrl ∧ loadsOf evs' = [] ∧
                (length (xmlsOf evs') ≤ 1)%nat ∧
                Forall (fun x => startsWith (trim x) "<?xml" || startsWith (trim x) "<rss" = true)
                       (xmlsOf evs') ∧
                (∀ fs, rss' = Some fs → Forall feedShape fs)).
    { intros rss Hrss. exists rss, {| world := world env1; trace := trace env1 ++ [EvXml body] |},
        (evs ++ [EvXml body]), n.
      split; [reflexivity|]. cbn [trace]. rewrite Htr, <- app_assoc.
      split; [reflexivity|]. split; [lia|].
      rewrite fetchUrls_app, loadsOf_app, xmlsOf_app, Hloads, Hxml, app_nil_r.
      split; [exact Hurls|]. split; [reflexivity|]. split; [cbn; lia|].
      split; [|exact Hrss]. cbn. constructor; [exact Hxmlish|constructor]. }
    destruct (xml_parse body) as [[items|]|e]; cbn [awaitSettled ret throw].
    + apply Hev. intros fs [= <-]. apply feed_films_shape.
    + apply Hev. discriminate.
    + apply Hev. discriminate.
  - replace (negb (startsWith (trim body) "<?xml") && negb (startsWith (trim body) "<rss"))
      with true by (rewrite <- negb_orb, Hxmlish; reflexivity).
    cbn [ret]. apply Hquiet. exact Htr.
Qed.
End Feed.

(** ** Sublists *)

Section Sublists.
Context `{Collaborators}.

Lemma Forall_sublist_of {A} (P : A → Prop) (l1 l2 : list A) :
  l1 `sublist_of` l2 → Forall P l2 → Forall P l1.
Proof.
  induction 1 as [|x l1 l2 _ IH|x l1 l2 _ IH]; intros Hall.
  - constructor.
  - inversion Hall; subst. constructor; auto.
  - inversion Hall; subst. auto.
Qed.
End Sublists.

(** ** Deduplicating twice *)

Lemma dedupe_filter_fixed (seen : gset string) (l : list Film) :
  NoDup (slug <$> l) → (∀ f, f ∈ l → slug f ∉ seen) → dedupe_filter seen l = l.
Proof.
  revert seen. induction l as [|g l IH]; intros seen Hnd Hfresh; [reflexivity|].
  rewrite fmap_cons in Hnd. apply NoDup_cons in Hnd as [Hg Hnd].
  cbn [dedupe_filter].
  destruct (decide (slug g ∈ seen)) as [Hin|_].
  - exfalso. apply (Hfresh g); [left|exact Hin].
  - f_equal. apply IH; [exact Hnd|].
    intros f Hf. apply not_elem_of_union. split.
    + apply not_elem_of_singleton. intros E. apply Hg. rewrite <- E.
      apply list_elem_of_fmap. eauto.
    + apply Hfresh. by right.
Qed.

(** [dedupeFilms] leaves a list as it is exactly when no two of its films
    share a slug; so deduplicating a second time changes nothing, and a
    list never gets longer. *)
Theorem dedupeFilms_fixed_points (l : list Film) :
  (dedupeFilms l = l ↔ NoDup (slug <$> l)) ∧
  dedupeFilms (dedupeFilms l) = dedupeFilms l ∧
  (length (dedupeFilms l) ≤ length l)%nat.
Proof.
  assert (Hfix : ∀ l', NoDup (slug <$> l') → dedupeFilms l' = l').
  { intros l' Hnd. apply dedupe_filter_fixed; [exact Hnd|].
    intros f _. apply not_elem_of_empty. }
  split; [split|split].
  - intros E. rewrite <- E. apply dedupe_filter_NoDup.
  - apply Hfix.
  - apply Hfix. apply dedupe_filter_NoDup.
  - apply sublist_length. apply dedupe_filter_sublist.
Qed.

(** ** The cache key *)

Lemma lower_char_facts (c : ascii) :
  is_js_space (lower_char c) = is_js_space c ∧
  Ascii.eqb (lower_char c) slash = Ascii.eqb c slash ∧
  lower_char (lower_char c) = lower_char c.
Proof.
  destruct c as [[] [] [] [] [] [] [] []]; vm_compute; repeat split; reflexivity.
Qed.

Lemma toLowerCase_empty (s : string) : toLowerCase s = "" → s = "".
Proof. destruct s; [reflexivity|discriminate]. Qed.

Lemma toLowerCase_trim_start (s : string) :
  toLowerCase (trim_start s) = trim_start (toLowerCase s).
Proof.
  induction s as [|c s IH]; [reflexivity|]. cbn [trim_start toLowerCase].
  destruct (lower_char_facts c) as (-> & _ & _).
  destruct (is_js_space c); [exact IH|reflexivity].
Qed.

Lemma toLowerCase_trim_end (s : string) :
  toLowerCase (trim_end s) = trim_end (toLowerCase s).
Proof.
  induction s as [|c s IH]; [reflexivity|]. cbn [trim_end toLowerCase].
  rewrite <- IH. destruct (lower_char_facts c) as (-> & _ & _).
  destruct (trim_end s) as [|d t]; cbn [toLowerCase]; [|reflexivity].
  destruct (is_js_space c); reflexivity.
Qed.

Lemma toLowerCase_strip (s : string) :
  toLowerCase (strip_trailing_slashes s) = strip_trailing_slashes (toLowerCase s).
Proof.
  induction s as [|c s IH]; [reflexivity|]. cbn [strip_trailing_slashes toLowerCase].
  rewrite <- IH. destruct (lower_char_facts c) as (_ & -> & _).
  destruct (strip_trailing_slashes s) as [|d t]; cbn [toLowerCase]; [|reflexivity].
  destruct (Ascii.eqb c slash); reflexivity.
Qed.

Lemma toLowerCase_twice (s : string) : toLowerCase (toLowerCase s) = toLowerCase s.
Proof.
  induction s as [|c s IH]; [reflexivity|]. cbn [toLowerCase].
  destruct (lower_char_facts c) as (_ & _ & ->). rewrite IH. reflexivity.
Qed.

Lemma strip_no_trailing_slash (s : string) :
  last_char (strip_trailing_slashes s) ≠ Some slash.
Proof.
  induction s as [|c s IH]; [discriminate|]. cbn [strip_trailing_slashes].
  destruct (strip_trailing_slashes s) as [|d t] eqn:E.
  - destruct (Ascii.eqb c slash) eqn:Ec; [discriminate|].
    cbn. intros [= ->]. unfold slash in Ec. rewrite Ascii.eqb_refl in Ec. discriminate.
  - exact IH.
Qed.

Lemma last_char_toLowerCase (s : string) :
  last_char (toLowerCase s) = option_map lower_char (last_char s).
Proof.
  induction s as [|c s IH]; [reflexivity|]. cbn [toLowerCase last_char].
  destruct s as [|d s]; [reflexivity|]. exact IH.
Qed.

(** The cache key does not see letter case, anywhere in the URL: a URL
    and its lower-case form have the same key, and a key is its own
    lower-case form.  A key never ends with a slash. *)
Theorem normalizeUrl_ignores_case (u : string) :
  normalizeUrl (toLowerCase u) = normalizeUrl u ∧
  toLowerCase (normalizeUrl u) = normalizeUrl u ∧
  last_char (normalizeUrl u) ≠ Some slash.
Proof.
  unfold normalizeUrl, trim. split; [|split].
  - rewrite <- toLowerCase_trim_start, <- toLowerCase_trim_end, <- toLowerCase_strip.
    apply toLowerCase_twice.
  - apply toLowerCase_twice.
  - rewrite last_char_toLowerCase.
    pose proof (strip_no_trailing_slash (trim_end (trim_start u))) as Hs.
    destruct (last_char (strip_trailing_slashes (trim_end (trim_start u)))) as [c|];
      [|discriminate].
    cbn. intros [= Hc]. apply Hs. f_equal.
    destruct (lower_char_facts c) as (_ & Hsl & _).
    rewrite Hc in Hsl. unfold slash in Hsl at 1. rewrite Ascii.eqb_refl in Hsl.
    symmetry in Hsl. apply Ascii.eqb_eq in Hsl. exact Hsl.
Qed.

Lemma all_space_trim_start (s : string) : all_space s = true → trim_start s = "".
Proof.
  induction s as [|c s IH]; [reflexivity|]. cbn [all_space trim_start].
  destruct (is_js_space c); [exact IH|discriminate].
Qed.

Lemma all_space_trim_end (s : string) : all_space s = true → trim_end s = "".
Proof.
  induction s as [|c s IH]; [reflexivity|]. cbn [all_space trim_end].
  destruct (is_js_space c); [|discriminate]. intros Hs. rewrite (IH Hs). reflexivity.
Qed.

Lemma trim_end_cons_fixed (c : ascii) (s : string) :
  trim_end (String c s) = String c s → trim_end s = s.
Proof.
  cbn [trim_end]. destruct (trim_end s) as [|d t] eqn:E.
  - destruct (is_js_space c); [discriminate|]. intros [= <-]. reflexivity.
  - intros [= <-]. reflexivity.
Qed.

Lemma trim_end_trim_start_fixed (u : string) :
  trim_end u = u → trim_end (trim_start u) = trim_start u.
Proof.
  induction u as [|c u IH]; [reflexivity|]. intros Hu. cbn [trim_start].
  destruct (is_js_space c); [|exact Hu].
  apply IH. exact (trim_end_cons_fixed c u Hu).
Qed.

Lemma trim_start_app (u t : string) :
  all_space u = false → trim_start (u +:+ t) = trim_start u +:+ t.
Proof.
  induction u as [|c u IH]; [discriminate|]. cbn [all_space]. rewrite app_cons.
  cbn [trim_start]. destruct (is_js_space c); [exact IH|]. intros _. reflexivity.
Qed.

Lemma trim_end_app_fixed (x y : string) :
  y ≠ "" → trim_end y = y → trim_end (x +:+ y) = x +:+ y.
Proof.
  intros Hy Hfix. induction x as [|c x IH]; [exact Hfix|].
  rewrite app_cons. cbn [trim_end]. rewrite IH.
  destruct (x +:+ y) as [|d t] eqn:E; [|reflexivity].
  exfalso. destruct x; [rewrite app_empty_l in E; congruence|rewrite app_cons in E; discriminate].
Qed.

Lemma trim_end_slashes (k : nat) : trim_end (slashes k) = slashes k.
Proof.
  induction k as [|k IH]; [reflexivity|]. cbn [slashes trim_end]. rewrite IH.
  destruct (slashes k); reflexivity.
Qed.

Lemma strip_slashes_only (k : nat) : strip_trailing_slashes (slashes k) = "".
Proof.
  induction k as [|k IH]; [reflexivity|]. cbn [slashes strip_trailing_slashes].
  rewrite IH. reflexivity.
Qed.

Lemma strip_app_slashes (x : string) (k : nat) :
  strip_trailing_slashes (x +:+ slashes k) = strip_trailing_slashes x.
Proof.
  induction x as [|c x IH]; [apply strip_slashes_only|].
  rewrite app_cons. cbn [strip_trailing_slashes]. rewrite IH. reflexivity.
Qed.

(** A URL that does not end with a blank keeps its cache key when
    slashes are added at its end. *)
Theorem normalizeUrl_ignores_trailing_slashes (u : string) (k : nat) :
  trim_end u = u → normalizeUrl (u +:+ slashes k) = normalizeUrl u.
Proof.
  intros Hu. unfold normalizeUrl, trim. f_equal.
  destruct (all_space u) eqn:Hsp.
  - rewrite (all_space_trim_end u Hsp) in Hu. subst u. rewrite app_empty_l.
    assert (Hts : trim_start (slashes k) = slashes k) by (destruct k; reflexivity).
    rewrite Hts, trim_end_slashes, strip_slashes_only. reflexivity.
  - rewrite (trim_start_app _ _ Hsp), (trim_end_trim_start_fixed u Hu).
    destruct k as [|k]; [rewrite app_empty_r; exact (f_equal _ (trim_end_trim_start_fixed u Hu))|].
    rewrite trim_end_app_fixed; [apply strip_app_slashes|discriminate|apply trim_end_slashes].
Qed.

Lemma normalizeUrl_ignores_trailing_slashes_witness :
  normalizeUrl ("https://letterboxd.com/alice/list/favorites" +:+ slashes 3)
  = normalizeUrl "https://letterboxd.com/alice/list/favorites".
Proof.
  exact (normalizeUrl_ignores_trailing_slashes
           "https://letterboxd.com/alice/list/favorites" 3 eq_refl).
Defined.

(** ** The list form *)

Lemma includes_unfold (s sub : string) :
  includes s sub =
  startsWith s sub || match s with
                      | EmptyString => false
                      | String _ s' => includes s' sub
                      end.
Proof. destruct s; reflexivity. Qed.

Lemma includes_app (pre sub post : string) : includes (pre +:+ sub +:+ post) sub = true.
Proof.
  induction pre as [|c pre IH].
  - rewrite app_empty_l, includes_unfold. unfold startsWith.
    rewrite strip_prefix_app. reflexivity.
  - rewrite app_cons, includes_unfold, IH. apply orb_true_r.
Qed.

Lemma trim_truthy (s : string) : truthy (trim s) = negb (all_space s).
Proof.
  unfold trim. induction s as [|c s IH]; [reflexivity|].
  cbn [trim_start all_space]. destruct (is_js_space c) eqn:Hc; [exact IH|].
  cbn [trim_end andb negb]. destruct (trim_end s); [rewrite Hc|]; reflexivity.
Qed.

Lemma all_space_app_letter (pre post : string) :
  all_space (pre +:+ String "l" post) = false.
Proof.
  induction pre as [|c pre IH]; [reflexivity|]. rewrite app_cons. cbn [all_space].
  rewrite IH. apply andb_false_r.
Qed.

(** The form never holds back a URL that the API would accept: a text
    in which [extractListPath] finds a list path passes both tests of the
    form, so the step taken is a cache hit or a request to the API. *)
Theorem form_admits_what_api_accepts (url : string) (cache : ListCache) :
  extractListPath url ≠ None →
  passesForm url = true ∧ ∀ message, fetchListStep url cache ≠ Refuse message.
Proof.
  intros Hpath.
  assert (Hocc : ∃ pre owner name post,
            url = pre +:+ "letterboxd.com/" +:+ owner +:+ "/list/" +:+ name +:+ post).
  { unfold extractListPath in Hpath.
    destruct (list_match url) as [[owner name]|] eqn:Hm; [|congruence].
    apply list_match_first in Hm as (pre & rest & -> & Hhere & _).
    apply list_match_here_iff in Hhere as (post & (Hrest & _) & _).
    rewrite app_empty_l in Hrest. subst rest. eauto. }
  destruct Hocc as (pre & owner & name & post & ->).
  assert (Hform : passesForm (pre +:+ "letterboxd.com/" +:+ owner +:+ "/list/" +:+ name +:+ post)
                  = true).
  { unfold passesForm. rewrite trim_truthy.
    change ("letterboxd.com/" +:+ owner +:+ "/list/" +:+ name +:+ post)
      with (String "l" ("etterboxd.com/" +:+ owner +:+ "/list/" +:+ name +:+ post)).
    rewrite all_space_app_letter. cbn [negb andb].
    change (String "l" ("etterboxd.com/" +:+ owner +:+ "/list/" +:+ name +:+ post))
      with ("letterboxd.com" +:+ "/" +:+ owner +:+ "/list/" +:+ name +:+ post).
    rewrite includes_app. cbn [andb].
    replace (pre +:+ "letterboxd.com" +:+ "/" +:+ owner +:+ "/list/" +:+ name +:+ post)
      with ((pre +:+ "letterboxd.com/" +:+ owner) +:+ "/list/" +:+ name +:+ post)
      by (rewrite !app_assoc_str; reflexivity).
    apply includes_app. }
  split; [exact Hform|].
  intros message. unfold fetchListStep. unfold passesForm in Hform.
  apply andb_true_iff in Hform as [Hform Hl]. apply andb_true_iff in Hform as [Ht Hd].
  rewrite Ht, Hd, Hl. cbn [negb orb].
  destruct (_ && _); discriminate.
Qed.

Lemma form_admits_what_api_accepts_witness :
  fetchListStep "https://letterboxd.com/alice/list/favorites/" emptyCache
  = AskApi "/api/fetch-list?url=https%3A%2F%2Fletterboxd.com%2Falice%2Flist%2Ffavorites%2F".
Proof.
  pose proof (form_admits_what_api_accepts
                "https://letterboxd.com/alice/list/favorites/" emptyCache
                ltac:(discriminate)) as [_ Hstep].
  destruct (fetchListStep "https://letterboxd.com/alice/list/favorites/" emptyCache)
    as [m|fs|r] eqn:E.
  - exfalso. exact (Hstep m eq_refl).
  - vm_compute in E. discriminate.
  - vm_compute in E. rewrite <- E. reflexivity.
Defined.

(** The cache is written only by an answer that brings films, and what
    it then holds is served, without a request, to every later input that
    passes the form and has the same key. *)
Theorem cache_serves_same_key url answer cache url' :
  passesForm url' = true →
  normalizeUrl url' = normalizeUrl url →
  match fetchListReceive url answer cache with
  | (inr films, cache') => films ≠ [] ∧ fetchListStep url' cache' = FromCache films
  | (inl _, cache') => cache' = cache
  end.
Proof.
  intros Hform Hkey. unfold fetchListReceive.
  destruct (status_ok (status answer)); cbn [negb]; [|reflexivity].
  destruct (body answer) as [error|films]; [reflexivity|].
  destruct films as [|f films]; [reflexivity|]. cbn [length Nat.eqb].
  split; [discriminate|].
  unfold fetchListStep. unfold passesForm in Hform.
  apply andb_true_iff in Hform as [Hform Hl]. apply andb_true_iff in Hform as [Ht Hd].
  rewrite Ht, Hd, Hl. cbn [negb orb cache_url cache_films length].
  rewrite Hkey, String.eqb_refl. reflexivity.
Qed.

Lemma cache_serves_same_key_witness :
  fetchListStep "  HTTPS://LETTERBOXD.COM/alice/list/favorites " 
    (fetchListReceive "https://letterboxd.com/alice/list/favorites/"
       {| status := 200; body := FilmsBody [heat; ran] |} emptyCache).2
  = Refuse "Please enter a valid Letterboxd list URL" ∧
  fetchListStep "https://letterboxd.com/ALICE/list/favorites"
    (fetchListReceive "https://letterboxd.com/alice/list/favorites/"
       {| status := 200; body := FilmsBody [heat; ran] |} emptyCache).2
  = FromCache [heat; ran].
Proof.
  split; [reflexivity|].
  exact (proj2 (cache_serves_same_key "https://letterboxd.com/alice/list/favorites/"
                  {| status := 200; body := FilmsBody [heat; ran] |} emptyCache
                  "https://letterboxd.com/ALICE/list/favorites" eq_refl eq_refl)).
Defined.

(** ** The movie-details API on a request *)

(** The title holds the code unit 233, e acute. *)
Example searchUrl_with_year :
  MovieDetails.searchUrl
    ("L" +:+ String (ascii_of_nat 233) "on: The Professional  (1994) ")
  = "https://api.themoviedb.org/3/search/movie?query=L%C3%A9on%3A%20The%20Professional&year=1994".
Proof. vm_compute. reflexivity. Qed.

Example searchUrl_without_year :
  MovieDetails.searchUrl "2001: A Space Odyssey"
  = "https://api.themoviedb.org/3/search/movie?query=2001%3A%20A%20Space%20Odyssey".
Proof. vm_compute. reflexivity. Qed.

(** ** Percent-encoding *)

Lemma encode_unit_safe (c : ascii) : string_forall url_safe (encode_unit c) = true.
Proof. destruct c as [[] [] [] [] [] [] [] []]; vm_compute; reflexivity. Qed.

Lemma string_forall_app (p : ascii → bool) (a b : string) :
  string_forall p (a +:+ b) = string_forall p a && string_forall p b.
Proof.
  induction a as [|c a IH]; [reflexivity|]. rewrite app_cons. cbn [string_forall].
  rewrite IH. apply andb_assoc.
Qed.

Lemma string_forall_excludes (p : ascii → bool) (s : string) (c : ascii) :
  string_forall p s = true → p c = false → includes s (String c "") = false.
Proof.
  intros Hs Hc. induction s as [|d s IH]; [reflexivity|].
  cbn [string_forall] in Hs. apply andb_true_iff in Hs as [Hd Hs].
  rewrite includes_unfold, (IH Hs), orb_false_r.
  unfold startsWith. cbn [strip_prefix].
  destruct (Ascii.eqb c d) eqn:E; [|reflexivity].
  apply Ascii.eqb_eq in E. subst d. congruence.
Qed.

(** Whatever the text, [encodeURIComponent] gives letters, digits, the
    marks [- _ . ! ~ * ' ( )] and percent signs only: the value it puts
    in a query string holds no [&], [=], [?], [#], [/], [+] or space that
    could end it or start another parameter. *)
Theorem encodeURIComponent_alphabet (s : string) :
  string_forall url_safe (encodeURIComponent s) = true ∧
  Forall (fun c => includes (encodeURIComponent s) (String c "") = false)
         ["&"; "="; "?"; "#"; "/"; "+"; " "]%char.
Proof.
  assert (Hsafe : string_forall url_safe (encodeURIComponent s) = true).
  { induction s as [|c s IH]; [reflexivity|]. cbn [encodeURIComponent].
    rewrite string_forall_app, encode_unit_safe, IH. reflexivity. }
  split; [exact Hsafe|].
  repeat constructor; apply (string_forall_excludes url_safe); try exact Hsafe; reflexivity.
Qed.

(** ** Titles with a year *)

Lemma all_space_app_bracket (x z : string) : all_space (x +:+ String "(" z) = false.
Proof.
  induction x as [|c x IH]; [reflexivity|]. rewrite app_cons. cbn [all_space].
  rewrite IH. apply andb_false_r.
Qed.

Lemma year_here_alone (y : string) :
  four_digits y = true → year_here ("(" +:+ y +:+ ")") = Some y.
Proof.
  destruct y as [|d1 [|d2 [|d3 [|d4 [|d5 y]]]]]; try discriminate.
  cbn [four_digits]. intros Hd. unfold year_here.
  rewrite !app_cons, app_empty_l.
  cbn [Ascii.eqb Bool.eqb all_space andb]. rewrite Hd. reflexivity.
Qed.

Lemma year_here_before (c : ascii) (rest y : string) :
  year_here (String c (rest +:+ " (" +:+ y +:+ ")")) = None.
Proof.
  unfold year_here.
  destruct rest as [|a1 [|a2 [|a3 [|a4 [|a5 rest]]]]];
    rewrite ?app_cons, ?app_empty_l.
  - change (" (" +:+ y +:+ ")") with (String " " (String "(" (y +:+ ")"))).
    destruct (y +:+ ")") as [|y1 [|y2 [|y3 t]]]; try reflexivity.
    change (is_digit " ") with false. rewrite ?andb_false_r. reflexivity.
  - change (" (" +:+ y +:+ ")") with (String " " (String "(" (y +:+ ")"))).
    destruct (y +:+ ")") as [|y1 [|y2 t]]; try reflexivity.
    change (is_digit " ") with false. rewrite ?andb_false_r. reflexivity.
  - change (" (" +:+ y +:+ ")") with (String " " (String "(" (y +:+ ")"))).
    destruct (y +:+ ")") as [|y1 t]; try reflexivity.
    change (is_digit " ") with false. rewrite ?andb_false_r. reflexivity.
  - change (" (" +:+ y +:+ ")") with (String " " (String "(" (y +:+ ")"))).
    change (is_digit " ") with false. rewrite ?andb_false_r. reflexivity.
  - change (" (" +:+ y +:+ ")") with (String " " (String "(" (y +:+ ")"))).
    change (Ascii.eqb " " ")") with false. rewrite ?andb_false_r. cbn [andb].
    reflexivity.
  - change (" (" +:+ y +:+ ")") with (String " " (String "(" (y +:+ ")"))).
    replace (rest +:+ String " " (String "(" (y +:+ ")")))
      with ((rest +:+ " ") +:+ String "(" (y +:+ ")"))
      by (rewrite app_assoc_str; reflexivity).
    rewrite all_space_app_bracket, !andb_false_r. reflexivity.
Qed.

Lemma year_suffix_here_tail (name y : string) :
  four_digits y = true →
  year_suffix_here (name +:+ " (" +:+ y +:+ ")") = all_space name.
Proof.
  intros Hy. unfold year_suffix_here. induction name as [|c name IH].
  - rewrite app_empty_l.
    change (trim_start (" (" +:+ y +:+ ")")) with ("(" +:+ y +:+ ")").
    rewrite (year_here_alone y Hy). reflexivity.
  - rewrite app_cons. cbn [trim_start all_space].
    destruct (is_js_space c); [exact IH|].
    rewrite year_here_before. reflexivity.
Qed.

Lemma trim_end_empty_all_space (s : string) : trim_end s = "" → all_space s = true.
Proof.
  induction s as [|c s IH]; [reflexivity|]. cbn [trim_end all_space].
  destruct (trim_end s) as [|d t]; [|discriminate].
  destruct (is_js_space c); [intros _; apply IH; reflexivity|discriminate].
Qed.

Lemma strip_year_tail (name y : string) :
  four_digits y = true → strip_year (name +:+ " (" +:+ y +:+ ")") = trim_end name.
Proof.
  intros Hy. induction name as [|c name IH].
  - rewrite app_empty_l.
    assert (Hs : year_suffix_here (" (" +:+ y +:+ ")") = true).
    { rewrite <- (app_empty_l (" (" +:+ y +:+ ")")), (year_suffix_here_tail "" y Hy).
      reflexivity. }
    destruct (" (" +:+ y +:+ ")"); cbn [strip_year]; rewrite Hs; reflexivity.
  - pose proof (year_suffix_here_tail (String c name) y Hy) as Hs.
    rewrite app_cons in Hs |- *. cbn [strip_year]. rewrite Hs, IH.
    destruct (all_space (String c name)) eqn:Hsp.
    + symmetry. apply all_space_trim_end. exact Hsp.
    + cbn [trim_end]. destruct (trim_end name) as [|d t] eqn:Ht; [|reflexivity].
      apply trim_end_empty_all_space in Ht. cbn [all_space] in Hsp. rewrite Ht in Hsp.
      rewrite andb_true_r in Hsp. rewrite Hsp. reflexivity.
Qed.

Lemma year_match_tail (name y : string) :
  four_digits y = true → year_match (name +:+ " (" +:+ y +:+ ")") = Some y.
Proof.
  intros Hy. induction name as [|c name IH].
  - rewrite app_empty_l.
    change (" (" +:+ y +:+ ")") with (String " " ("" +:+ "(" +:+ y +:+ ")")).
    cbn [year_match].
    assert (Hfirst : year_here (String " " ("" +:+ "(" +:+ y +:+ ")")) = None).
    { unfold year_here. rewrite app_empty_l.
      destruct ("(" +:+ y +:+ ")") as [|a1 [|a2 [|a3 [|a4 [|a5 t]]]]]; reflexivity. }
    rewrite Hfirst, app_empty_l.
    pose proof (year_here_alone y Hy) as Hh.
    destruct ("(" +:+ y +:+ ")"); cbn [year_match]; rewrite Hh; reflexivity.
  - rewrite app_cons. cbn [year_match]. rewrite year_here_before. exact IH.
Qed.

Lemma trim_start_trim_end (s : string) : trim_start (trim_end s) = trim_end (trim_start s).
Proof.
  induction s as [|c s IH]; [reflexivity|]. cbn [trim_start trim_end].
  destruct (is_js_space c) eqn:Hc.
  - rewrite <- IH. destruct (trim_end s) as [|d t]; [reflexivity|].
    cbn [trim_start]. rewrite Hc. reflexivity.
  - cbn [trim_end]. destruct (trim_end s) as [|d t]; rewrite ?Hc; cbn [trim_start];
      rewrite Hc; reflexivity.
Qed.

Lemma trim_end_twice (s : string) : trim_end (trim_end s) = trim_end s.
Proof.
  induction s as [|c s IH]; [reflexivity|]. cbn [trim_end].
  destruct (trim_end s) as [|d t] eqn:E.
  - destruct (is_js_space c) eqn:Hc; [reflexivity|]. cbn [trim_end]. rewrite Hc. reflexivity.
  - cbn [trim_end] in IH |- *. rewrite IH. reflexivity.
Qed.

(** A feed film with a four-digit year gets that year put in brackets
    after its title, and the movie-details API takes the title apart
    again: the search it sends asks for the title as the feed had it,
    blanks at its ends aside, and for that year. *)
Theorem feed_title_gives_search (item : RssItem) :
  let name := js_or (item_filmTitle item) (js_or (item_title item) "") in
  let f := rssItemFilm item in
  four_digits (year f) = true →
  title f = name +:+ " (" +:+ year f +:+ ")" ∧
  year_match (title f) = Some (year f) ∧
  trim (strip_year (title f)) = trim name ∧
  MovieDetails.searchUrl (title f)
  = "https://api.themoviedb.org/3/search/movie?query="
    +:+ encodeURIComponent (trim name) +:+ "&year=" +:+ year f.
Proof.
  cbv zeta. unfold rssItemFilm. cbn [title year].
  set (name := js_or (item_filmTitle item) (js_or (item_title item) "")).
  set (y := js_or (item_filmYear item) "").
  intros Hy.
  assert (Hty : truthy y = true) by (destruct y; [discriminate|reflexivity]).
  rewrite Hty.
  assert (Htrim : trim (strip_year (name +:+ " (" +:+ y +:+ ")")) = trim name).
  { rewrite (strip_year_tail name y Hy). unfold trim.
    rewrite trim_start_trim_end, trim_end_twice. reflexivity. }
  split; [reflexivity|]. split; [exact (year_match_tail name y Hy)|].
  split; [exact Htrim|].
  unfold MovieDetails.searchUrl. cbv zeta.
  rewrite (year_match_tail name y Hy), Hty, Htrim.
  unfold MovieDetails.TMDB_BASE. rewrite !app_assoc_str. reflexivity.
Qed.

Lemma feed_title_gives_search_witness :
  MovieDetails.searchUrl (title (rssItemFilm
    {| item_link := Some "https://letterboxd.com/film/alien/";
       item_filmTitle := Some " Alien "; item_title := None;
       item_filmYear := Some "1979" |}))
  = "https://api.themoviedb.org/3/search/movie?query=Alien&year=1979".
Proof.
  exact (proj2 (proj2 (proj2 (feed_title_gives_search
    {| item_link := Some "https://letterboxd.com/film/alien/";
       item_filmTitle := Some " Alien "; item_title := None;
       item_filmYear := Some "1979" |} eq_refl)))).
Defined.

(** ** What the movie-details handler answers *)


(** ** Rating colours *)

Example rating_classes :
  getRatingColorClass 4.2 = "rating-excellent" ∧
  getRatingColorClass 4.1 = "rating-great" ∧
  getRatingColorClass 0 = "rating-poor" ∧
  getRatingColorClass nan = "rating-poor" ∧
  getTmdbRatingColorClass 8.4 = "rating-excellent" ∧
  getTmdbRatingColorClass 6.9 = "rating-good".
Proof. vm_compute. repeat split; reflexivity. Qed.

Lemma SFleb_trans (a b c : spec_float) :
  SFleb a b = true → SFleb b c = true → SFleb a c = true.
Proof.
  unfold SFleb, SFcompare.
  destruct a as [sa|sa| |sa ma ea], b as [sb|sb| |sb mb eb], c as [sc|sc| |sc mc ec];
    try discriminate; try reflexivity;
    try (destruct sa, sb, sc; cbn; congruence).
  change (Pos.compare_cont Eq ma mb) with (Pos.compare ma mb).
  change (Pos.compare_cont Eq mb mc) with (Pos.compare mb mc).
  change (Pos.compare_cont Eq ma mc) with (Pos.compare ma mc).
  destruct sa, sb, sc; try discriminate; try reflexivity;
    destruct (Z.compare_spec ea eb), (Z.compare_spec eb ec);
    destruct (Pos.compare_spec ma mb), (Pos.compare_spec mb mc);
    cbn; try discriminate; intros _ _;
    destruct (Z.compare_spec ea ec); destruct (Pos.compare_spec ma mc);
    cbn; try reflexivity; lia.
Qed.

Lemma float_leb_trans (a b c : float) :
  (a <=? b)%float = true → (b <=? c)%float = true → (a <=? c)%float = true.
Proof. rewrite !leb_spec. apply SFleb_trans. Qed.

(** A higher rating never gets a worse colour: the class of a rating is
    at least as good as the class of any rating below it. *)
Theorem rating_colour_is_monotone (r1 r2 : float) :
  (r1 <=? r2)%float = true →
  (classRank (getRatingColorClass r1) ≤ classRank (getRatingColorClass r2))%nat.
Proof.
  intros Hle. unfold getRatingColorClass.
  assert (Hup : ∀ c, (c <=? r1)%float = true → (c <=? r2)%float = true).
  { intros c Hc. exact (float_leb_trans c r1 r2 Hc Hle). }
  destruct (4.2 <=? r1)%float eqn:E1; [rewrite (Hup _ E1); reflexivity|].
  destruct (3.5 <=? r1)%float eqn:E2.
  { rewrite (Hup _ E2). destruct (4.2 <=? r2)%float; cbn; lia. }
  destruct (2.5 <=? r1)%float eqn:E3.
  { rewrite (Hup _ E3). destruct (4.2 <=? r2)%float, (3.5 <=? r2)%float; cbn; lia. }
  destruct (1.8 <=? r1)%float eqn:E4.
  { rewrite (Hup _ E4).
    destruct (4.2 <=? r2)%float, (3.5 <=? r2)%float, (2.5 <=? r2)%float; cbn; lia. }
  cbn. lia.
Qed.

Lemma rating_colour_is_monotone_witness :
  (classRank (getRatingColorClass 3.4) ≤ classRank (getRatingColorClass 3.9))%nat.
Proof. exact (rating_colour_is_monotone 3.4 3.9 eq_refl). Defined.

(** ** The order of the pages *)

Lemma append_inv_head (a s t : string) : a +:+ s = a +:+ t → s = t.
Proof.
  induction a as [|c a IH]; [rewrite !app_empty_l; auto|].
  rewrite !app_cons. intros [= E]. exact (IH E).
Qed.

Lemma length_append (s t : string) :
  String.length (s +:+ t) = (String.length s + String.length t)%nat.
Proof.
  induction s as [|c s IH]; [rewrite app_empty_l; reflexivity|].
  rewrite app_cons. cbn [String.length]. rewrite IH. reflexivity.
Qed.

Lemma append_inv_tail (t s1 s2 : string) : s1 +:+ t = s2 +:+ t → s1 = s2.
Proof.
  revert s2. induction s1 as [|c s1 IH]; intros [|d s2] E.
  - reflexivity.
  - apply (f_equal String.length) in E. rewrite !length_append in E.
    cbn [String.length] in E. lia.
  - apply (f_equal String.length) in E. rewrite !length_append in E.
    cbn [String.length] in E. lia.
  - rewrite !app_cons in E. injection E as -> E. f_equal. exact (IH _ E).
Qed.

Lemma decimal_inj (n m : nat) : decimal n = decimal m → n = m.
Proof.
  assert (Hnn : ∀ k, Nat.to_uint k ≠ Decimal.Nil).
  { intros k. rewrite <- (DecimalNat.Unsigned.of_to k) at 1.
    rewrite DecimalNat.Unsigned.to_of. apply DecimalFacts.unorm_nonnil. }
  unfold decimal. intros E.
  apply DecimalNat.Unsigned.to_uint_inj.
  apply (f_equal DecimalString.NilZero.uint_of_string) in E.
  rewrite !DecimalString.NilZero.usu in E by apply Hnn.
  congruence.
Qed.

Lemma pageUrl_inj (listPath : string) (p q : nat) :
  pageUrl listPath p = pageUrl listPath q → p = q.
Proof.
  unfold pageUrl.
  destruct (p =? 1)%nat eqn:Ep; destruct (q =? 1)%nat eqn:Eq; intros E.
  - apply Nat.eqb_eq in Ep, Eq. congruence.
  - apply append_inv_head, append_inv_head in E.
    rewrite !app_cons in E. discriminate.
  - apply append_inv_head, append_inv_head in E.
    rewrite !app_cons in E. discriminate.
  - apply append_inv_head, append_inv_head, append_inv_head, append_inv_tail in E.
    exact (decimal_inj _ _ E).
Qed.

Lemma climbs_again (p n : nat) (ps : list nat) :
  climbs p ps = true → climbs p (replicate n p ++ ps) = true.
Proof.
  intros Hps. induction n as [|n IH]; [exact Hps|].
  cbn [replicate app climbs]. rewrite Nat.eqb_refl, IH. reflexivity.
Qed.

Lemma ascends_climbs (p p' : nat) (ps : list nat) :
  p' = p ∨ p' = S p → ascends p' ps = true → climbs p ps = true.
Proof.
  intros Hp. destruct ps as [|q r]; [reflexivity|].
  cbn [ascends climbs]. intros E.
  apply andb_true_iff in E as [Eq E]. apply andb_true_iff in E as [_ E].
  apply Nat.eqb_eq in Eq. subst q. rewrite E.
  destruct Hp as [->| ->]; rewrite Nat.eqb_refl, ?orb_true_r; reflexivity.
Qed.

Lemma ascends_turn (p p' n : nat) (ps : list nat) :
  p' = p ∨ p' = S p → ascends p' ps = true →
  ascends p (replicate (S n) p ++ ps) = true.
Proof.
  intros Hp Hps. pose proof (ascends_climbs p p' ps Hp Hps) as Hc.
  change (replicate (S n) p ++ ps) with (p :: (replicate n p ++ ps)).
  cbn [ascends]. rewrite Nat.eqb_refl.
  exact (climbs_again p (S n) ps Hc).
Qed.

Section WalkOrder.
Context `{Collaborators}.

Lemma scrapeTurn_asks listPath w env :
  ∃ evs n,
    trace (scrapeTurn listPath w env).2 = trace env ++ evs ∧
    fetchUrls evs = replicate (S n) (pageUrl listPath (page w)) ∧
    ∀ w', (scrapeTurn listPath w env).1 = Normal (Again w') →
          page w' = page w ∨ page w' = S (page w).
Proof.
  assert (Hfail : ∀ v w', pageFailed v = Again w' → page w' = page v).
  { intros v w'. unfold pageFailed. destruct (page v =? 1)%nat; [discriminate|].
    intros [= <-]. reflexivity. }
  rewrite scrapeTurn_eq.
  destruct (fetchWithRetry_calls (pageUrl listPath (page w)) pageHeaders env)
    as (evs & n & Htr & Hn & Hurls & _).
  destruct n as [|n]; [lia|].
  destruct (fetchWithRetry (pageUrl listPath (page w)) pageHeaders env)
    as [[[r|]|e|] env1]; cbn [snd] in Htr.
  2-4: exists evs, n; cbn [fst snd]; split; [exact Htr|]; split; [exact Hurls|];
       intros w' [= Hw']; try discriminate; left; exact (Hfail _ _ Hw').
  destruct (ok r).
  - destruct (text r) as [html|e].
    + exists (evs ++ [EvCheerio html]), n. cbn [fst snd loaded trace].
      split; [rewrite Htr, app_assoc; reflexivity|].
      split; [rewrite fetchUrls_app, app_nil_r; exact Hurls|].
      intros w'. unfold scrapePage.
      destruct (length (li_posteritem (cheerio_load html)) =? 0)%nat; [discriminate|].
      cbn [films page hasMore consecutiveFailures failuresReset].
      intros [= <-]. cbn [page].
      destruct (hasNextPage (cheerio_load html)); [right|left]; reflexivity.
    + exists evs, n. cbn [fst snd]. split; [exact Htr|]. split; [exact Hurls|].
      intros w' [= Hw']. left. exact (Hfail _ _ Hw').
  - exists evs, n. cbn [fst snd]. split; [exact Htr|]. split; [exact Hurls|].
    intros w' [= Hw']. left. exact (Hfail _ _ Hw').
Qed.

Lemma scrapeLoop_asks listPath :
  ∀ fuel w env,
    ∃ evs ps,
      trace (scrapeLoop fuel listPath w env).2 = trace env ++ evs ∧
      fetchUrls evs = map (pageUrl listPath) ps ∧
      ascends (page w) ps = true ∧
      (loopCondition w = true → fuel ≠ 0%nat → ps ≠ []).
Proof.
  induction fuel as [|fuel IH]; intros w env.
  - exists [], []. cbn [scrapeLoop].
    destruct (loopCondition w); cbn [snd ret]; rewrite app_nil_r;
      (split; [reflexivity|]; split; [reflexivity|]; split; [reflexivity|]);
      intros _ Hf; contradiction.
  - destruct (loopCondition w) eqn:Hc.
    2:{ rewrite (scrapeLoop_done _ _ _ _ Hc).
        exists [], []. rewrite app_nil_r. cbn.
        split; [reflexivity|]. split; [reflexivity|]. split; [reflexivity|].
        discriminate. }
    rewrite (scrapeLoop_turn _ _ _ _ Hc).
    destruct (scrapeTurn_asks listPath w env) as (evs & n & Htr & Hurls & Hpage).
    assert (Hone : fetchUrls evs = map (pageUrl listPath) (replicate (S n) (page w))).
    { rewrite Hurls. clear. induction (S n) as [|k IH]; [reflexivity|].
      cbn [replicate map]. rewrite IH. reflexivity. }
    assert (Hasc : ascends (page w) (replicate (S n) (page w)) = true).
    { rewrite <- (app_nil_r (replicate (S n) (page w))).
      apply (ascends_turn (page w) (page w) n []); [left; reflexivity|reflexivity]. }
    destruct (scrapeTurn listPath w env) as [[[w1|w1]|e|] env1] eqn:Ht;
      cbn [fst snd] in *.
    1,3,4: exists evs, (replicate (S n) (page w)); split; [exact Htr|];
           split; [exact Hone|]; split; [exact Hasc|]; intros _ _; discriminate.
    destruct (IH w1 env1) as (evs1 & ps1 & Htr1 & Hurls1 & Hasc1 & _).
    exists (evs ++ evs1), (replicate (S n) (page w) ++ ps1).
    split; [rewrite Htr1, Htr, app_assoc; reflexivity|].
    split; [rewrite fetchUrls_app, map_app, Hone, Hurls1; reflexivity|].
    split; [exact (ascends_turn _ _ n ps1 (Hpage w1 eq_refl) Hasc1)|].
    intros _ _. discriminate.
Qed.

(** The walker asks for the pages in order: the addresses it requests
    are those of a run of page numbers that starts at 1 and in which
    each number is the one before it or the next one; it makes at least
    one request; and within a list two pages never share an address, so
    that no page is asked for again once a later one has been. *)
Theorem walk_asks_pages_in_order fuel listPath env :
  ∃ evs ps,
    trace (scrapeAllPages (S fuel) listPath env).2 = trace env ++ evs ∧
    fetchUrls evs = map (pageUrl listPath) ps ∧
    ascends 1 ps = true ∧
    ps ≠ [] ∧
    ∀ p q, pageUrl listPath p = pageUrl listPath q → p = q.
Proof.
  destruct (scrapeLoop_asks listPath (S fuel) initialWalk env)
    as (evs & ps & Htr & Hurls & Hasc & Hne).
  exists evs, ps. unfold scrapeAllPages, bind.
  destruct (scrapeLoop (S fuel) listPath initialWalk env) as [[w|e|] env'];
    cbn [fst snd] in *;
    (split; [exact Htr|]; split; [exact Hurls|]; split; [exact Hasc|];
     split; [apply Hne; [reflexivity|discriminate]|apply pageUrl_inj]).
Qed.
End WalkOrder.

(** ** Code under way, run alone *)

Section Agreement.
Context `{Collaborators}.

Lemma agrees_ret {A} (a : A) : agrees (Async.ret a) (ret a).
Proof. intros env. reflexivity. Qed.

Lemma agrees_throw {A} (e : Thrown) : agrees (@Async.throw A e) (throw e).
Proof. intros env. reflexivity. Qed.

Lemma agrees_bind {A B} (p : Prog A) (m : M A) (k : A → Prog B) (k' : A → M B) :
  agrees p m → (∀ a, agrees (k a) (k' a)) → agrees (Async.bind p k) (bind m k').
Proof.
  intros Hp Hk env. unfold bind. rewrite <- Hp. clear Hp m.
  revert env. induction p as [c|url options q IH|ms q IH|html q IH|xml q IH]; intros env.
  - destruct c as [a| |]; cbn [Async.bind run]; [apply Hk|reflexivity|reflexivity].
  - cbn [Async.bind run].
    destruct (net_fetch url options (world env)) as [o w]. apply IH.
  - cbn [Async.bind run]. apply IH.
  - cbn [Async.bind run]. apply IH.
  - cbn [Async.bind run]. apply IH.
Qed.

Lemma agrees_tryCatch {A} (p : Prog A) (m : M A) (h : Thrown → Prog A) (h' : Thrown → M A) :
  agrees p m → (∀ e, agrees (h e) (h' e)) → agrees (Async.tryCatch p h) (tryCatch m h').
Proof.
  intros Hp Hh env. unfold tryCatch. rewrite <- Hp. clear Hp m.
  revert env. induction p as [c|url options q IH|ms q IH|html q IH|xml q IH]; intros env.
  - destruct c as [a|e|]; cbn [Async.tryCatch run]; [reflexivity|apply Hh|reflexivity].
  - cbn [Async.tryCatch run].
    destruct (net_fetch url options (world env)) as [o w]. apply IH.
  - cbn [Async.tryCatch run]. apply IH.
  - cbn [Async.tryCatch run]. apply IH.
  - cbn [Async.tryCatch run]. apply IH.
Qed.

Lemma agrees_attempt {A} (p : Prog A) (m : M A) :
  agrees p m → agrees (Async.attempt p) (attempt m).
Proof.
  intros Hp. unfold Async.attempt, attempt.
  apply agrees_tryCatch; [|intros e; apply agrees_ret].
  apply agrees_bind; [exact Hp|intros a; apply agrees_ret].
Qed.

Lemma agrees_awaitSettled {A} (s : Settled A) :
  agrees (Async.awaitSettled s) (awaitSettled s).
Proof. destruct s; intros env; reflexivity. Qed.

Lemma agrees_fetch url options : agrees (Async.fetch url options) (fetch url options).
Proof.
  intros env. unfold Async.fetch, fetch. cbn [run].
  destruct (net_fetch url options (world env)) as [o w].
  apply agrees_awaitSettled.
Qed.

Lemma agrees_sleep ms : agrees (Async.sleep ms) (sleep ms).
Proof. intros env. reflexivity. Qed.

Lemma agrees_cheerioLoad html : agrees (Async.cheerioLoad html) (cheerioLoad html).
Proof. intros env. reflexivity. Qed.

Lemma agrees_parseStringPromise xml :
  agrees (Async.parseStringPromise xml) (parseStringPromise xml).
Proof.
  intros env. unfold Async.parseStringPromise, parseStringPromise. cbn [run].
  apply agrees_awaitSettled.
Qed.

Lemma agrees_retryTurn url options retries i :
  agrees (Async.retryTurn url options retries i) (retryTurn url options retries i).
Proof.
  unfold Async.retryTurn, retryTurn. apply agrees_tryCatch.
  - apply agrees_bind; [apply agrees_fetch|]. intros response.
    destruct (ok response); [apply agrees_ret|].
    apply agrees_bind; [|intros _; apply agrees_ret].
    destruct (i <? retries)%nat; [apply agrees_sleep|apply agrees_ret].
  - intros e. destruct (i =? retries)%nat; [apply agrees_throw|].
    apply agrees_bind; [apply agrees_sleep|intros _; apply agrees_ret].
Qed.

Lemma agrees_retryLoop url options retries :
  ∀ turns i, agrees (Async.retryLoop turns url options retries i)
                    (retryLoop turns url options retries i).
Proof.
  induction turns as [|turns IH]; intros i; cbn [Async.retryLoop retryLoop].
  - apply agrees_ret.
  - apply agrees_bind; [apply agrees_retryTurn|].
    intros [result|]; [apply agrees_ret|apply IH].
Qed.

Lemma agrees_fetchWithRetry url options :
  agrees (Async.fetchWithRetry url options) (fetchWithRetry url options).
Proof. apply agrees_retryLoop. Qed.

Lemma agrees_tryRssFeed listPath :
  agrees (Async.tryRssFeed listPath) (tryRssFeed listPath).
Proof.
  unfold Async.tryRssFeed, tryRssFeed.
  apply agrees_tryCatch; [|intros e; apply agrees_ret]. cbv zeta.
  apply agrees_bind; [apply agrees_fetchWithRetry|].
  intros [response|]; [|apply agrees_ret].
  destruct (negb (ok response)); [apply agrees_ret|].
  apply agrees_bind; [apply agrees_awaitSettled|]. intros text.
  destruct (negb (startsWith (trim text) "<?xml") && negb (startsWith (trim text) "<rss"));
    [apply agrees_ret|].
  apply agrees_bind; [apply agrees_parseStringPromise|].
  intros [items|]; apply agrees_ret.
Qed.

Lemma agrees_scrapeTurn listPath w :
  agrees (Async.scrapeTurn listPath w) (scrapeTurn listPath w).
Proof.
  unfold Async.scrapeTurn, scrapeTurn.
  apply agrees_bind; [apply agrees_attempt, agrees_fetchWithRetry|].
  intros [e|[response|]]; try apply agrees_ret.
  destruct (negb (ok response)); [apply agrees_ret|]. cbv zeta.
  apply agrees_bind; [apply agrees_attempt, agrees_awaitSettled|].
  intros [e|html]; [apply agrees_ret|].
  apply agrees_bind; [apply agrees_cheerioLoad|intros doc; apply agrees_ret].
Qed.

Lemma agrees_scrapeLoop listPath :
  ∀ fuel w, agrees (Async.scrapeLoop fuel listPath w) (scrapeLoop fuel listPath w).
Proof.
  induction fuel as [|fuel IH]; intros w; cbn [Async.scrapeLoop scrapeLoop];
    (destruct (loopCondition w); [|apply agrees_ret]).
  - intros env. reflexivity.
  - apply agrees_bind; [apply agrees_scrapeTurn|].
    intros [w'|w']; [apply agrees_ret|apply IH].
Qed.

Lemma agrees_scrapeAllPages fuel listPath :
  agrees (Async.scrapeAllPages fuel listPath) (scrapeAllPages fuel listPath).
Proof.
  unfold Async.scrapeAllPages, scrapeAllPages.
  apply agrees_bind; [apply agrees_scrapeLoop|intros w; apply agrees_ret].
Qed.
End Agreement.

(** ** What each source leaves in the trace *)

Section Reads.
Context `{Collaborators}.

(** The feed reader returns what the one text it had parsed holds, and
    [null] when it had none parsed; it loads no HTML. *)
Lemma tryRssFeed_reads listPath env :
  ∃ evs,
    trace (tryRssFeed listPath env).2 = trace env ++ evs ∧
    (tryRssFeed listPath env).1 = Normal (feedFilms (xmlsOf evs)) ∧
    loadsOf evs = [].
Proof.
  unfold tryRssFeed, tryCatch, bind.
  set (rssUrl := "https://letterboxd.com" +:+ listPath +:+ "/rss/").
  destruct (fetchWithRetry_calls rssUrl rssHeaders env) as (evs & n & Htr & _ & _ & Hnet).
  pose proof (net_only_loads _ Hnet) as Hloads.
  pose proof (net_only_xmls _ Hnet) as Hxml.
  assert (Hquiet : ∀ env1 : Env, trace env1 = trace env ++ evs →
            ∃ evs', trace (@Normal (option (list Film)) None, env1).2 = trace env ++ evs' ∧
                    (@Normal (option (list Film)) None, env1).1
                    = Normal (feedFilms (xmlsOf evs')) ∧
                    loadsOf evs' = []).
  { intros env1 Htr1. exists evs. rewrite Hxml. done. }
  destruct (fetchWithRetry_completes rssUrl rssHeaders env) as [(r & Hr & Hok)|[Hr|(e & Hr)]];
    destruct (fetchWithRetry rssUrl rssHeaders env) as [c env1];
    cbn [fst snd] in *; subst c; cbn [ret]; try (apply Hquiet; exact Htr).
  rewrite Hok. cbn [negb]. unfold responseText.
  destruct (text r) as [body|e]; cbn [awaitSettled ret throw]; [|apply Hquiet; exact Htr].
  destruct (negb (startsWith (trim body) "<?xml") && negb (startsWith (trim body) "<rss"));
    cbn [ret]; [apply Hquiet; exact Htr|].
  unfold parseStringPromise.
  exists (evs ++ [EvXml body]).
  rewrite xmlsOf_app, loadsOf_app, Hxml, Hloads. cbn [xmlsOf loadsOf flat_map app feedFilms].
  destruct (xml_parse body) as [[items|]|e]; cbn [awaitSettled ret throw fst snd trace];
    rewrite Htr, <- app_assoc; done.
Qed.

Lemma scrapeTurn_quiet listPath w env :
  ∃ evs, trace (scrapeTurn listPath w env).2 = trace env ++ evs ∧ xmlsOf evs = [].
Proof.
  rewrite scrapeTurn_eq.
  destruct (fetchWithRetry_calls (pageUrl listPath (page w)) pageHeaders env)
    as (evs & n & Htr & _ & _ & Hnet).
  pose proof (net_only_xmls _ Hnet) as Hxml.
  destruct (fetchWithRetry (pageUrl listPath (page w)) pageHeaders env)
    as [[[r|]|e|] env1]; cbn [snd] in Htr; try (exists evs; done).
  destruct (ok r); [|exists evs; done].
  destruct (text r) as [html|e]; [|exists evs; done].
  exists (evs ++ [EvCheerio html]). cbn [snd loaded trace].
  rewrite Htr, <- app_assoc, xmlsOf_app, Hxml. done.
Qed.

Lemma scrapeLoop_quiet listPath :
  ∀ fuel w env,
    ∃ evs, trace (scrapeLoop fuel listPath w env).2 = trace env ++ evs ∧ xmlsOf evs = [].
Proof.
  induction fuel as [|fuel IH]; intros w env.
  - exists []. cbn [scrapeLoop]. destruct (loopCondition w); cbn [snd ret];
      rewrite app_nil_r; done.
  - destruct (loopCondition w) eqn:Hc.
    2:{ rewrite (scrapeLoop_done _ _ _ _ Hc). exists []. rewrite app_nil_r. done. }
    rewrite (scrapeLoop_turn _ _ _ _ Hc).
    destruct (scrapeTurn_quiet listPath w env) as (evs & Htr & Hxml).
    destruct (scrapeTurn listPath w env) as [[[w1|w1]|e|] env1]; cbn [snd] in *;
      try (exists evs; done).
    destruct (IH w1 env1) as (evs1 & Htr1 & Hxml1).
    exists (evs ++ evs1). rewrite Htr1, Htr, <- app_assoc, xmlsOf_app, Hxml, Hxml1. done.
Qed.

(** The walker never throws, parses no XML, and what it returns is what
    the pages it loaded hold. *)
Lemma scrapeAllPages_reads fuel listPath env :
  ∃ evs,
    trace (scrapeAllPages fuel listPath env).2 = trace env ++ evs ∧
    xmlsOf evs = [] ∧
    (∀ e, (scrapeAllPages fuel listPath env).1 ≠ Throw e) ∧
    (∀ fs, (scrapeAllPages fuel listPath env).1 = Normal fs → fs = gathered evs).
Proof.
  destruct (scrapeLoop_quiet listPath fuel initialWalk env) as (evs & Htr & Hxml).
  destruct (scrapeLoop_gathers listPath fuel initialWalk env) as (evs' & Htr' & Hfilms).
  assert (evs' = evs) as -> by (rewrite Htr in Htr'; exact (app_inv_head _ _ _ (eq_sym Htr'))).
  pose proof (scrapeLoop_never_throws listPath fuel initialWalk env) as Hnt.
  exists evs. unfold scrapeAllPages, bind.
  destruct (scrapeLoop fuel listPath initialWalk env) as [[w|e|] env'];
    cbn [fst snd] in *; (split; [exact Htr|]; split; [exact Hxml|]).
  - split; [discriminate|]. intros fs [= <-]. exact (Hfilms w eq_refl).
  - exfalso. exact (Hnt e eq_refl).
  - split; discriminate.
Qed.
End Reads.

(** ** Two pieces of code under way *)

Lemma shuffle_only_right {E} (r : list E) : Shuffle [] r r.
Proof. induction r as [|x r IH]; constructor; exact IH. Qed.

Lemma shuffle_app {E} (l r : list E) : Shuffle l r (l ++ r).
Proof.
  induction l as [|x l IH]; cbn [app]; [apply shuffle_only_right|].
  constructor. exact IH.
Qed.

(** What only one side holds is left as it was by shuffling. *)
Lemma shuffle_flat_map_right {E F} (f : E → list F) (l r evs : list E) :
  Shuffle l r evs → flat_map f l = [] → flat_map f evs = flat_map f r.
Proof.
  induction 1 as [|x l r evs _ IH|x l r evs _ IH]; cbn [flat_map]; intros Hl.
  - reflexivity.
  - apply app_eq_nil in Hl as [Hx Hl]. rewrite Hx. cbn [app]. exact (IH Hl).
  - rewrite (IH Hl). reflexivity.
Qed.

Lemma shuffle_flat_map_left {E F} (f : E → list F) (l r evs : list E) :
  Shuffle l r evs → flat_map f r = [] → flat_map f evs = flat_map f l.
Proof.
  induction 1 as [|x l r evs _ IH|x l r evs _ IH]; cbn [flat_map]; intros Hr.
  - reflexivity.
  - rewrite (IH Hr). reflexivity.
  - apply app_eq_nil in Hr as [Hx Hr]. rewrite Hx. cbn [app]. exact (IH Hr).
Qed.

Section Paths.
Context `{Collaborators}.

(** One call of [p] made: one event more, and every way through what
    is left is a way through [p]. *)
Lemma advance_path {A} (p : Prog A) env :
  (∃ c, p = Done c) ∨
  ∃ ev,
    trace (advance p env).2 = trace env ++ [ev] ∧ Answered [ev] ∧
    ∀ evs c, Path (advance p env).1 evs c → Path p (ev :: evs) c.
Proof.
  destruct p as [c|url options k|ms k|html k|xml k]; [left; eauto|right..].
  - cbn [advance]. destruct (net_fetch url options (world env)) as [o w] eqn:Hnet.
    exists (EvFetch url o). cbn [fst snd fetched trace].
    split; [reflexivity|]. split.
    + constructor; [|constructor]. exists options, (world env). rewrite Hnet. reflexivity.
    + intros evs c Hp. constructor. exact Hp.
  - exists (EvSleep ms). cbn [advance fst snd slept trace].
    split; [reflexivity|]. split; [repeat constructor|].
    intros evs c Hp. constructor. exact Hp.
  - exists (EvCheerio html). cbn [advance fst snd loaded trace].
    split; [reflexivity|]. split; [repeat constructor|].
    intros evs c Hp. constructor. exact Hp.
  - exists (EvXml xml). cbn [advance fst snd parsed trace].
    split; [reflexivity|]. split; [repeat constructor|].
    intros evs c Hp. constructor. exact Hp.
Qed.

(** A run of [p] alone goes one way through [p]. *)
Lemma run_path {A} (p : Prog A) :
  ∀ env, ∃ evs,
    trace (run p env).2 = trace env ++ evs ∧ Answered evs ∧ Path p evs (run p env).1.
Proof.
  induction p as [c|url options k IH|ms k IH|html k IH|xml k IH]; intros env.
  - exists []. cbn [run fst snd]. rewrite app_nil_r.
    split; [reflexivity|]. split; constructor.
  - cbn [run]. destruct (net_fetch url options (world env)) as [o w] eqn:Hnet.
    destruct (IH o (fetched url o w env)) as (evs & Htr & Hans & Hp).
    exists (EvFetch url o :: evs). split; [rewrite Htr; cbn [fetched trace]; rewrite <- app_assoc; reflexivity|].
    split; [|constructor; exact Hp].
    constructor; [|exact Hans]. exists options, (world env). rewrite Hnet. reflexivity.
  - cbn [run]. destruct (IH (slept ms env)) as (evs & Htr & Hans & Hp).
    exists (EvSleep ms :: evs). split; [rewrite Htr; cbn [slept trace]; rewrite <- app_assoc; reflexivity|].
    split; [constructor; [exact I|exact Hans]|constructor; exact Hp].
  - cbn [run]. destruct (IH (loaded html env)) as (evs & Htr & Hans & Hp).
    exists (EvCheerio html :: evs). split; [rewrite Htr; cbn [loaded trace]; rewrite <- app_assoc; reflexivity|].
    split; [constructor; [exact I|exact Hans]|constructor; exact Hp].
  - cbn [run]. destruct (IH (parsed xml env)) as (evs & Htr & Hans & Hp).
    exists (EvXml xml :: evs). split; [rewrite Htr; cbn [parsed trace]; rewrite <- app_assoc; reflexivity|].
    split; [constructor; [exact I|exact Hans]|constructor; exact Hp].
Qed.

Lemma joins_left {A B} (a a' : Prog A) (b : Prog B) ev evs c :
  (∀ evs c, Path a' evs c → Path a (ev :: evs) c) → Answered [ev] →
  joins a' b evs c → joins a b (ev :: evs) c.
Proof.
  intros Hstep Hev. pose proof (Forall_inv Hev) as Hev1.
  destruct c as [[x y]|e|]; cbn [joins].
  - intros (ea & eb & Ha & Hb & Hsh & Hansa & Hansb).
    exists (ev :: ea), eb. split; [apply Hstep; exact Ha|]. split; [exact Hb|].
    split; [constructor; exact Hsh|]. split; [constructor; assumption|exact Hansb].
  - intros [(ea & Ha & Hans)|Hb]; [left|right; exact Hb].
    exists (ev :: ea). split; [apply Hstep; exact Ha|constructor; assumption].
  - intros [(ea & Ha & Hans)|Hb]; [left|right; exact Hb].
    exists (ev :: ea). split; [apply Hstep; exact Ha|constructor; assumption].
Qed.

Lemma joins_right {A B} (a : Prog A) (b b' : Prog B) ev evs c :
  (∀ evs c, Path b' evs c → Path b (ev :: evs) c) → Answered [ev] →
  joins a b' evs c → joins a b (ev :: evs) c.
Proof.
  intros Hstep Hev. pose proof (Forall_inv Hev) as Hev1.
  destruct c as [[x y]|e|]; cbn [joins].
  - intros (ea & eb & Ha & Hb & Hsh & Hansa & Hansb).
    exists ea, (ev :: eb). split; [exact Ha|]. split; [apply Hstep; exact Hb|].
    split; [constructor; exact Hsh|]. split; [exact Hansa|constructor; assumption].
  - intros [Ha|(eb & Hb & Hans)]; [left; exact Ha|right].
    exists (ev :: eb). split; [apply Hstep; exact Hb|constructor; assumption].
  - intros [Ha|(eb & Hb & Hans)]; [left; exact Ha|right].
    exists (ev :: eb). split; [apply Hstep; exact Hb|constructor; assumption].
Qed.

Lemma interleave_joins {A B} (schedule : list Side) :
  ∀ (a : Prog A) (b : Prog B) env,
    ∃ evs,
      trace (interleave schedule a b env).2 = trace env ++ evs ∧
      joins a b evs (interleave schedule a b env).1.
Proof.
  induction schedule as [|side schedule IH]; intros a b env.
  - cbn [interleave].
    destruct (run_path a env) as (ea & Htra & Hansa & Hpa).
    destruct (run a env) as [[x|e|] env1]; cbn [fst snd] in *.
    + destruct (run_path b env1) as (eb & Htrb & Hansb & Hpb).
      destruct (run b env1) as [[y|e|] env2]; cbn [fst snd] in *.
      * exists (ea ++ eb). split; [rewrite Htrb, Htra, app_assoc; reflexivity|].
        exists ea, eb. split; [exact Hpa|]. split; [exact Hpb|].
        split; [apply shuffle_app|]. split; assumption.
      * exists (ea ++ eb). split; [rewrite Htrb, Htra, app_assoc; reflexivity|].
        right. exists eb. split; assumption.
      * exists (ea ++ eb). split; [rewrite Htrb, Htra, app_assoc; reflexivity|].
        right. exists eb. split; assumption.
    + exists ea. split; [exact Htra|]. left. exists ea. split; assumption.
    + exists ea. split; [exact Htra|]. left. exists ea. split; assumption.
  - destruct side.
    + destruct (advance_path a env) as [(c & ->)|(ev & Htr & Hev & Hstep)].
      * destruct c as [x|e|]; cbn [interleave].
        -- apply IH.
        -- exists []. rewrite app_nil_r. split; [reflexivity|].
           left. exists []. split; constructor.
        -- exists []. rewrite app_nil_r. split; [reflexivity|].
           left. exists []. split; constructor.
      * assert (Hgo : interleave (First :: schedule) a b env
                      = interleave schedule (advance a env).1 b (advance a env).2).
        { destruct a as [c|url options k|ms k|html k|xml k]; cbn [interleave].
          - exfalso. cbn [advance snd] in Htr.
            apply (f_equal (@length Event)) in Htr. rewrite length_app in Htr.
            cbn [length] in Htr. lia.
          - destruct (advance (Fetching url options k) env); reflexivity.
          - destruct (advance (Sleeping ms k) env); reflexivity.
          - destruct (advance (Loading html k) env); reflexivity.
          - destruct (advance (Parsing xml k) env); reflexivity. }
        rewrite Hgo.
        destruct (IH (advance a env).1 b (advance a env).2) as (evs & Htr' & Hj).
        exists (ev :: evs). split; [rewrite Htr', Htr, <- app_assoc; reflexivity|].
        exact (joins_left a _ b ev evs _ Hstep Hev Hj).
    + destruct (advance_path b env) as [(c & ->)|(ev & Htr & Hev & Hstep)].
      * destruct c as [y|e|]; cbn [interleave].
        -- apply IH.
        -- exists []. rewrite app_nil_r. split; [reflexivity|].
           right. exists []. split; constructor.
        -- exists []. rewrite app_nil_r. split; [reflexivity|].
           right. exists []. split; constructor.
      * assert (Hgo : interleave (Second :: schedule) a b env
                      = interleave schedule a (advance b env).1 (advance b env).2).
        { destruct b as [c|url options k|ms k|html k|xml k]; cbn [interleave].
          - exfalso. cbn [advance snd] in Htr.
            apply (f_equal (@length Event)) in Htr. rewrite length_app in Htr.
            cbn [length] in Htr. lia.
          - destruct (advance (Fetching url options k) env); reflexivity.
          - destruct (advance (Sleeping ms k) env); reflexivity.
          - destruct (advance (Loading html k) env); reflexivity.
          - destruct (advance (Parsing xml k) env); reflexivity. }
        rewrite Hgo.
        destruct (IH a (advance b env).1 (advance b env).2) as (evs & Htr' & Hj).
        exists (ev :: evs). split; [rewrite Htr', Htr, <- app_assoc; reflexivity|].
        exact (joins_right a b _ ev evs _ Hstep Hev Hj).
Qed.

(** A join goes a way through each of its two sides. *)
Lemma promiseAll_joins {A B} (schedule : list Side) (a : Prog A) (b : Prog B) env :
  ∃ evs,
    trace (promiseAll schedule a b env).2 = trace env ++ evs ∧
    joins a b evs (promiseAll schedule a b env).1.
Proof.
  unfold promiseAll.
  destruct (advance a env) as [a1 env1] eqn:Ha.
  destruct (advance b env1) as [b1 env2] eqn:Hb.
  destruct (interleave_joins schedule a1 b1 env2) as (evs & Htr & Hj).
  destruct (advance_path a env) as [(ca & ->)|(eva & Htra & Heva & Hstepa)];
    destruct (advance_path b env1) as [(cb & ->)|(evb & Htrb & Hevb & Hstepb)];
    rewrite ?Ha, ?Hb in *; cbn [fst snd] in *.
  - cbn [advance] in Ha, Hb. injection Ha as <- <-. injection Hb as <- <-.
    exists evs. split; assumption.
  - cbn [advance] in Ha. injection Ha as <- <-.
    exists (evb :: evs). split; [rewrite Htr, Htrb, <- app_assoc; reflexivity|].
    exact (joins_right _ b b1 evb evs _ Hstepb Hevb Hj).
  - cbn [advance] in Hb. injection Hb as <- <-.
    exists (eva :: evs). split; [rewrite Htr, Htra, <- app_assoc; reflexivity|].
    exact (joins_left a a1 _ eva evs _ Hstepa Heva Hj).
  - exists (eva :: evb :: evs).
    split; [rewrite Htr, Htrb, Htra, <- !app_assoc; reflexivity|].
    apply (joins_left a a1 b eva (evb :: evs) _ Hstepa Heva).
    exact (joins_right a1 b b1 evb evs _ Hstepb Hevb Hj).
Qed.

(** A way through [p] is the run of [p] alone on the network that hands
    out the outcomes met on the way. *)
Lemma path_replay {A} (good : Settled Response → bool) (p : Prog A) evs c :
  Path p evs c → Forall (fun o => good o = true) (fetchOutcomes evs) →
  ∀ tr, @run (replay good H) A p (@mkEnv (replay good H) (fetchOutcomes evs) tr)
        = (c, @mkEnv (replay good H) [] (tr ++ evs)).
Proof.
  induction 1 as [c|url options k o evs c _ IH|ms k evs c _ IH|html k evs c _ IH
                  |xml k evs c _ IH]; intros Hgood tr.
  - cbn [run fetchOutcomes flat_map]. rewrite app_nil_r. reflexivity.
  - cbn [fetchOutcomes flat_map app] in Hgood. inversion Hgood as [|? ? Ho Hrest]; subst.
    cbn [run]. cbn. rewrite Ho. specialize (IH Hrest (tr ++ [EvFetch url o])).
    rewrite <- app_assoc in IH. exact IH.
  - cbn [run]. cbn. specialize (IH Hgood (tr ++ [EvSleep ms])).
    rewrite <- app_assoc in IH. exact IH.
  - cbn [run]. cbn. specialize (IH Hgood (tr ++ [EvCheerio html])).
    rewrite <- app_assoc in IH. exact IH.
  - cbn [run]. cbn. specialize (IH Hgood (tr ++ [EvXml xml])).
    rewrite <- app_assoc in IH. exact IH.
Qed.

Lemma any_outcome (l : list (Settled Response)) : Forall (fun o => anyOutcome o = true) l.
Proof. induction l; constructor; [reflexivity|assumption]. Qed.

(** A way through the feed reader ends with what the text parsed on the
    way holds, and no HTML is loaded on it. *)
Lemma feed_path listPath evs c :
  Path (Async.tryRssFeed listPath) evs c →
  c = Normal (feedFilms (xmlsOf evs)) ∧ loadsOf evs = [].
Proof.
  intros Hp.
  pose proof (path_replay anyOutcome _ _ _ Hp (any_outcome _) []) as Hrun. cbn [app] in Hrun.
  change (@Async.tryRssFeed H listPath)
    with (@Async.tryRssFeed (replay anyOutcome H) listPath) in Hrun.
  rewrite (@agrees_tryRssFeed (replay anyOutcome H) listPath) in Hrun.
  destruct (@tryRssFeed_reads (replay anyOutcome H) listPath
              (@mkEnv (replay anyOutcome H) (fetchOutcomes evs) []))
    as (evs' & Htr & Hres & Hloads).
  rewrite Hrun in Htr, Hres. cbn [fst snd trace app] in Htr, Hres. subst evs'.
  split; [exact Hres|exact Hloads].
Qed.

(** A way through the walker does not end with a thrown value; no XML is
    parsed on it, and a result at its end is what the pages loaded on
    the way hold. *)
Lemma walker_path fuel listPath evs c :
  Path (Async.scrapeAllPages fuel listPath) evs c →
  xmlsOf evs = [] ∧ (∀ e, c ≠ Throw e) ∧ (∀ fs, c = Normal fs → fs = gathered evs).
Proof.
  intros Hp.
  pose proof (path_replay anyOutcome _ _ _ Hp (any_outcome _) []) as Hrun. cbn [app] in Hrun.
  change (@Async.scrapeAllPages H fuel listPath)
    with (@Async.scrapeAllPages (replay anyOutcome H) fuel listPath) in Hrun.
  rewrite (@agrees_scrapeAllPages (replay anyOutcome H) fuel listPath) in Hrun.
  destruct (@scrapeAllPages_reads (replay anyOutcome H) fuel listPath
              (@mkEnv (replay anyOutcome H) (fetchOutcomes evs) []))
    as (evs' & Htr & Hxml & Hnt & Hfilms).
  rewrite Hrun in Htr, Hnt, Hfilms. cbn [fst snd trace app] in Htr, Hnt, Hfilms. subst evs'.
  split; [exact Hxml|]. split; [exact Hnt|exact Hfilms].
Qed.

(** The two sources joined: the join is never rejected, and when both
    have returned, the feed reader's result is what the text parsed
    holds and the walker's is what the pages loaded hold, whatever the
    order in which the two went on. *)
Lemma sources_joined schedule fuel listPath env :
  ∃ evs,
    trace (promiseAll schedule (Async.tryRssFeed listPath)
             (Async.scrapeAllPages fuel listPath) env).2 = trace env ++ evs ∧
    match (promiseAll schedule (Async.tryRssFeed listPath)
             (Async.scrapeAllPages fuel listPath) env).1 with
    | Normal (rssFilms, scrapedFilms) =>
        rssFilms = feedFilms (xmlsOf evs) ∧ scrapedFilms = gathered evs
    | Throw _ => False
    | OutOfFuel =>
        ∃ eb, Path (Async.scrapeAllPages fuel listPath) eb OutOfFuel ∧ Answered eb
    end.
Proof.
  destruct (promiseAll_joins schedule (Async.tryRssFeed listPath)
              (Async.scrapeAllPages fuel listPath) env) as (evs & Htr & Hj).
  exists evs. split; [exact Htr|].
  destruct (promiseAll schedule (Async.tryRssFeed listPath)
              (Async.scrapeAllPages fuel listPath) env).1 as [[rss scraped]|e|];
    cbn [joins] in Hj.
  - destruct Hj as (ea & eb & Ha & Hb & Hsh & _ & _).
    destruct (feed_path _ _ _ Ha) as [Hrss Hloads].
    destruct (walker_path _ _ _ _ Hb) as (Hxml & _ & Hfilms).
    injection Hrss as ->. rewrite (Hfilms scraped eq_refl).
    unfold gathered, xmlsOf, loadsOf in *.
    rewrite (shuffle_flat_map_left _ _ _ _ Hsh Hxml).
    rewrite (shuffle_flat_map_right _ _ _ _ Hsh Hloads). done.
  - destruct Hj as [(ea & Ha & _)|(eb & Hb & _)].
    + destruct (feed_path _ _ _ Ha) as [Hc _]. discriminate.
    + destruct (walker_path _ _ _ _ Hb) as (_ & Hnt & _). exact (Hnt e eq_refl).
  - destruct Hj as [(ea & Ha & _)|Hb]; [|exact Hb].
    destruct (feed_path _ _ _ Ha) as [Hc _]. discriminate.
Qed.
End Paths.

(** ** What the handler answers *)

Section HandlerRuns.
Context `{Collaborators}.

Lemma extractListPath_truthy u listPath :
  extractListPath u = Some listPath → truthy u = true.
Proof. destruct u as [|c u]; [vm_compute; discriminate|reflexivity]. Qed.

Lemma handler_valid schedule fuel u listPath env :
  extractListPath u = Some listPath →
  handler schedule fuel (One u) env =
  match promiseAll schedule (Async.tryRssFeed listPath)
          (Async.scrapeAllPages fuel listPath) env with
  | (Normal r, env') => (Normal (respond r.1 r.2), env')
  | (Throw e, env') => (Normal (failed e), env')
  | (OutOfFuel, env') => (OutOfFuel, env')
  end.
Proof.
  intros Hp. unfold handler, handlerTry. cbn [paramFalsy].
  rewrite (extractListPath_truthy _ _ Hp). cbn [negb].
  unfold tryCatch, bind. cbn [extractListPathOf ret]. rewrite Hp.
  destruct (promiseAll schedule (Async.tryRssFeed listPath)
              (Async.scrapeAllPages fuel listPath) env) as [[r|e|] env']; reflexivity.
Qed.

Lemma handler_invalid schedule fuel u env :
  extractListPath u = None →
  handler schedule fuel (One u) env
  = (Normal {| status := 400;
               body := ErrorBody (if truthy u then "Invalid Letterboxd list URL"
                                  else "URL is required") |}, env).
Proof.
  intros Hp. unfold handler, handlerTry. cbn [paramFalsy].
  destruct (truthy u); cbn [negb]; [|reflexivity].
  unfold tryCatch, bind. cbn [extractListPathOf ret]. rewrite Hp. reflexivity.
Qed.

(** Lines 27-44 on the two results. *)
Lemma respond_picks rssFilms scrapedFilms :
  respond rssFilms scrapedFilms =
  match scrapedFilms, rssFilms with
  | f :: fs, _ => {| status := 200; body := FilmsBody (dedupeFilms (f :: fs)) |}
  | [], Some (f :: fs) => {| status := 200; body := FilmsBody (dedupeFilms (f :: fs)) |}
  | [], _ =>
      {| status := 404;
         body := ErrorBody "Could not fetch list. The list may be private or temporarily unavailable." |}
  end.
Proof.
  assert (Hfull : ∀ f fs,
            (if (length (dedupeFilms (f :: fs)) =? 0)%nat
             then {| status := 404;
                     body := ErrorBody "Could not fetch list. The list may be private or temporarily unavailable." |}
             else {| status := 200; body := FilmsBody (dedupeFilms (f :: fs)) |})
            = {| status := 200; body := FilmsBody (dedupeFilms (f :: fs)) |}).
  { intros f fs. destruct (dedupeFilms (f :: fs)) as [|g gs] eqn:E; [|reflexivity].
    apply (proj1 (dedupeFilms_nil_iff (f :: fs))) in E. discriminate. }
  unfold respond, selectFilms. cbv zeta.
  destruct scrapedFilms as [|f fs]; cbn [length Nat.ltb Nat.leb].
  - destruct rssFilms as [[|f fs]|]; cbn [length Nat.ltb Nat.leb]; [reflexivity| |reflexivity].
    apply Hfull.
  - apply Hfull.
Qed.
End HandlerRuns.

Section HandlerAnswers.
Context `{Collaborators}.

Lemma gathered_slugs (evs : list Event) : Forall (fun f => slug f ≠ "") (gathered evs).
Proof.
  unfold gathered. induction (loadsOf evs) as [|html l IH]; cbn [flat_map].
  - constructor.
  - apply Forall_app. split; [|exact IH].
    eapply Forall_impl; [apply pageFilms_shape|]. intros f Hf. apply Hf.
Qed.

Lemma feedFilms_slugs (xmls : list string) (l : list Film) :
  feedFilms xmls = Some l → Forall (fun f => slug f ≠ "") l.
Proof.
  unfold feedFilms. destruct xmls as [|xml [|? ?]]; try discriminate.
  destruct (xml_parse xml) as [[items|]|e]; try discriminate.
  intros [= <-]. eapply Forall_impl; [apply feed_films_shape|]. intros f Hf. apply Hf.
Qed.

Lemma dedupeFilms_kept (l : list Film) :
  l ≠ [] → Forall (fun f => slug f ≠ "") l →
  dedupeFilms l ≠ [] ∧ NoDup (slug <$> dedupeFilms l)
  ∧ Forall (fun f => slug f ≠ "") (dedupeFilms l).
Proof.
  intros Hne Hall. split; [intros E; exact (Hne (proj1 (dedupeFilms_nil_iff l) E))|].
  split; [apply dedupe_filter_NoDup|].
  eapply Forall_sublist_of; [apply dedupeFilms_sublist|exact Hall].
Qed.

(** What the handler answers, request by request.  Without the
    parameter, or with one that is empty or does not show the list
    pattern, it answers 400 and has asked nothing of any collaborator.
    With the parameter given more than once it answers 500 with the text
    of the [TypeError] that [url.match] raises, again without a call.
    With a list URL, whatever the order in which the feed reader and
    the walker go on, it does not throw, and when it answers, the answer
    is read off the trace: 200 with the deduplicated films of the pages
    loaded when these hold a film; otherwise 200 with the deduplicated
    films of the feed parsed when that holds one; otherwise 404.  The
    films of a 200 are at least one, no two with the same slug and none
    with an empty slug. *)
Theorem handler_answers schedule fuel url env :
  match url with
  | Absent =>
      handler schedule fuel url env
      = (Normal {| status := 400; body := ErrorBody "URL is required" |}, env)
  | Many _ =>
      handler schedule fuel url env
      = (Normal {| status := 500; body := ErrorBody "url.match is not a function" |}, env)
  | One u =>
      match extractListPath u with
      | None =>
          handler schedule fuel url env
          = (Normal {| status := 400;
                       body := ErrorBody (if truthy u then "Invalid Letterboxd list URL"
                                          else "URL is required") |}, env)
      | Some _ =>
          ∃ evs,
            trace (handler schedule fuel url env).2 = trace env ++ evs ∧
            match (handler schedule fuel url env).1 with
            | Normal resp =>
                resp = match gathered evs, feedFilms (xmlsOf evs) with
                       | f :: fs, _ =>
                           {| status := 200; body := FilmsBody (dedupeFilms (f :: fs)) |}
                       | [], Some (f :: fs) =>
                           {| status := 200; body := FilmsBody (dedupeFilms (f :: fs)) |}
                       | [], _ =>
                           {| status := 404;
                              body := ErrorBody "Could not fetch list. The list may be private or temporarily unavailable." |}
                       end ∧
                ∀ fs, body resp = FilmsBody fs →
                      fs ≠ [] ∧ NoDup (slug <$> fs) ∧ Forall (fun f => slug f ≠ "") fs
            | Throw _ => False
            | OutOfFuel => True
            end
      end
  end.
Proof.
  destruct url as [|u|values]; [reflexivity| |reflexivity].
  destruct (extractListPath u) as [listPath|] eqn:Hp; [|apply handler_invalid; exact Hp].
  rewrite (handler_valid _ _ _ _ _ Hp).
  destruct (sources_joined schedule fuel listPath env) as (evs & Htr & Hres).
  exists evs.
  destruct (promiseAll schedule (Async.tryRssFeed listPath)
              (Async.scrapeAllPages fuel listPath) env) as [[[rss scraped]|e|] env'];
    cbn [fst snd] in *; [|contradiction|split; [exact Htr|exact I]].
  split; [exact Htr|]. destruct Hres as [-> ->]. rewrite respond_picks.
  split; [reflexivity|].
  pose proof (gathered_slugs evs) as Hg.
  pose proof (feedFilms_slugs (xmlsOf evs)) as Hf.
  destruct (gathered evs) as [|f fs].
  - destruct (feedFilms (xmlsOf evs)) as [[|f fs]|]; cbn [body]; try discriminate.
    intros l [= <-]. apply dedupeFilms_kept; [discriminate|]. apply Hf. reflexivity.
  - cbn [body]. intros l [= <-]. apply dedupeFilms_kept; [discriminate|exact Hg].
Qed.

Lemma answered_readable (evs : list Event) :
  BodiesReadable → Answered evs → Forall (fun o => readable o = true) (fetchOutcomes evs).
Proof.
  intros Hread. induction 1 as [|ev evs Hev _ IH]; [constructor|].
  destruct ev as [url o| | |]; cbn [fetchOutcomes flat_map app]; try exact IH.
  constructor; [|exact IH].
  destruct Hev as (options & w & Ho).
  destruct o as [r|e]; [|reflexivity]. cbn [readable].
  destruct (ok r) eqn:Hok; [|reflexivity].
  destruct (net_fetch url options w) as [o' w'] eqn:Hnet. cbn [fst] in Ho. subst o'.
  destruct (Hread url options w r w' Hnet Hok) as (html & ->). reflexivity.
Qed.

Lemma replay_readable : @BodiesReadable (replay readable H).
Proof.
  intros url options w r w'. cbn [net_fetch replay].
  destruct w as [|o rest]; [discriminate|].
  destruct (readable o) eqn:Ho; [|discriminate].
  intros [= -> _] Hok. cbn [readable] in Ho. rewrite Hok in Ho.
  destruct (text r) as [html|e]; [eauto|discriminate].
Qed.

(** With bodies that can be read, no way through the walker ends out of
    budget once the budget is 102 turns. *)
Lemma walker_path_ends fuel listPath evs :
  BodiesReadable → (102 ≤ fuel)%nat → Answered evs →
  ¬ Path (Async.scrapeAllPages fuel listPath) evs OutOfFuel.
Proof.
  intros Hread Hfuel Hans Hp.
  pose proof (path_replay readable _ _ _ Hp (answered_readable _ Hread Hans) []) as Hrun.
  change (@Async.scrapeAllPages H fuel listPath)
    with (@Async.scrapeAllPages (replay readable H) fuel listPath) in Hrun.
  rewrite (@agrees_scrapeAllPages (replay readable H) fuel listPath) in Hrun.
  destruct (@scrapeAllPages_terminates (replay readable H) listPath fuel
              (@mkEnv (replay readable H) (fetchOutcomes evs) []) replay_readable Hfuel)
    as (fs & env' & Hend).
  rewrite Hrun in Hend. discriminate.
Qed.

(** When every response with [ok] has a body that can be read, the
    handler answers every request, whatever the network does otherwise
    and whatever the order in which its two sources go on, once the
    walker's loop is given 102 turns. *)
Theorem handler_answers_when_bodies_are_read schedule fuel url env :
  BodiesReadable → (102 ≤ fuel)%nat →
  ∃ resp env', handler schedule fuel url env = (Normal resp, env').
Proof.
  intros Hread Hfuel.
  destruct url as [|u|values]; [eexists _, _; reflexivity| |eexists _, _; reflexivity].
  destruct (extractListPath u) as [listPath|] eqn:Hp.
  2:{ rewrite (handler_invalid schedule fuel u env Hp). eauto. }
  rewrite (handler_valid _ _ _ _ _ Hp).
  destruct (sources_joined schedule fuel listPath env) as (evs & _ & Hres).
  destruct (promiseAll schedule (Async.tryRssFeed listPath)
              (Async.scrapeAllPages fuel listPath) env) as [[r|e|] env'];
    cbn [fst] in Hres; [eauto|contradiction|].
  exfalso. destruct Hres as (eb & Hb & Hans).
  exact (walker_path_ends fuel listPath eb Hread Hfuel Hans Hb).
Qed.
End HandlerAnswers.

Lemma handler_answers_when_bodies_are_read_witness :
  ∃ resp env',
    @handler twoPages (alternately 3) 102
      (One "https://letterboxd.com/alice/list/favorites") (start twoPages 0)
    = (Normal resp, env').
Proof.
  apply (@handler_answers_when_bodies_are_read twoPages (alternately 3) 102
           (One "https://letterboxd.com/alice/list/favorites") (start twoPages 0)
           twoPages_readable).
  lia.
Defined.

(** ** Failures at the handler's boundary *)

Section Boundary.
Context `{Collaborators}.


End Boundary.



(** ** A request that is never answered *)

Section Stateless.
Context `{Collaborators}.

(** On a network whose answers are those met on the way, whatever its
    state, [p] run alone goes that way. *)
Lemma path_run {A} (p : Prog A) evs c :
  Path p evs c →
  Forall (fun ev => match ev with
                    | EvFetch url o => ∀ options w, (net_fetch url options w).1 = o
                    | _ => True
                    end) evs →
  ∀ env, (run p env).1 = c.
Proof.
  induction 1 as [c|url options k o evs c _ IH|ms k evs c _ IH|html k evs c _ IH
                  |xml k evs c _ IH]; intros Hsame env.
  - reflexivity.
  - inversion Hsame as [|? ? Ho Hrest]; subst. cbn [run].
    specialize (Ho options (world env)).
    destruct (net_fetch url options (world env)) as [o' w]. cbn [fst] in Ho. subst o'.
    apply IH. exact Hrest.
  - inversion Hsame; subst. cbn [run]. apply IH. assumption.
  - inversion Hsame; subst. cbn [run]. apply IH. assumption.
  - inversion Hsame; subst. cbn [run]. apply IH. assumption.
Qed.
End Stateless.

Lemma unreadable_fetch n tr :
  @fetchWithRetry unreadable (pageUrl "/alice/list/favorites" 2) pageHeaders
     (@mkEnv unreadable n tr)
  = (Normal (Some {| ok := true; text := Rejected (ErrorObject "terminated") |}),
     @mkEnv unreadable (S n)
        (tr ++ [EvFetch (pageUrl "/alice/list/favorites" 2) brokenBody])).
Proof.
  unfold fetchWithRetry, fetchWithRetryN.
  rewrite (@retryLoop_S unreadable), (@retryTurn_eq unreadable). reflexivity.
Qed.

Lemma unreadable_loop fs :
  ∀ fuel n tr cf, (cf < 2)%nat →
    (@scrapeLoop unreadable fuel "/alice/list/favorites"
       {| films := fs; page := 2; hasMore := true; consecutiveFailures := cf |}
       (@mkEnv unreadable n tr)).1 = OutOfFuel.
Proof.
  induction fuel as [|fuel IH]; intros n tr cf Hcf.
  - cbn [scrapeLoop]. unfold loopCondition. cbn [hasMore consecutiveFailures andb].
    assert (E : (cf <? 2)%nat = true) by (apply Nat.ltb_lt; exact Hcf).
    rewrite E. reflexivity.
  - rewrite (@scrapeLoop_turn unreadable).
    + rewrite (@scrapeTurn_eq unreadable). cbn [page].
      rewrite unreadable_fetch. cbn [ok text failuresReset pageFailed page Nat.eqb
                                       films hasMore consecutiveFailures].
      apply IH. lia.
    + unfold loopCondition. cbn [hasMore consecutiveFailures andb].
      apply Nat.ltb_lt. exact Hcf.
Qed.

Lemma unreadable_walk fuel :
  (@scrapeAllPages unreadable fuel "/alice/list/favorites" (start unreadable 0)).1
  = OutOfFuel.
Proof.
  unfold scrapeAllPages, bind.
  assert (Hloop : (@scrapeLoop unreadable fuel "/alice/list/favorites" initialWalk
                     (start unreadable 0)).1 = OutOfFuel).
  { destruct fuel as [|fuel]; [reflexivity|].
    rewrite (@scrapeLoop_turn unreadable) by reflexivity.
    replace (@scrapeTurn unreadable "/alice/list/favorites" initialWalk (start unreadable 0))
      with (@Normal Turn (Again {| films := [heat]; page := 2; hasMore := true;
                                  consecutiveFailures := 0 |}),
            @mkEnv unreadable 1
              [EvFetch (pageUrl "/alice/list/favorites" 1) (okPage "page-with-next");
               EvCheerio "page-with-next"])
      by (vm_compute; reflexivity).
    apply unreadable_loop. lia. }
  destruct (@scrapeLoop unreadable fuel "/alice/list/favorites" initialWalk
              (start unreadable 0)) as [[w| |] env']; cbn [fst] in Hloop; try discriminate.
  reflexivity.
Qed.

Lemma unreadable_answered (evs : list Event) :
  @Answered unreadable evs →
  Forall (fun ev => match ev with
                    | EvFetch url o =>
                        ∀ options w, (@net_fetch unreadable url options w).1 = o
                    | _ => True
                    end) evs.
Proof.
  intros Hans. eapply Forall_impl; [exact Hans|].
  intros [url o| | |]; try done.
  intros (options & w & <-) options' w'. reflexivity.
Qed.

(** C7, at the inputs where it fails.  A request that gives the
    parameter more than once, which holds no list URL, is answered 500
    and not 400, whatever the values given.  And for a list URL there
    are networks on which no answer is given at all: when page 1
    answers with a film and a next link and every other response has
    [ok] and a body that cannot be read, the handler runs out of every
    budget of turns, in every order of its two sources. *)
Theorem handler_misses_its_answer :
  (∀ (C : Collaborators) schedule fuel values env,
     @handler C schedule fuel (Many values) env
     = (Normal {| status := 500; body := ErrorBody "url.match is not a function" |},
        env)) ∧
  (∀ schedule fuel,
     (@handler unreadable schedule fuel
        (One "https://letterboxd.com/alice/list/favorites/") (start unreadable 0)).1
     = OutOfFuel).
Proof.
  split; [reflexivity|].
  intros schedule fuel.
  rewrite (@handler_valid unreadable schedule fuel
             "https://letterboxd.com/alice/list/favorites/" "/alice/list/favorites"
             (start unreadable 0) ltac:(vm_compute; reflexivity)).
  destruct (@promiseAll_joins unreadable _ _ schedule
              (@Async.tryRssFeed unreadable "/alice/list/favorites")
              (@Async.scrapeAllPages unreadable fuel "/alice/list/favorites")
              (start unreadable 0))
    as (evs & _ & Hj).
  destruct (@promiseAll unreadable _ _ schedule
              (@Async.tryRssFeed unreadable "/alice/list/favorites")
              (@Async.scrapeAllPages unreadable fuel "/alice/list/favorites")
              (start unreadable 0))
    as [[[x y]|e|] env']; cbn [fst joins] in *.
  - exfalso. destruct Hj as (ea & eb & _ & Hb & _ & _ & Hans).
    pose proof (@path_run unreadable _ _ _ _ Hb (unreadable_answered _ Hans)
                  (start unreadable 0)) as Hrun.
    rewrite (@agrees_scrapeAllPages unreadable) in Hrun.
    rewrite unreadable_walk in Hrun. discriminate.
  - exfalso. destruct Hj as [(ea & Ha & _)|(eb & Hb & _)].
    + destruct (@feed_path unreadable _ _ _ Ha) as [Hc _]. discriminate.
    + destruct (@walker_path unreadable _ _ _ _ Hb) as (_ & Hnt & _). exact (Hnt e eq_refl).
  - reflexivity.
Qed.

(** ** Failed pages that the counter misses *)

Lemma stalled_turn fs n tr cf :
  @scrapeTurn stalled "/alice/list/favorites"
     {| films := fs; page := 2; hasMore := true; consecutiveFailures := cf |}
     (@mkEnv stalled (S n) tr)
  = (Normal (Again {| films := fs; page := 2; hasMore := true;
                      consecutiveFailures := 1 |}),
     @mkEnv stalled (S (S n))
        (tr ++ [EvFetch (pageUrl "/alice/list/favorites" 2) brokenBody])).
Proof.
  rewrite (@scrapeTurn_eq stalled). cbn [page]. rewrite stalled_fetch. reflexivity.
Qed.

Lemma replicate_snoc {A} (n : nat) (x : A) : replicate (S n) x = replicate n x ++ [x].
Proof. induction n as [|n IH]; [reflexivity|]. cbn [replicate app] in *. rewrite <- IH. reflexivity. Qed.

Lemma stalled_reaches (n : nat) :
  @WalkReaches stalled "/alice/list/favorites" (initialWalk, start stalled 0)
    ({| films := [heat]; page := 2; hasMore := true; consecutiveFailures := Nat.min n 1 |},
     @mkEnv stalled (S n)
        ([EvFetch (pageUrl "/alice/list/favorites" 1) (okPage "page-with-next");
          EvCheerio "page-with-next"]
         ++ replicate n (EvFetch (pageUrl "/alice/list/favorites" 2) brokenBody))).
Proof.
  induction n as [|n IH].
  - apply (@reaches_one stalled); [reflexivity|vm_compute; reflexivity].
  - eapply (@reaches_trans stalled); [exact IH|].
    apply (@reaches_one stalled).
    + unfold loopCondition. cbn [hasMore consecutiveFailures andb].
      apply Nat.ltb_lt. lia.
    + rewrite stalled_turn, replicate_snoc, app_assoc.
      replace (Nat.min (S n) 1) with 1%nat by lia. reflexivity.
Qed.

(** C3, at the inputs where it fails.  Page 1 of the list is scraped
    and has a next link; from then on every response has [ok] and a body
    that cannot be read, so that every load of page 2 fails and runs the
    [catch] block.  Whatever the number [n] of these failures in a row,
    two or more, the walker has not stopped: it stands at its loop test
    with the counter at one and the condition true, having asked for
    page 2 [n] times.  Likewise when the fetch of page 2 first fails
    outright and the next one brings a response with [ok] whose body
    cannot be read: after these two failed pages in a row the counter
    stands at one and the walk goes on. *)
Theorem unread_pages_are_not_counted :
  (∀ n, ∃ env,
     @WalkReaches stalled "/alice/list/favorites" (initialWalk, start stalled 0)
       ({| films := [heat]; page := 2; hasMore := true;
           consecutiveFailures := Nat.min n 1 |}, env) ∧
     loopCondition {| films := [heat]; page := 2; hasMore := true;
                      consecutiveFailures := Nat.min n 1 |} = true ∧
     fetchUrls (trace env)
     = pageUrl "/alice/list/favorites" 1
       :: replicate n (pageUrl "/alice/list/favorites" 2) ∧
     fetchOutcomes (trace env) = okPage "page-with-next" :: replicate n brokenBody) ∧
  (∃ env,
     @WalkReaches hiccupThenBroken "/alice/list/favorites"
       (initialWalk, start hiccupThenBroken 0)
       ({| films := [heat]; page := 2; hasMore := true; consecutiveFailures := 1 |}, env) ∧
     loopCondition {| films := [heat]; page := 2; hasMore := true;
                      consecutiveFailures := 1 |} = true ∧
     fetchOutcomes (trace env)
     = [okPage "page-with-next"; notOk; notOk; notOk; brokenBody]).
Proof.
  split.
  - intros n. eexists. split; [apply stalled_reaches|].
    split; [unfold loopCondition; cbn [hasMore consecutiveFailures andb];
            apply Nat.ltb_lt; lia|].
    cbn [trace]. unfold fetchUrls, fetchOutcomes. rewrite !flat_map_app.
    cbn [flat_map app].
    split; f_equal; induction n as [|n IH]; cbn [replicate flat_map app];
      [reflexivity|rewrite IH; reflexivity|reflexivity|rewrite IH; reflexivity].
  - eexists. split.
    + eapply (@reaches_turn hiccupThenBroken); [reflexivity|vm_compute; reflexivity|].
      eapply (@reaches_turn hiccupThenBroken); [reflexivity|vm_compute; reflexivity|].
      eapply (@reaches_turn hiccupThenBroken); [reflexivity|vm_compute; reflexivity|].
      apply reaches_here.
    + split; [reflexivity|vm_compute; reflexivity].
Qed.

(** ** What the movie-details handler answers *)

Example movie_handler_found :
  (@MovieDetails.handler alwaysOk demoTmdb (One "The Matrix (1999)") (start alwaysOk 0)).1
  = Normal {| d_status := 200;
              d_body := DetailsFound
                {| d_title := Some "The Matrix"; d_year := "1999";
                   d_runtime := "136 min"; d_director := "Lana Wachowski";
                   d_poster := Some "https://image.tmdb.org/t/p/w500/p.jpg";
                   d_backdrop := None; d_tmdbId := "603" |} |}.
Proof. vm_compute. reflexivity. Qed.

Example movie_handler_down :
  (@MovieDetails.handler down demoTmdb (One "The Matrix (1999)") (start down 0)).1
  = Normal {| d_status := 404; d_body := DetailsError "Movie not found" |}.
Proof. vm_compute. reflexivity. Qed.

(** A request that gives the title twice: no movie, and no request. *)
Example movie_handler_repeated_title :
  @MovieDetails.handler alwaysOk demoTmdb (Many ["Heat"; "Ran"]) (start alwaysOk 0)
  = (Normal {| d_status := 404; d_body := DetailsError "Movie not found" |},
     start alwaysOk 0).
Proof. reflexivity. Qed.

Lemma decimal_truthy (n : nat) : truthy (decimal n) = true.
Proof. unfold decimal. destruct (Nat.to_uint n); reflexivity. Qed.

Section MovieAnswers.
Context `{Collaborators} `{Tmdb}.

Lemma searchTmdbByTitle_spec title env :
  ∃ o w,
    net_fetch (MovieDetails.searchUrl title) MovieDetails.tmdbHeaders (world env) = (o, w) ∧
    MovieDetails.searchTmdbByTitle (One title) env
    = (Normal (option_map decimal (MovieDetails.firstId o)),
       fetched (MovieDetails.searchUrl title) o w env).
Proof.
  unfold MovieDetails.searchTmdbByTitle, MovieDetails.firstId, tryCatch, bind, fetch, fetched.
  destruct (net_fetch (MovieDetails.searchUrl title) MovieDetails.tmdbHeaders (world env))
    as [[r|e] w]; cbn [awaitSettled ret throw].
  - exists (Fulfilled r), w. split; [reflexivity|].
    destruct (ok r); cbn [negb ret]; [|reflexivity].
    destruct (search_json r) as [data|e]; cbn [awaitSettled ret throw]; [|reflexivity].
    destruct (results data) as [[|first rest]|]; cbn [ret]; try reflexivity.
    destruct (hit_id first); reflexivity.
  - exists (Rejected e), w. split; reflexivity.
Qed.

Lemma fetchTmdbDetails_spec tmdbId env :
  ∃ o w,
    net_fetch (MovieDetails.movieUrl tmdbId) MovieDetails.tmdbHeaders (world env) = (o, w) ∧
    ((∃ details, MovieDetails.fetchTmdbDetails tmdbId env
                 = (Normal details, fetched (MovieDetails.movieUrl tmdbId) o w env)
                 ∧ d_tmdbId details = tmdbId ∧ succeeded o = true) ∨
     (∃ e, MovieDetails.fetchTmdbDetails tmdbId env
           = (Throw e, fetched (MovieDetails.movieUrl tmdbId) o w env)
           ∧ (succeeded o = false → (∃ x, o = Rejected x ∧ e = x)
                                     ∨ e = ErrorObject "TMDB API request failed"))).
Proof.
  unfold MovieDetails.fetchTmdbDetails, bind, fetch, fetched.
  destruct (net_fetch (MovieDetails.movieUrl tmdbId) MovieDetails.tmdbHeaders (world env))
    as [[r|e] w]; cbn [awaitSettled ret throw succeeded].
  - exists (Fulfilled r), w. split; [reflexivity|].
    destruct (ok r) eqn:Hok; cbn [negb throw].
    + destruct (movie_json r) as [data|e]; cbn [awaitSettled ret throw].
      * left. eexists. split; [reflexivity|]. split; [reflexivity|exact Hok].
      * right. exists e. split; [reflexivity|]. cbn [succeeded]. congruence.
    + right. eexists. split; [reflexivity|]. intros _. right. reflexivity.
  - exists (Rejected e), w. split; [reflexivity|]. right. exists e.
    split; [reflexivity|]. intros _. left. eauto.
Qed.

(** The movie-details handler always answers and never throws.  Without
    a title it answers 400, and with one but without an API key 500, in
    both cases before anything is asked of the network.  With the title
    given more than once it answers 404, again without a request.  With
    one title it asks once, for the search of that title: when the
    outcome holds no id of a first hit it answers 404; when it holds
    one, it asks once more, for the movie of that id, and answers 200
    with details that carry the id, or 500 when that request fails, the
    text of the 500 being "TMDB API request failed" when the movie
    request was answered without [ok]. *)
Theorem movie_handler_answers (title : Param) env :
  ∃ answer env' evs,
    MovieDetails.handler title env = (Normal answer, env') ∧
    trace env' = trace env ++ evs ∧
    if paramFalsy title then
      answer = {| d_status := 400; d_body := DetailsError "Title is required" |}
      ∧ env' = env
    else if negb MovieDetails.keyConfigured then
      answer = {| d_status := 500; d_body := DetailsError "TMDB API key not configured" |}
      ∧ env' = env
    else
      match title with
      | One t =>
          ∃ o, fetchOutcomes evs !! 0%nat = Some o ∧
          match MovieDetails.firstId o with
          | None =>
              answer = {| d_status := 404; d_body := DetailsError "Movie not found" |}
              ∧ fetchUrls evs = [MovieDetails.searchUrl t]
          | Some id =>
              ∃ o2,
                fetchUrls evs
                = [MovieDetails.searchUrl t; MovieDetails.movieUrl (decimal id)] ∧
                fetchOutcomes evs !! 1%nat = Some o2 ∧
                ((∃ details,
                    answer = {| d_status := 200; d_body := DetailsFound details |}
                    ∧ d_tmdbId details = decimal id ∧ succeeded o2 = true) ∨
                 (∃ message,
                    answer = {| d_status := 500; d_body := DetailsError message |}
                    ∧ (∀ r, o2 = Fulfilled r → ok r = false →
                            message = "TMDB API request failed")))
          end
      | _ =>
          answer = {| d_status := 404; d_body := DetailsError "Movie not found" |}
          ∧ env' = env
      end.
Proof.
  assert (Hsame : ∀ a : DetailsAnswer,
            ∃ answer env' evs,
              (Normal a, env) = (Normal answer, env') ∧ trace env' = trace env ++ evs ∧
              answer = a ∧ env' = env).
  { intros a. exists a, env, []. rewrite app_nil_r. done. }
  unfold MovieDetails.handler.
  destruct (paramFalsy title) eqn:Hfalsy.
  { destruct (Hsame {| d_status := 400; d_body := DetailsError "Title is required" |})
      as (a & e' & evs & ? & ? & ? & ?). exists a, e', evs. done. }
  destruct MovieDetails.keyConfigured eqn:Hk; cbn [negb].
  2:{ destruct (Hsame {| d_status := 500;
                         d_body := DetailsError "TMDB API key not configured" |})
        as (a & e' & evs & ? & ? & ? & ?). exists a, e', evs. done. }
  destruct title as [|t|values]; [discriminate| |].
  2:{ destruct (Hsame {| d_status := 404; d_body := DetailsError "Movie not found" |})
        as (a & e' & evs & ? & ? & ? & ?). exists a, e', evs. done. }
  unfold tryCatch, bind.
  destruct (searchTmdbByTitle_spec t env) as (o & w & Hnet & ->).
  set (env1 := fetched (MovieDetails.searchUrl t) o w env).
  destruct (MovieDetails.firstId o) as [id|] eqn:Hid; cbn [option_map].
  2:{ eexists _, env1, [EvFetch (MovieDetails.searchUrl t) o].
      split; [reflexivity|]. split; [reflexivity|].
      exists o. split; [reflexivity|]. rewrite Hid. split; reflexivity. }
  rewrite decimal_truthy. cbn [negb].
  destruct (fetchTmdbDetails_spec (decimal id) env1) as (o2 & w2 & Hnet2 & Hres).
  destruct Hres as [(details & Hrun & Hd & Hok)|(e & Hrun & Hmsg)]; rewrite Hrun.
  - eexists _, _, [EvFetch (MovieDetails.searchUrl t) o;
                   EvFetch (MovieDetails.movieUrl (decimal id)) o2].
    split; [reflexivity|].
    split; [cbn [fetched trace env1]; rewrite <- app_assoc; reflexivity|].
    exists o. split; [reflexivity|]. rewrite Hid.
    exists o2. split; [reflexivity|]. split; [reflexivity|].
    left. exists details. done.
  - eexists _, _, [EvFetch (MovieDetails.searchUrl t) o;
                   EvFetch (MovieDetails.movieUrl (decimal id)) o2].
    split; [reflexivity|].
    split; [cbn [fetched trace env1]; rewrite <- app_assoc; reflexivity|].
    exists o. split; [reflexivity|]. rewrite Hid.
    exists o2. split; [reflexivity|]. split; [reflexivity|].
    right. eexists. split; [reflexivity|].
    intros r -> Hnok.
    destruct (Hmsg Hnok) as [(x & Hx & _)|Hm]; [discriminate|rewrite Hm; reflexivity].
Qed.
End MovieAnswers.

(** ** The first two requests *)

Section FirstCalls.
Context `{Collaborators}.

Lemma tryRssFeed_head listPath :
  ∃ k, Async.tryRssFeed listPath
       = Fetching ("https://letterboxd.com" +:+ listPath +:+ "/rss/") rssHeaders k.
Proof. eexists. reflexivity. Qed.

Lemma scrapeAllPages_head fuel listPath :
  ∃ k, Async.scrapeAllPages (S fuel) listPath
       = Fetching (pageUrl listPath 1) pageHeaders k.
Proof. eexists. reflexivity. Qed.

(** Both sources are called before anything is awaited: for a list URL,
    whatever the network does and whatever the order in which the two
    go on afterwards, the first request of the handler is for the feed
    of the list and the second for its page 1. *)
Theorem handler_asks_both_sources_first schedule fuel u listPath env :
  extractListPath u = Some listPath → (1 ≤ fuel)%nat →
  ∃ o1 o2 evs,
    trace (handler schedule fuel (One u) env).2
    = trace env
      ++ EvFetch ("https://letterboxd.com" +:+ listPath +:+ "/rss/") o1
      :: EvFetch (pageUrl listPath 1) o2 :: evs.
Proof.
  intros Hp Hfuel. destruct fuel as [|fuel]; [lia|].
  rewrite (handler_valid _ _ _ _ _ Hp).
  assert (Hall : ∃ o1 o2 evs,
            trace (promiseAll schedule (Async.tryRssFeed listPath)
                     (Async.scrapeAllPages (S fuel) listPath) env).2
            = trace env
              ++ EvFetch ("https://letterboxd.com" +:+ listPath +:+ "/rss/") o1
              :: EvFetch (pageUrl listPath 1) o2 :: evs).
  { destruct (tryRssFeed_head listPath) as (ka & ->).
    destruct (scrapeAllPages_head fuel listPath) as (kb & ->).
    unfold promiseAll. cbn [advance].
    destruct (net_fetch ("https://letterboxd.com" +:+ listPath +:+ "/rss/") rssHeaders
                (world env)) as [o1 w1].
    cbn [fetched world].
    destruct (net_fetch (pageUrl listPath 1) pageHeaders w1) as [o2 w2].
    destruct (interleave_joins schedule (ka o1) (kb o2)
                (fetched (pageUrl listPath 1) o2 w2
                   (fetched ("https://letterboxd.com" +:+ listPath +:+ "/rss/") o1 w1 env)))
      as (evs & Htr & _).
    exists o1, o2, evs. rewrite Htr. cbn [fetched trace].
    rewrite <- !app_assoc. reflexivity. }
  destruct Hall as (o1 & o2 & evs & Htr). exists o1, o2, evs.
  destruct (promiseAll schedule (Async.tryRssFeed listPath)
              (Async.scrapeAllPages (S fuel) listPath) env) as [[r|e|] env'];
    exact Htr.
Qed.
End FirstCalls.

Lemma handler_asks_both_sources_first_witness :
  ∃ o1 o2 evs,
    trace (@handler fifthOnly (alternately 4) 102
             (One "https://letterboxd.com/alice/list/favorites/") (start fifthOnly 0)).2
    = trace (start fifthOnly 0)
      ++ EvFetch ("https://letterboxd.com" +:+ "/alice/list/favorites" +:+ "/rss/") o1
      :: EvFetch (pageUrl "/alice/list/favorites" 1) o2 :: evs.
Proof.
  apply (@handler_asks_both_sources_first fifthOnly (alternately 4) 102
           "https://letterboxd.com/alice/list/favorites/" "/alice/list/favorites"
           (start fifthOnly 0)).
  - vm_compute. reflexivity.
  - lia.
Defined.
